(** * tick::Benchmark (utils.hpp): a shallow embedding and its properties

    The benchmarking core of [utils.hpp] is embedded function by function.
    A C++ [double] is a binary64 value, modelled by Rocq's primitive [float]
    (IEEE 754 binary64, round to nearest even), so every arithmetic step of
    the source rounds here exactly as it does in the program (each operation
    rounds on its own: no product is fused into a sum).  A [size_t] is
    a 64-bit unsigned integer, modelled as a [Z] in [0, 2^64) with its
    wrap-around written out; a [std::vector<double>] is a [list float].
    Undefined behaviour of the source (an out-of-range index, dereferencing
    [end()], an out-of-range conversion) is the result [None]; a call that
    can also leave by an exception has an [outcome]: it returns, it throws,
    or its behaviour is undefined.

    What the program takes from its environment is a parameter of the model:
    the steady clock and the operation under test are variables of the
    section of the runner, the stream formatting of numbers is a variable of
    the section of the reports, and the file system is a record of file
    contents together with what each path answers to an open for writing
    and to a query of its status. *)

From Stdlib Require Import ZArith List Bool Lia Floats String Ascii.
From Stdlib Require Import Permutation Sorted.
Import ListNotations.

Set Warnings "-inexact-float".

(** ** Conversions between integers and doubles *)

Module Dbl.

(** [static_cast<double>(n)] for an integer [n]: the nearest binary64 value,
    ties to even. *)
Definition of_Z (z : Z) : float :=
  SF2Prim (binary_normalize prec emax z 0 false).

(** The integer part of a finite double, rounding toward zero. *)
Definition trunc_SF (x : spec_float) : option Z :=
  match x with
  | S754_zero _ => Some 0%Z
  | S754_finite s m e => Some (cond_Zopp s (Z.shiftl (Zpos m) e))
  | S754_infinity _ | S754_nan => None
  end.

Definition size_max : Z := 2 ^ 64.

(** [static_cast<size_t>(d)]: truncation toward zero; the conversion is
    undefined when the truncated value is not a [size_t]. *)
Definition to_size_t (d : float) : option Z :=
  match trunc_SF (Prim2SF d) with
  | Some z => if ((0 <=? z) && (z <? size_max))%Z then Some z else None
  | None => None
  end.

(** [n - 1] on [size_t]: wraps around at zero. *)
Definition size_pred (n : Z) : Z := ((n - 1) mod size_max)%Z.

(** The size of a vector, as a [size_t]. *)
Definition size (v : list float) : Z := Z.of_nat (List.length v).

End Dbl.

(** ** [std::sort] on a vector of doubles

    [std::sort(v.begin(), v.end())] orders by [operator<]; it is modelled by
    an insertion sort on the same comparison. *)

Fixpoint insert (x : float) (l : list float) : list float :=
  match l with
  | [] => [x]
  | y :: l' => if (y <? x)%float then y :: insert x l' else x :: y :: l'
  end.

Fixpoint sort (v : list float) : list float :=
  match v with
  | [] => []
  | x :: v' => insert x (sort v')
  end.

(** ** Statistics helpers of [tick::Benchmark] *)

Module Benchmark.

Definition sum (v : list float) : float :=
  fold_left (fun s x => (s + x)%float) v 0%float.

(** [mean]: [sum / v.size()]. *)
Definition mean (v : list float) : float :=
  (sum v / Dbl.of_Z (Dbl.size v))%float.

Definition sum_sq (v : list float) (avg : float) : float :=
  fold_left (fun s x => (s + (x - avg) * (x - avg))%float) v 0%float.

(** [stddev]: [sqrt(sum / v.size())] over the squared deviations. *)
Definition stddev (v : list float) (avg : float) : float :=
  sqrt (sum_sq v avg / Dbl.of_Z (Dbl.size v))%float.

(** [v[idx]]: reading past the end is undefined. *)
Definition at_index (v : list float) (idx : Z) : option float :=
  if (idx <? Dbl.size v)%Z then nth_error v (Z.to_nat idx) else None.

(** The index [static_cast<size_t>(p * (v.size() - 1))]. *)
Definition percentile_index (n : Z) (p : float) : option Z :=
  Dbl.to_size_t (p * Dbl.of_Z (Dbl.size_pred n))%float.

(** [percentile]: the by-value argument is sorted and indexed. *)
Definition percentile (v : list float) (p : float) : option float :=
  let v := sort v in
  match percentile_index (Dbl.size v) p with
  | Some idx => at_index v idx
  | None => None
  end.

Definition in_fences (lo hi x : float) : bool :=
  (lo <=? x)%float && (x <=? hi)%float.

(** [filter_outliers]: Tukey fences on the sorted copy. *)
Definition filter_outliers (v : list float) : option (list float) :=
  let v := sort v in
  match percentile v 0.25%float, percentile v 0.75%float with
  | Some q1, Some q3 =>
      let iqr := (q3 - q1)%float in
      let lo := (q1 - 1.5 * iqr)%float in
      let hi := (q3 + 1.5 * iqr)%float in
      Some (filter (in_fences lo hi) v)
  | _, _ => None
  end.

(** [*std::min_element(v.begin(), v.end())]: the first smallest element;
    dereferencing [end()] on an empty vector is undefined. *)
Fixpoint min_from (best : float) (l : list float) : float :=
  match l with
  | [] => best
  | x :: l' => min_from (if (x <? best)%float then x else best) l'
  end.

Definition min_element (v : list float) : option float :=
  match v with
  | [] => None
  | x :: l => Some (min_from x l)
  end.

(** [*std::max_element(v.begin(), v.end())]: the first largest element. *)
Fixpoint max_from (best : float) (l : list float) : float :=
  match l with
  | [] => best
  | x :: l' => max_from (if (best <? x)%float then x else best) l'
  end.

Definition max_element (v : list float) : option float :=
  match v with
  | [] => None
  | x :: l => Some (max_from x l)
  end.

(** *** The harness object *)

Inductive CsvWriteMode := Truncate | Append.

(** [iterations], [warmup] and [batch_size] are [size_t] loop bounds; they
    are natural numbers here and are converted as 64-bit values where the
    source converts them. *)
Record t := mk {
  iterations : nat;
  warmup : nat;
  batch_size : nat;
  samples : list float
}.

(** [explicit Benchmark(size_t iters = 10'000)]. *)
Definition make (iters : nat) : t :=
  {| iterations := iters; warmup := 1000; batch_size := 1; samples := [] |}.

Definition set_samples (b : t) (s : list float) : t :=
  {| iterations := iterations b; warmup := warmup b;
     batch_size := batch_size b; samples := s |}.

(** [corrected < 0 ? 0 : corrected]. *)
Definition clamp (corrected : float) : float :=
  if (corrected <? 0)%float then 0%float else corrected.

(** *** The runner

    The operation under test and the clock act on the outside world, which
    is threaded through every call.  [now] is [clock_t::now()]; [ms_between
    s e] is the [count()] of [std::chrono::duration<double, std::milli>]
    converted from [e - s], which <chrono> computes from two time points. *)
Section Runner.

Variable World : Type.
Variable time_point : Type.
Variable now : World -> time_point * World.
Variable ms_between : time_point -> time_point -> float.

(** The function object passed to [run]. *)
Variable func : World -> World.

(** [for (j = 0; j < batch_size; ++j) func();] (the compiler barrier
    [ClobberMemory] has no effect on the state). *)
Fixpoint batch (j : nat) (w : World) : World :=
  match j with
  | O => w
  | S j' => batch j' (func w)
  end.

Fixpoint warmup_loop (i : nat) (bs : nat) (w : World) : World :=
  match i with
  | O => w
  | S i' => warmup_loop i' bs (batch bs w)
  end.

Fixpoint overhead_loop (i : nat) (total : float) (w : World)
  : float * World :=
  match i with
  | O => (total, w)
  | S i' =>
      let (s, w1) := now w in
      let (e, w2) := now w1 in
      overhead_loop i' (total + ms_between s e)%float w2
  end.

(** [measure_overhead]: [total / iterations]. *)
Definition measure_overhead (b : t) (w : World) : float * World :=
  let (total, w') := overhead_loop (iterations b) 0%float w in
  ((total / Dbl.of_Z (Z.of_nat (iterations b)))%float, w').

Fixpoint timed_loop (i : nat) (bs : nat) (overhead : float)
    (acc : list float) (w : World) : list float * World :=
  match i with
  | O => (acc, w)
  | S i' =>
      let (start, w1) := now w in
      let w2 := batch bs w1 in
      let (end_, w3) := now w2 in
      let corrected := (ms_between start end_ - overhead)%float in
      timed_loop i' bs overhead (acc ++ [clamp corrected]) w3
  end.

(** [run]: clear, warm up, calibrate, then time [iterations] batches. *)
Definition run (b : t) (w : World) : t * World :=
  let cleared := @nil float in
  let w1 := warmup_loop (warmup b) (batch_size b) w in
  let (overhead, w2) := measure_overhead b w1 in
  let (s, w3) := timed_loop (iterations b) (batch_size b) overhead cleared w2 in
  (set_samples b s, w3).

End Runner.

(** *** Reports

    [operator<<] on a [double] and on a [size_t] belong to the stream
    library; they are parameters.  [fmt_double prec x] is the text written
    for [x] by a stream whose precision is [prec]. *)

Definition bind {A B : Type} (o : option A) (k : A -> option B) : option B :=
  match o with
  | Some a => k a
  | None => None
  end.

Notation "x <- e ;; k" := (bind e (fun x => k))
  (at level 61, e at next level, right associativity).

(** How a call ends that can leave by an exception: it returns a value,
    it throws, or its behaviour is undefined. *)
Inductive exception := filesystem_error.

Inductive outcome (A : Type) :=
| Returns (a : A)
| Throws (e : exception)
| Undef.

Arguments Returns {A}.
Arguments Throws {A}.
Arguments Undef {A}.

Definition obind {A B : Type} (o : outcome A) (k : A -> outcome B) : outcome B :=
  match o with
  | Returns a => k a
  | Throws e => Throws e
  | Undef => Undef
  end.

Notation "x <~ e ;; k" := (obind e (fun x => k))
  (at level 61, e at next level, right associativity).

(** A helper whose result is [None] has undefined behaviour. *)
Definition defined {A : Type} (o : option A) : outcome A :=
  match o with
  | Some a => Returns a
  | None => Undef
  end.

(** What a path answers.  It can be opened for writing (then it resolves,
    so its status can be read as well); or the open fails while the status
    can be read, possibly as [not found] (a directory, a file without write
    permission, a missing parent directory); or the status itself cannot be
    read (a directory on the way that may not be searched, a name that is
    too long, a loop of symbolic links), and the open fails for the same
    reason. *)
Inductive Access := Openable | Unopenable | NoStatus.

(** The file system seen by [export_csv]: the contents of the files that
    exist, and what each path answers. *)
Record FS := mkFS {
  contents : string -> option string;
  access : string -> Access
}.

(** Whether [std::ofstream file(path, ...)] opens. *)
Definition can_open (fs : FS) (path : string) : bool :=
  match access fs path with
  | Openable => true
  | Unopenable | NoStatus => false
  end.

(** [std::filesystem::exists(path)], the overload without [error_code]: it
    throws [filesystem_error] when the status of the path cannot be read. *)
Definition exists_ (fs : FS) (path : string) : outcome bool :=
  match access fs path with
  | NoStatus => Throws filesystem_error
  | Openable | Unopenable =>
      Returns match contents fs path with
              | Some _ => true
              | None => false
              end
  end.

Definition write_file (fs : FS) (path : string) (text : string) : FS :=
  {| contents := fun q => if String.eqb q path then Some text else contents fs q;
     access := access fs |}.

Definition csv_header : string :=
  "Iterations,BatchSize,SamplesUsed,Min(ms),Max(ms),Mean(ms),Stddev(ms),p50(ms),p90(ms),p95(ms),p99(ms),PerOpAvg(ms)
".

Definition nl : string := "
".

Section Report.

Variable fmt_double : nat -> float -> string.
Variable fmt_size : nat -> string.

Local Open Scope string_scope.

(** The default precision of [std::cout]. *)
Definition cout_precision : nat := 6.

(** [print_stats() const]: [cout] is the text that [std::cout] has been
    given so far, and the result is that text followed by what the call
    inserts.  Where the stream buffer of [std::cout] sends it, and a stream
    without a buffer, are the matter of [BenchmarkCout.print_stats]. *)
Definition print_stats (b : t) (cout : string) : option (t * string) :=
  match samples b with
  | [] => Some (b, cout)
  | _ :: _ =>
      clean <- filter_outliers (samples b) ;;
      min_t <- min_element clean ;;
      max_t <- max_element clean ;;
      let avg := mean clean in
      let sd := stddev clean avg in
      let d := fmt_double cout_precision in
      let out1 :=
        cout ++ "Benchmark results" ++ nl
        ++ "  Iterations: " ++ fmt_size (iterations b) ++ nl
        ++ "  Batch size: " ++ fmt_size (batch_size b) ++ nl
        ++ "  Samples:    " ++ fmt_size (List.length clean) ++ nl ++ nl
        ++ "  Min:   " ++ d min_t ++ " ms" ++ nl
        ++ "  Max:   " ++ d max_t ++ " ms" ++ nl
        ++ "  Mean:  " ++ d avg ++ " ms" ++ nl
        ++ "  Stddev:" ++ d sd ++ " ms" ++ nl ++ nl in
      p50 <- percentile clean 0.50%float ;;
      p90 <- percentile clean 0.90%float ;;
      p95 <- percentile clean 0.95%float ;;
      p99 <- percentile clean 0.99%float ;;
      Some (b,
        out1
        ++ "  p50: " ++ d p50 ++ " ms" ++ nl
        ++ "  p90: " ++ d p90 ++ " ms" ++ nl
        ++ "  p95: " ++ d p95 ++ " ms" ++ nl
        ++ "  p99: " ++ d p99 ++ " ms" ++ nl ++ nl
        ++ "  Per-op avg: "
        ++ d (avg / Dbl.of_Z (Z.of_nat (batch_size b)))%float
        ++ " ms" ++ nl)
  end.

(** The data row of [export_csv], written at precision 10. *)
Definition csv_row (b : t) (clean : list float)
    (min_t max_t avg sd : float) : option string :=
  let d := fmt_double 10 in
  p50 <- percentile clean 0.50%float ;;
  p90 <- percentile clean 0.90%float ;;
  p95 <- percentile clean 0.95%float ;;
  p99 <- percentile clean 0.99%float ;;
  Some (fmt_size (iterations b) ++ ","
        ++ fmt_size (batch_size b) ++ ","
        ++ fmt_size (List.length clean) ++ ","
        ++ d min_t ++ ","
        ++ d max_t ++ ","
        ++ d avg ++ ","
        ++ d sd ++ ","
        ++ d p50 ++ ","
        ++ d p90 ++ ","
        ++ d p95 ++ ","
        ++ d p99 ++ ","
        ++ d (avg / Dbl.of_Z (Z.of_nat (batch_size b)))%float ++ nl).

(** [export_csv(filename, mode) const].  [exists] is called in [Append]
    mode only ([&&] does not evaluate it otherwise), and before the file is
    opened: when it throws, the call ends there. *)
Definition export_csv (b : t) (filename : string) (mode : CsvWriteMode)
    (fs : FS) : outcome (t * FS) :=
  match samples b with
  | [] => Returns (b, fs)
  | _ :: _ =>
      clean <~ defined (filter_outliers (samples b)) ;;
      min_t <~ defined (min_element clean) ;;
      max_t <~ defined (max_element clean) ;;
      let avg := mean clean in
      let sd := stddev clean avg in
      append_to_existing <~
        match mode with
        | Append => exists_ fs filename
        | Truncate => Returns false
        end ;;
      let write_header := negb append_to_existing in
      if negb (can_open fs filename) then Returns (b, fs)
      else
        (* the stream is open: [trunc] empties the file, [app] keeps it *)
        let opened :=
          match mode, contents fs filename with
          | Append, Some old => old
          | _, _ => EmptyString
          end in
        let with_header :=
          if write_header then opened ++ csv_header else opened in
        row <~ defined (csv_row b clean min_t max_t avg sd) ;;
        Returns (b, write_file fs filename (with_header ++ row))
  end.

End Report.

End Benchmark.

(** ** Namespace [snatch]: redirecting the standard streams

    The structs of [snatch] exchange the stream buffer of [std::cout] (and
    [std::cerr]).  The process state holds the stream buffers by address,
    the buffer pointer of each of the two streams, and the [std::string]
    variables that the structs hold by reference.  A stream whose buffer
    pointer is null has [badbit] set and writes nothing; [rdbuf(sb)] clears
    the state, so a stream is good exactly when its pointer is not null.
    Following a null or dangling buffer pointer is undefined. *)

Module snatch.

(** What a call leaves: a value, undefined behaviour, or a recursion that
    was cut. *)
Inductive result (A : Type) :=
| Done (a : A)
| Undefined
| OutOfFuel.

Arguments Done {A}.
Arguments Undefined {A}.
Arguments OutOfFuel {A}.

Definition rbind {A B : Type} (r : result A) (k : A -> result B) : result B :=
  match r with
  | Done a => k a
  | Undefined => Undefined
  | OutOfFuel => OutOfFuel
  end.

Notation "x <-- e ;; k" := (rbind e (fun x => k))
  (at level 61, e at next level, right associativity).

(** A [std::stringbuf] (the terminal is one that is never read back), a
    [Tee::TeeBuffer] with its two pointers, or a destroyed buffer. *)
Inductive streambuf :=
| StringBuf (text : string)
| TeeBuffer (buf1 buf2 : option nat)
| Destroyed.

Record Process := mkProcess {
  bufs : list streambuf;
  cout_rdbuf : option nat;
  cerr_rdbuf : option nat;
  strings : nat -> string
}.

Definition set_bufs (bs : list streambuf) (p : Process) : Process :=
  {| bufs := bs; cout_rdbuf := cout_rdbuf p; cerr_rdbuf := cerr_rdbuf p;
     strings := strings p |}.

(** [std::cout.rdbuf(sb)] and [std::cerr.rdbuf(sb)]. *)
Definition set_cout_rdbuf (sb : option nat) (p : Process) : Process :=
  {| bufs := bufs p; cout_rdbuf := sb; cerr_rdbuf := cerr_rdbuf p;
     strings := strings p |}.

Definition set_cerr_rdbuf (sb : option nat) (p : Process) : Process :=
  {| bufs := bufs p; cout_rdbuf := cout_rdbuf p; cerr_rdbuf := sb;
     strings := strings p |}.

(** Assignment to a [std::string] held by reference. *)
Definition assign (var : nat) (s : string) (p : Process) : Process :=
  {| bufs := bufs p; cout_rdbuf := cout_rdbuf p; cerr_rdbuf := cerr_rdbuf p;
     strings := fun v => if Nat.eqb v var then s else strings p v |}.

Fixpoint store {A : Type} (a : nat) (x : A) (l : list A) : list A :=
  match l, a with
  | [], _ => []
  | _ :: l', O => x :: l'
  | y :: l', S a' => y :: store a' x l'
  end.

(** A new buffer, at the next free address. *)
Definition new_buf (b : streambuf) (p : Process) : nat * Process :=
  (List.length (bufs p), set_bufs (bufs p ++ [b]) p).

(** The end of a buffer's lifetime. *)
Definition destroy (a : nat) (p : Process) : Process :=
  set_bufs (store a Destroyed (bufs p)) p.

(** [sb->sputc(c)].  A string buffer appends the character.  A
    [TeeBuffer] has no put area, so [sputc] calls its [overflow]:
    [buf1->sputc(c); return buf2->sputc(c);]. *)
Fixpoint sputc (fuel : nat) (bs : list streambuf) (sb : option nat) (c : ascii)
  : result (list streambuf) :=
  match fuel with
  | O => OutOfFuel
  | S fuel' =>
      match sb with
      | None => Undefined
      | Some a =>
          match nth_error bs a with
          | Some (StringBuf s) =>
              Done (store a (StringBuf (s ++ String c EmptyString)) bs)
          | Some (TeeBuffer buf1 buf2) =>
              bs1 <-- sputc fuel' bs buf1 c ;;
              sputc fuel' bs1 buf2 c
          | Some Destroyed | None => Undefined
          end
      end
  end.

Fixpoint sputn (fuel : nat) (bs : list streambuf) (sb : option nat) (text : string)
  : result (list streambuf) :=
  match text with
  | EmptyString => Done bs
  | String c rest =>
      bs1 <-- sputc fuel bs sb c ;;
      sputn fuel bs1 sb rest
  end.

(** [os << text] on a stream with buffer pointer [sb]. *)
Definition write (sb : option nat) (text : string) (p : Process) : result Process :=
  match sb with
  | None => Done p
  | Some _ =>
      bs <-- sputn (S (List.length (bufs p))) (bufs p) sb text ;;
      Done (set_bufs bs p)
  end.

(** [std::cout << text] and [std::cerr << text]. *)
Definition write_cout (text : string) (p : Process) : result Process :=
  write (cout_rdbuf p) text p.

Definition write_cerr (text : string) (p : Process) : result Process :=
  write (cerr_rdbuf p) text p.

(** [oss.str()] of the string stream whose buffer is at [a]. *)
Definition str (a : nat) (p : Process) : result string :=
  match nth_error (bufs p) a with
  | Some (StringBuf s) => Done s
  | _ => Undefined
  end.

Module Capture.

Record t := mk {
  var : nat;
  func : Process -> result Process
}.

Definition update (c : t) (p : Process) : result Process :=
  let (oss, p) := new_buf (StringBuf EmptyString) p in
  let oldCout := cout_rdbuf p in
  let p := set_cout_rdbuf (Some oss) p in
  p <-- func c p ;;
  let p := set_cout_rdbuf oldCout p in
  s <-- str oss p ;;
  let p := assign (var c) s p in
  Done (destroy oss p).

(** The constructor captures at once. *)
Definition make (variable : nat) (f : Process -> result Process) (p : Process)
  : t * result Process :=
  let c := {| var := variable; func := f |} in (c, update c p).

End Capture.

Module Guard.

Record t := mk {
  buffer : nat;
  original_buffer : option nat;
  destination : nat
}.

Definition make (dest : nat) (p : Process) : t * Process :=
  let (buf, p) := new_buf (StringBuf EmptyString) p in
  let orig := cout_rdbuf p in
  ({| buffer := buf; original_buffer := orig; destination := dest |},
   set_cout_rdbuf (Some buf) p).

(** The destructor; the member [buffer] is destroyed after its body. *)
Definition drop (g : t) (p : Process) : result Process :=
  let p := set_cout_rdbuf (original_buffer g) p in
  s <-- str (buffer g) p ;;
  let p := assign (destination g) s p in
  Done (destroy (buffer g) p).

End Guard.

Module DualCapture.

Record t := mk {
  cout_var : nat;
  cerr_var : nat;
  func : Process -> result Process
}.

Definition update (c : t) (p : Process) : result Process :=
  let (cout_oss, p) := new_buf (StringBuf EmptyString) p in
  let (cerr_oss, p) := new_buf (StringBuf EmptyString) p in
  let old_cout := cout_rdbuf p in
  let old_cerr := cerr_rdbuf p in
  let p := set_cout_rdbuf (Some cout_oss) p in
  let p := set_cerr_rdbuf (Some cerr_oss) p in
  p <-- func c p ;;
  let p := set_cout_rdbuf old_cout p in
  let p := set_cerr_rdbuf old_cerr p in
  s <-- str cout_oss p ;;
  let p := assign (cout_var c) s p in
  s <-- str cerr_oss p ;;
  let p := assign (cerr_var c) s p in
  Done (destroy cout_oss (destroy cerr_oss p)).

Definition make (cout_dest cerr_dest : nat) (f : Process -> result Process)
    (p : Process) : t * result Process :=
  let c := {| cout_var := cout_dest; cerr_var := cerr_dest; func := f |} in
  (c, update c p).

End DualCapture.

Module Mute.

Record t := mk { original_buffer : option nat }.

Definition make (p : Process) : t * Process :=
  ({| original_buffer := cout_rdbuf p |}, set_cout_rdbuf None p).

Definition drop (m : t) (p : Process) : Process :=
  set_cout_rdbuf (original_buffer m) p.

End Mute.

Module Tee.

Record t := mk {
  buffer : nat;
  original_buffer : option nat;
  destination : nat;
  tee_buffer : nat
}.

Definition make (dest : nat) (p : Process) : t * Process :=
  let (buf, p) := new_buf (StringBuf EmptyString) p in
  let orig := cout_rdbuf p in
  let (tb, p) := new_buf (TeeBuffer orig (Some buf)) p in
  ({| buffer := buf; original_buffer := orig; destination := dest; tee_buffer := tb |},
   set_cout_rdbuf (Some tb) p).

Definition drop (g : t) (p : Process) : result Process :=
  let p := set_cout_rdbuf (original_buffer g) p in
  s <-- str (buffer g) p ;;
  let p := assign (destination g) s p in
  let p := destroy (tee_buffer g) p in
  Done (destroy (buffer g) p).

End Tee.

End snatch.


(** ** [snatch::Repent]

    A constructor argument is a value that [operator<<] can write, given by
    the text written for it, a [std::chrono::system_clock::time_point], or
    a callable, given by what it returns.  [put_time t] is the text of
    [std::put_time(std::localtime(&t), "%Y-%m-%d %H:%M:%S")]. *)

Module Repent.

Section PutTime.

Variable time_point : Type.
Variable put_time : time_point -> string.

Inductive arg :=
| Streamed (text : string)
| TimePoint (t : time_point)
| Callable (result : arg).

Local Open Scope string_scope.

Fixpoint toString (val : arg) : string :=
  match val with
  | Callable result =>
      let s := toString result in
      match s with
      | String c _ => if Ascii.eqb c "@" then s else " " ++ s
      | EmptyString => s
      end
  | TimePoint t => " @ " ++ put_time t
  | Streamed text => text
  end.

(** [Repent(v, after)] and [Repent(v, before, after)]: the member [value]. *)
Definition make2 (v after : arg) : string := toString v ++ toString after.

Definition make3 (v before after : arg) : string :=
  (toString before ++ toString v) ++ toString after.

End PutTime.

Arguments Streamed {time_point}.
Arguments TimePoint {time_point}.
Arguments Callable {time_point}.

End Repent.


(** ** [tick::Timer] and [tick::NamedTimer]

    The scope timers read the clock when constructed and when destroyed,
    and write one line to [std::cout].  [to_string] is
    [std::to_string(double)]; [std::endl] writes a newline. *)

Module tick.

Import snatch.

Inductive TimeUnit := Seconds | Milliseconds | Microseconds | Nanoseconds.

Definition endl : string := String (ascii_of_nat 10) EmptyString.

Section Clock.

Variable World : Type.
Variable time_point : Type.
Variable now : World -> time_point * World.
Variable seconds_between : time_point -> time_point -> float.
Variable to_string : float -> string.

Local Open Scope string_scope.

Definition format_duration (d : float) (u : TimeUnit) : string :=
  match u with
  | Seconds => to_string d ++ "s"
  | Milliseconds => to_string (d * 1000)%float ++ "ms"
  | Microseconds => to_string (d * 1000000)%float ++ "us"
  | Nanoseconds => to_string (d * 1000000000)%float ++ "ns"
  end.

Record Timer := mkTimer {
  unit : TimeUnit;
  start : time_point
}.

Definition Timer_make (u : TimeUnit) (w : World) : Timer * World :=
  let (n, w) := now w in ({| unit := u; start := n |}, w).

Definition Timer_drop (t : Timer) (w : World) (p : Process)
  : result (World * Process) :=
  let (end_, w) := now w in
  let duration := seconds_between (start t) end_ in
  p <-- write_cout "Timer took " p ;;
  p <-- write_cout (format_duration duration (unit t)) p ;;
  p <-- write_cout endl p ;;
  Done (w, p).

Record NamedTimer := mkNamedTimer {
  label : string;
  named_unit : TimeUnit;
  named_start : time_point
}.

Definition NamedTimer_make (name : string) (u : TimeUnit) (w : World)
  : NamedTimer * World :=
  let (n, w) := now w in
  ({| label := name; named_unit := u; named_start := n |}, w).

Definition NamedTimer_drop (t : NamedTimer) (w : World) (p : Process)
  : result (World * Process) :=
  let (end_, w) := now w in
  let duration := seconds_between (named_start t) end_ in
  p <-- write_cout (label t) p ;;
  p <-- write_cout ": " p ;;
  p <-- write_cout (format_duration duration (named_unit t)) p ;;
  p <-- write_cout endl p ;;
  Done (w, p).

End Clock.

Arguments unit {time_point}.
Arguments start {time_point}.
Arguments label {time_point}.
Arguments named_unit {time_point}.
Arguments named_start {time_point}.

End tick.


(** ** [Benchmark::print_stats] and the stream buffer of [std::cout]

    [print_stats] inserts its text into [std::cout], which sends it to
    whatever stream buffer it has when the call is made: the terminal, the
    buffer of a [snatch::Guard], a [TeeBuffer], or none under a
    [snatch::Mute].  Here the call acts on the process state of [snatch],
    one [cout_all] per statement of the source. *)

Module BenchmarkCout.

Import snatch Benchmark.

(** [std::cout << a << b << ...;]: the insertions of one statement, from
    left to right. *)
Fixpoint cout_all (texts : list string) (p : Process) : result Process :=
  match texts with
  | [] => Done p
  | text :: rest => p <-- write_cout text p ;; cout_all rest p
  end.

(** A helper whose result is [None] has undefined behaviour. *)
Definition value_of {A : Type} (o : option A) : result A :=
  match o with
  | Some a => Done a
  | None => Undefined
  end.

Section Report.

Variable fmt_double : nat -> float -> string.
Variable fmt_size : nat -> string.

Local Open Scope string_scope.

Definition print_stats (b : t) (p : Process) : result (t * Process) :=
  match samples b with
  | [] => Done (b, p)
  | _ :: _ =>
      clean <-- value_of (filter_outliers (samples b)) ;;
      min_t <-- value_of (min_element clean) ;;
      max_t <-- value_of (max_element clean) ;;
      let avg := mean clean in
      let sd := stddev clean avg in
      let d := fmt_double cout_precision in
      p <-- cout_all ["Benchmark results" ++ nl] p ;;
      p <-- cout_all ["  Iterations: "; fmt_size (iterations b); nl] p ;;
      p <-- cout_all ["  Batch size: "; fmt_size (batch_size b); nl] p ;;
      p <-- cout_all ["  Samples:    "; fmt_size (List.length clean); nl ++ nl] p ;;
      p <-- cout_all ["  Min:   "; d min_t; " ms" ++ nl] p ;;
      p <-- cout_all ["  Max:   "; d max_t; " ms" ++ nl] p ;;
      p <-- cout_all ["  Mean:  "; d avg; " ms" ++ nl] p ;;
      p <-- cout_all ["  Stddev:"; d sd; " ms" ++ nl ++ nl] p ;;
      p50 <-- value_of (percentile clean 0.50%float) ;;
      p <-- cout_all ["  p50: "; d p50; " ms" ++ nl] p ;;
      p90 <-- value_of (percentile clean 0.90%float) ;;
      p <-- cout_all ["  p90: "; d p90; " ms" ++ nl] p ;;
      p95 <-- value_of (percentile clean 0.95%float) ;;
      p <-- cout_all ["  p95: "; d p95; " ms" ++ nl] p ;;
      p99 <-- value_of (percentile clean 0.99%float) ;;
      p <-- cout_all ["  p99: "; d p99; " ms" ++ nl ++ nl] p ;;
      p <-- cout_all ["  Per-op avg: ";
                      d (avg / Dbl.of_Z (Z.of_nat (batch_size b)))%float;
                      " ms" ++ nl] p ;;
      Done (b, p)
  end.

End Report.

End BenchmarkCout.


(** ** [tick::Stopwatch]

    [steady::now()] reads the clock of the outside world; [seconds_between s
    e] is the [count()] of [e - s] converted to
    [std::chrono::duration<double>], which is what [accumulated += e - s]
    adds.  [epoch] is the value of a default-constructed time point. *)

Module Stopwatch.

Section Clock.

Variable World : Type.
Variable time_point : Type.
Variable now : World -> time_point * World.
Variable seconds_between : time_point -> time_point -> float.
Variable epoch : time_point.

Record t := mk {
  start_time : time_point;
  accumulated : float;
  running : bool
}.

(** The members' default initialisers. *)
Definition init : t :=
  {| start_time := epoch; accumulated := 0%float; running := false |}.

Definition start (sw : t) (w : World) : t * World :=
  let (n, w') := now w in
  ({| start_time := n; accumulated := 0%float; running := true |}, w').

Definition pause (sw : t) (w : World) : t * World :=
  if running sw then
    let (n, w') := now w in
    ({| start_time := start_time sw;
        accumulated := (accumulated sw + seconds_between (start_time sw) n)%float;
        running := false |}, w')
  else (sw, w).

Definition resume (sw : t) (w : World) : t * World :=
  if negb (running sw) then
    let (n, w') := now w in
    ({| start_time := n; accumulated := accumulated sw; running := true |}, w')
  else (sw, w).

Definition stop (sw : t) (w : World) : t * World :=
  if running sw then
    let (n, w') := now w in
    ({| start_time := start_time sw;
        accumulated := (accumulated sw + seconds_between (start_time sw) n)%float;
        running := false |}, w')
  else (sw, w).

(** [total() const]: the clock is read only while the stopwatch runs. *)
Definition total (sw : t) (w : World) : float * World :=
  let t := accumulated sw in
  if running sw then
    let (n, w') := now w in
    ((t + seconds_between (start_time sw) n)%float, w')
  else (t, w).

Definition elapsed_s (sw : t) (w : World) : float * World := total sw w.

Definition elapsed_ms (sw : t) (w : World) : float * World :=
  let (t, w') := total sw w in ((t * 1000)%float, w').

Definition elapsed_us (sw : t) (w : World) : float * World :=
  let (t, w') := total sw w in ((t * 1000000)%float, w').

Definition elapsed_ns (sw : t) (w : World) : float * World :=
  let (t, w') := total sw w in ((t * 1000000000)%float, w').

End Clock.

Arguments start_time {time_point}.
Arguments accumulated {time_point}.
Arguments running {time_point}.

End Stopwatch.


(** * Notions used to state the properties *)

(** ** Binary64 numbers as [spec_float]

    The primitive operations are specified on [spec_float]; what follows
    names the parts of [binary_round_aux], the classes of numbers and their
    value. *)

Module B64.

Local Open Scope Z_scope.

(** The number of binary digits of a mantissa. *)
Definition dig (m : Z) : Z := Zdigits2 m.

(** Whether the bits shifted out so far were not all zero. *)
Definition inexact (mrs : shr_record) : bool := shr_r mrs || shr_s mrs.

(** The exponent of the binary64 format for a number of magnitude [e]:
    [max (e - 53) (-1074)]. *)
Definition fexp64 (e : Z) : Z := SpecFloat.fexp prec emax e.

(** The last step of [binary_round_aux]: a zero, a finite number, or an
    infinity on overflow. *)
Definition build (sx : bool) (m e : Z) : spec_float :=
  match m with
  | 0 => S754_zero sx
  | Zpos p => if e <=? 971 then S754_finite sx p e else S754_infinity sx
  | Zneg _ => S754_nan
  end.

(** The number of low bits that [shr_fexp] drops from [m * 2^e]. *)
Definition shift_of (m e : Z) : Z := Z.max 0 (fexp64 (dig m + e) - e).

(** [binary_round_aux] on an input that needs no rounding. *)
Definition finalize (sx : bool) (m e : Z) : spec_float :=
  build sx (m / 2 ^ shift_of m e) (e + shift_of m e).

(** A positive mantissa and exponent in canonical form. *)
Definition canon (m e : Z) : Prop := 0 < m /\ fexp64 (dig m + e) = e.

(** The order of canonical numbers is the lexicographic order of exponent
    and mantissa. *)
Definition lex_le (m1 e1 m2 e2 : Z) : Prop := e1 < e2 \/ (e1 = e2 /\ m1 <= m2).

(** What rounding an exact input [mx * 2^ex] to nearest may return: a
    mantissa [mr] and exponent [er] next to the exact quotient. *)
Definition rounded (mx ex mr er : Z) : Prop :=
  let e1 := fexp64 (dig mx + ex) in
  let q := mx / 2 ^ (e1 - ex) in
  0 <= mr /\ e1 <= er /\
  q <= mr * 2 ^ (er - e1) <= q + 1 /\
  (mx mod 2 ^ (e1 - ex) = 0 -> mr * 2 ^ (er - e1) = q) /\
  (mr = 0 \/ fexp64 (dig mr + er) = er).

(** The sign of a number that is not a NaN. *)
Definition has_sign (s : bool) (x : spec_float) : Prop :=
  match x with
  | S754_nan => False
  | S754_zero s' | S754_infinity s' | S754_finite s' _ _ => s' = s
  end.

(** A finite number with its mantissa aligned to the exponent [ez]. *)
Definition aligned (s : bool) (m : positive) (e ez : Z) : Z :=
  cond_Zopp s (Zpos m * 2 ^ (e - ez)).

(** Classes of numbers. *)
Definition SFfin (x : spec_float) : bool :=
  match x with
  | S754_zero _ | S754_finite _ _ _ => true
  | _ => false
  end.

Definition SFnn (x : spec_float) : bool :=
  match x with
  | S754_zero _ | S754_finite false _ _ | S754_infinity false => true
  | _ => false
  end.

Definition SFnotnan (x : spec_float) : bool :=
  match x with
  | S754_nan => false
  | _ => true
  end.

(** The value of a valid finite number, in units of [2^-1074]. *)
Definition scaled (x : spec_float) : Z :=
  match x with
  | S754_finite s m e => cond_Zopp s (Zpos m * 2 ^ (e + 1074))
  | _ => 0
  end.

(** The value one, in units of [2^-1074]. *)
Definition unit1074 : Z := 2 ^ 1074.

(** The doubles [1.0] and [0.5]. *)
Definition one_SF : spec_float := S754_finite false 4503599627370496 (-52).

Definition half_SF : spec_float := S754_finite false 4503599627370496 (-53).

End B64.

(** ** Samples, fences and reports *)

Module Spec.

Import B64 Benchmark.

(** [a <= b] on doubles. *)
Definition le (a b : float) : Prop := (a <=? b)%float = true.

(** Vectors that [std::sort] accepts ([operator<] is a strict weak order on
    them), and vectors of finite values. *)
Definition no_nan (v : list float) : Prop := Forall (fun x => is_nan x = false) v.

Definition all_finite (v : list float) : Prop :=
  Forall (fun x => is_finite x = true) v.

(** Number of occurrences of a value (the same binary64 datum). *)
Definition count (x : float) (v : list float) : nat :=
  List.length (filter (fun y => Leibniz.eqb x y) v).

(** The floor of a finite double: its value is [scaled / 2^1074]. *)
Definition floor_double (d : float) : Z := (scaled (Prim2SF d) / unit1074)%Z.

(** The fences computed from the two quartiles. *)
Definition lower_fence (q1 q3 : float) : float := (q1 - 1.5 * (q3 - q1))%float.
Definition upper_fence (q1 q3 : float) : float := (q3 + 1.5 * (q3 - q1))%float.

(** An integer number of units [2^-1074] that some finite double has as
    its value. *)
Definition representable (z : Z) : Prop :=
  exists s : float, is_finite s = true /\ scaled (Prim2SF s) = z.

(** The running sum of a constant sequence after [j] additions of [c]. *)
Definition is_partial_sum (c : float) (j : Z) (a : float) : Prop :=
  is_finite a = true /\ scaled (Prim2SF a) = (j * scaled (Prim2SF c))%Z /\
  (j = 0%Z -> a = 0%float).

(** The raw durations measured by the timed phase, in milliseconds: one
    per iteration, each taken around a batch. *)
Fixpoint timed_raws {World time_point : Type}
    (now : World -> time_point * World)
    (ms_between : time_point -> time_point -> float)
    (func : World -> World) (i bs : nat) (w : World) : list float :=
  match i with
  | O => []
  | S i' =>
      let (start, w1) := now w in
      let w2 := batch World func bs w1 in
      let (end_, w3) := now w2 in
      ms_between start end_ :: timed_raws now ms_between func i' bs w3
  end.

(** The report of the specification: a snapshot whose every statistic is
    computed from the cleaned set. *)
Record Report := mkReport {
  r_iterations : nat;
  r_batch_size : nat;
  r_samples_used : nat;
  r_min : float;
  r_max : float;
  r_mean : float;
  r_stddev : float;
  r_p50 : float;
  r_p90 : float;
  r_p95 : float;
  r_p99 : float;
  r_per_op_avg : float
}.

Definition report_of (b : t) (clean : list float) : option Report :=
  min_t <- min_element clean ;;
  max_t <- max_element clean ;;
  p50 <- percentile clean 0.50%float ;;
  p90 <- percentile clean 0.90%float ;;
  p95 <- percentile clean 0.95%float ;;
  p99 <- percentile clean 0.99%float ;;
  Some {| r_iterations := iterations b;
          r_batch_size := batch_size b;
          r_samples_used := List.length clean;
          r_min := min_t;
          r_max := max_t;
          r_mean := mean clean;
          r_stddev := stddev clean (mean clean);
          r_p50 := p50; r_p90 := p90; r_p95 := p95; r_p99 := p99;
          r_per_op_avg := (mean clean / Dbl.of_Z (Z.of_nat (batch_size b)))%float |}.

(** What a successful [export_csv] leaves before the data row. *)
Definition csv_prefix (mode : CsvWriteMode) (fs : FS) (path : string) : string :=
  match mode with
  | Truncate => csv_header
  | Append =>
      match contents fs path with
      | Some old => old
      | None => csv_header
      end
  end.

Section Text.

Variable fmt_double : nat -> float -> string.
Variable fmt_size : nat -> string.

Local Open Scope string_scope.

(** The console block of the specification. *)
Definition console_text (r : Report) : string :=
  let d := fmt_double cout_precision in
  ("Benchmark results" ++ nl
   ++ "  Iterations: " ++ fmt_size (r_iterations r) ++ nl
   ++ "  Batch size: " ++ fmt_size (r_batch_size r) ++ nl
   ++ "  Samples:    " ++ fmt_size (r_samples_used r) ++ nl ++ nl
   ++ "  Min:   " ++ d (r_min r) ++ " ms" ++ nl
   ++ "  Max:   " ++ d (r_max r) ++ " ms" ++ nl
   ++ "  Mean:  " ++ d (r_mean r) ++ " ms" ++ nl
   ++ "  Stddev:" ++ d (r_stddev r) ++ " ms" ++ nl ++ nl)
  ++ ("  p50: " ++ d (r_p50 r) ++ " ms" ++ nl
      ++ "  p90: " ++ d (r_p90 r) ++ " ms" ++ nl
      ++ "  p95: " ++ d (r_p95 r) ++ " ms" ++ nl
      ++ "  p99: " ++ d (r_p99 r) ++ " ms" ++ nl ++ nl
      ++ "  Per-op avg: " ++ d (r_per_op_avg r) ++ " ms" ++ nl).

(** The CSV data row of the specification. *)
Definition csv_text (r : Report) : string :=
  let d := fmt_double 10 in
  fmt_size (r_iterations r) ++ ","
  ++ fmt_size (r_batch_size r) ++ ","
  ++ fmt_size (r_samples_used r) ++ ","
  ++ d (r_min r) ++ ","
  ++ d (r_max r) ++ ","
  ++ d (r_mean r) ++ ","
  ++ d (r_stddev r) ++ ","
  ++ d (r_p50 r) ++ ","
  ++ d (r_p90 r) ++ ","
  ++ d (r_p95 r) ++ ","
  ++ d (r_p99 r) ++ ","
  ++ d (r_per_op_avg r) ++ nl.

End Text.

End Spec.

Import Benchmark Spec.

(** Sample objects used to instantiate the theorems below. *)
Definition demo_samples : list float := [5; 3; 1; 2; 4]%float.

Definition demo_bench : t := set_samples (make 5) demo_samples.

(** A clock that ticks once per reading, and a work load that costs one
    tick; a duration is a whole number of microseconds. *)
Definition demo_now (w : nat) : nat * nat := (w, S w).

Definition demo_ms (s e : nat) : float :=
  if (e - s <=? 1)%nat then 0.001%float else 0.002%float.

Definition demo_fs : FS := {| contents := fun _ => None; access := fun _ => Openable |}.

Definition demo_fmt_double (prec : nat) (x : float) : string := "x".

Definition demo_fmt_size (n : nat) : string := "n".

(** ** Notions for the further properties *)

(** A duration that is finite and not negative. *)
Definition nonneg_finite (x : float) : Prop :=
  is_finite x = true /\ (0 <=? x)%float = true.

(** The index that [percentile] computes for the factor [c] and
    [z = N - 1]. *)
Definition rank (c : float) (z : Z) : Z :=
  (B64.scaled (Prim2SF (c * Dbl.of_Z z)%float) / B64.unit1074)%Z.

(** Sequences of calls on a stopwatch, and what a steady clock keeps true
    of it: the accumulated time is not negative, and a running stopwatch
    was started no later than [last w], a time that no later reading of the
    clock precedes. *)
Module StopwatchSpec.

Inductive call := Start | Pause | Resume | Stop.

Section Calls.

Variable World : Type.
Variable time_point : Type.
Variable now : World -> time_point * World.
Variable seconds_between : time_point -> time_point -> float.

Definition step (c : call) (sw : Stopwatch.t time_point) (w : World)
  : Stopwatch.t time_point * World :=
  match c with
  | Start => Stopwatch.start World time_point now sw w
  | Pause => Stopwatch.pause World time_point now seconds_between sw w
  | Resume => Stopwatch.resume World time_point now sw w
  | Stop => Stopwatch.stop World time_point now seconds_between sw w
  end.

Fixpoint perform (cs : list call) (sw : Stopwatch.t time_point) (w : World)
  : Stopwatch.t time_point * World :=
  match cs with
  | [] => (sw, w)
  | c :: cs' => let (sw', w') := step c sw w in perform cs' sw' w'
  end.

Variable before : time_point -> time_point -> Prop.
Variable last : World -> time_point.

Definition steady_inv (sw : Stopwatch.t time_point) (w : World) : Prop :=
  B64.SFnn (Prim2SF (Stopwatch.accumulated sw)) = true /\
  (Stopwatch.running sw = true -> before (Stopwatch.start_time sw) (last w)).

End Calls.

End StopwatchSpec.

(** Nested callables, and runs of spaces. *)
Module RepentSpec.

Fixpoint nested {time_point : Type} (n : nat) (a : Repent.arg time_point)
  : Repent.arg time_point :=
  match n with
  | O => a
  | S n' => Repent.Callable (nested n' a)
  end.

Fixpoint spaces (n : nat) : string :=
  match n with
  | O => EmptyString
  | S n' => String " " (spaces n')
  end.

End RepentSpec.

(** A world that counts the invocations and the readings of the clock. *)
Definition demo_count_now (w : nat * nat) : nat * (nat * nat) :=
  (snd w, (fst w, S (snd w))).

Definition demo_count_func (w : nat * nat) : nat * nat := (S (fst w), snd w).

(** Whole seconds between two readings of the ticking clock. *)
Definition demo_seconds (s e : nat) : float :=
  if (s <=? e)%nat then Dbl.of_Z (Z.of_nat (e - s)) else (-1)%float.

(** A process whose terminal shows nothing yet: buffer 0 is that of
    [std::cout], buffer 1 that of [std::cerr]. *)
Definition demo_process : snatch.Process :=
  {| snatch.bufs := [snatch.StringBuf EmptyString; snatch.StringBuf EmptyString];
     snatch.cout_rdbuf := Some 0%nat; snatch.cerr_rdbuf := Some 1%nat;
     snatch.strings := fun _ => EmptyString |}.

(** * Binary64 arithmetic

    Facts on the operations of [SpecFloat], which specify the primitive
    floats: how [binary_round_aux] rounds, that the rounded value lies on the
    same side of every representable bound as the exact one, and what this
    gives for sums, differences, products and quotients. *)

Module B64Facts.

Import B64.

Local Open Scope Z_scope.

Ltac cmp_cases :=
  repeat match goal with
  | |- context [Z.compare ?a ?b] => destruct (Z.compare_spec a b)
  | H : context [Z.compare ?a ?b] |- _ => destruct (Z.compare_spec a b)
  | |- context [Pos.compare_cont Eq ?a ?b] =>
      change (Pos.compare_cont Eq a b) with (Pos.compare a b);
      destruct (Pos.compare_spec a b)
  | H : context [Pos.compare_cont Eq ?a ?b] |- _ =>
      change (Pos.compare_cont Eq a b) with (Pos.compare a b) in H;
      destruct (Pos.compare_spec a b)
  end.

Lemma digits2_pos_log2 (m : positive) :
  Zpos (digits2_pos m) = Z.log2 (Zpos m) + 1.
Proof.
  induction m as [m IH|m IH|]; simpl digits2_pos.
  - rewrite Pos2Z.inj_succ, IH. simpl Z.log2. destruct m; simpl; lia.
  - rewrite Pos2Z.inj_succ, IH. simpl Z.log2. destruct m; simpl; lia.
  - reflexivity.
Qed.

Lemma dig_log2 m : 0 < m -> dig m = Z.log2 m + 1.
Proof.
  destruct m; try lia. intros _. apply digits2_pos_log2.
Qed.

Lemma dig_bounds m : 0 < m -> 2 ^ (dig m - 1) <= m < 2 ^ dig m.
Proof.
  intros H. rewrite dig_log2 by assumption.
  replace (Z.log2 m + 1 - 1) with (Z.log2 m) by lia.
  replace (Z.log2 m + 1) with (Z.succ (Z.log2 m)) by lia.
  apply Z.log2_spec; assumption.
Qed.

Lemma dig_pos m : 0 < m -> 0 < dig m.
Proof. intros H. rewrite dig_log2 by assumption. pose proof (Z.log2_nonneg m). lia. Qed.

Lemma dig_unique m d : 2 ^ (d - 1) <= m < 2 ^ d -> 0 < d -> dig m = d.
Proof.
  intros H Hd. assert (0 < m) by (pose proof (Z.pow_pos_nonneg 2 (d-1)); lia).
  rewrite dig_log2 by assumption.
  assert (Z.log2 m = d - 1); [|lia].
  apply Z.log2_unique; [lia|]. replace (Z.succ (d-1)) with d by lia. assumption.
Qed.

(** One step of the right shift with sticky bits. *)
Lemma shr_1_m mrs : 0 <= shr_m mrs -> shr_m (shr_1 mrs) = shr_m mrs / 2.
Proof.
  destruct mrs as [m r s]; simpl. intros H.
  destruct m as [|p|p]; try lia; [reflexivity|].
  destruct p; simpl shr_m.
  - rewrite Pos2Z.inj_xI. apply Z.div_unique with 1; lia.
  - rewrite Pos2Z.inj_xO. apply Z.div_unique with 0; lia.
  - reflexivity.
Qed.

Lemma shr_1_inexact mrs : 0 <= shr_m mrs ->
  inexact (shr_1 mrs) = inexact mrs || Z.odd (shr_m mrs).
Proof.
  destruct mrs as [m r s]; unfold inexact; simpl. intros H.
  destruct m as [|p|p]; try lia; [simpl; destruct r, s; reflexivity|].
  destruct p; simpl; destruct r, s; reflexivity.
Qed.

Lemma iter_pos_nat {A} (f : A -> A) p x :
  iter_pos f p x = Nat.iter (Pos.to_nat p) f x.
Proof.
  revert x; induction p as [p IH|p IH|]; intros x; simpl iter_pos.
  - rewrite !IH. rewrite Pos2Nat.inj_xI.
    replace (S (2 * Pos.to_nat p)) with (Pos.to_nat p + S (Pos.to_nat p))%nat by lia.
    rewrite Nat.iter_add, Nat.iter_succ_r. reflexivity.
  - rewrite !IH. rewrite Pos2Nat.inj_xO.
    replace (2 * Pos.to_nat p)%nat with (Pos.to_nat p + Pos.to_nat p)%nat by lia.
    rewrite Nat.iter_add. reflexivity.
  - reflexivity.
Qed.

Lemma iter_shr_1 k mrs : 0 <= shr_m mrs ->
  shr_m (Nat.iter k shr_1 mrs) = shr_m mrs / 2 ^ Z.of_nat k /\
  inexact (Nat.iter k shr_1 mrs) =
    inexact mrs || negb (shr_m mrs mod 2 ^ Z.of_nat k =? 0).
Proof.
  intros Hm. induction k as [|k [IHm IHi]].
  - simpl. rewrite Z.div_1_r, Z.mod_1_r. simpl. rewrite orb_false_r. auto.
  - rewrite Nat2Z.inj_succ. simpl Nat.iter.
    assert (Hq : 0 <= shr_m (Nat.iter k shr_1 mrs)).
    { rewrite IHm. apply Z.div_pos; [assumption|]. apply Z.pow_pos_nonneg; lia. }
    rewrite shr_1_m, shr_1_inexact by assumption.
    rewrite IHm, IHi.
    assert (Hp : 0 < 2 ^ Z.of_nat k) by (apply Z.pow_pos_nonneg; lia).
    rewrite Z.pow_succ_r by lia.
    split.
    + rewrite Z.div_div by lia. f_equal. lia.
    + rewrite <- orb_assoc. f_equal.
      set (m := shr_m mrs) in *. set (P := 2 ^ Z.of_nat k) in *.
      rewrite (Z.mul_comm 2 P). rewrite Z.rem_mul_r by lia.
      pose proof (Z.mod_pos_bound m P Hp).
      pose proof (Z.mod_pos_bound (m / P) 2 ltac:(lia)).
      rewrite Zodd_mod.
      destruct (Z.eqb_spec (m mod P) 0), (Z.eqb_spec ((m/P) mod 2) 1),
        (Z.eqb_spec (m mod P + P * ((m / P) mod 2)) 0); simpl; try reflexivity; try nia.
Qed.

Lemma shr_spec mrs e n : 0 <= shr_m mrs ->
  let k := Z.max 0 n in
  snd (shr mrs e n) = e + k /\
  shr_m (fst (shr mrs e n)) = shr_m mrs / 2 ^ k /\
  inexact (fst (shr mrs e n)) = inexact mrs || negb (shr_m mrs mod 2 ^ k =? 0).
Proof.
  intros Hm. destruct n as [|p|p]; simpl.
  - rewrite Z.div_1_r, Z.mod_1_r. simpl. rewrite orb_false_r. repeat split; lia.
  - rewrite iter_pos_nat. pose proof (iter_shr_1 (Pos.to_nat p) mrs Hm) as [H1 H2].
    rewrite positive_nat_Z in *. repeat split; auto.
  - rewrite Z.div_1_r, Z.mod_1_r. simpl. rewrite orb_false_r. repeat split; lia.
Qed.

Lemma fexp_eq e : fexp64 e = Z.max (e - 53) (-1074).
Proof. reflexivity. Qed.

Lemma loc_exact_iff mrs : inexact mrs = false -> loc_of_shr_record mrs = loc_Exact.
Proof. destruct mrs as [m [] []]; unfold inexact; simpl; congruence. Qed.

Lemma round_nearest_even_bounds q l :
  q <= round_nearest_even q l <= q + 1.
Proof.
  destruct l as [|[]]; simpl; try lia. destruct (Z.even q); lia.
Qed.

Lemma shr_fexp_spec m e l : 0 <= m ->
  snd (shr_fexp prec emax m e l) = e + shift_of m e /\
  shr_m (fst (shr_fexp prec emax m e l)) = m / 2 ^ shift_of m e /\
  (l = loc_Exact ->
   inexact (fst (shr_fexp prec emax m e l)) = negb (m mod 2 ^ shift_of m e =? 0)).
Proof.
  intros Hm. unfold shr_fexp.
  assert (Hrec : shr_m (shr_record_of_loc m l) = m) by (destruct l as [|[]]; reflexivity).
  pose proof (shr_spec (shr_record_of_loc m l) e
                (SpecFloat.fexp prec emax (Zdigits2 m + e) - e)) as H.
  rewrite Hrec in H. specialize (H Hm). cbv zeta in H.
  destruct H as (H1 & H2 & H3). unfold shift_of, fexp64, dig.
  repeat split; auto. intros ->. rewrite H3. reflexivity.
Qed.

Lemma bra_stage1 sx mx ex lx : 0 <= mx ->
  exists m2,
    mx / 2 ^ shift_of mx ex <= m2 <= mx / 2 ^ shift_of mx ex + 1 /\
    (lx = loc_Exact -> mx mod 2 ^ shift_of mx ex = 0 -> m2 = mx / 2 ^ shift_of mx ex) /\
    binary_round_aux prec emax sx mx ex lx = finalize sx m2 (ex + shift_of mx ex).
Proof.
  intros Hm. unfold binary_round_aux.
  destruct (shr_fexp_spec mx ex lx Hm) as (H1 & H2 & H3).
  destruct (shr_fexp prec emax mx ex lx) as [mrs1 e1]. simpl in H1, H2, H3.
  set (m2 := round_nearest_even (shr_m mrs1) (loc_of_shr_record mrs1)).
  exists m2. split; [|split].
  - rewrite <- H2. apply round_nearest_even_bounds.
  - intros Hl Hmod. specialize (H3 Hl). rewrite Hmod in H3. simpl in H3.
    unfold m2. rewrite (loc_exact_iff _ H3). simpl. assumption.
  - assert (Hm2 : 0 <= m2).
    { pose proof (round_nearest_even_bounds (shr_m mrs1) (loc_of_shr_record mrs1)).
      assert (0 <= shr_m mrs1); [|unfold m2; lia].
      rewrite H2. apply Z.div_pos; [assumption|]. apply Z.pow_pos_nonneg; [lia|].
      unfold shift_of; lia. }
    destruct (shr_fexp_spec m2 e1 loc_Exact Hm2) as (G1 & G2 & _).
    destruct (shr_fexp prec emax m2 e1 loc_Exact) as [mrs2 e2]. simpl in G1, G2.
    unfold finalize, build. rewrite <- H1, <- G1, <- G2. reflexivity.
Qed.

Lemma pow2_pos k : 0 <= k -> 0 < 2 ^ k.
Proof. intros; apply Z.pow_pos_nonneg; lia. Qed.

Lemma fexp_mono a b : a <= b -> fexp64 a <= fexp64 b.
Proof. rewrite !fexp_eq; lia. Qed.

Lemma fexp_succ a : fexp64 a <= fexp64 (a + 1) <= fexp64 a + 1.
Proof. rewrite !fexp_eq; lia. Qed.

Lemma fexp_ge_emin a : -1074 <= fexp64 a.
Proof. rewrite fexp_eq; lia. Qed.

Lemma dig_0 : dig 0 = 0.
Proof. reflexivity. Qed.

Lemma dig_nonneg m : 0 <= m -> 0 <= dig m.
Proof. intros H. destruct (Z.eq_dec m 0) as [->|]; [rewrite dig_0; lia|]. pose proof (dig_pos m); lia. Qed.

Lemma dig_mono a b : 0 < a -> a <= b -> dig a <= dig b.
Proof.
  intros Ha Hab. rewrite !dig_log2 by lia. pose proof (Z.log2_le_mono a b Hab). lia.
Qed.

Lemma dig_div_pow2 m k : 0 <= k -> 0 < m / 2 ^ k -> dig (m / 2 ^ k) = dig m - k.
Proof.
  intros Hk Hq.
  assert (Hm : 0 < m).
  { destruct (Z.lt_ge_cases 0 m); [assumption|].
    pose proof (pow2_pos k Hk).
    assert (m / 2 ^ k <= 0) by (apply Z.div_le_upper_bound; lia). lia. }
  rewrite !dig_log2 by assumption.
  rewrite <- Z.shiftr_div_pow2 by assumption.
  rewrite Z.log2_shiftr by assumption.
  rewrite <- Z.shiftr_div_pow2 in Hq by assumption.
  assert (Z.log2 (Z.shiftr m k) = Z.max 0 (Z.log2 m - k)) by (apply Z.log2_shiftr; assumption).
  destruct (Z.lt_ge_cases (Z.log2 m) k); [|lia].
  exfalso. assert (Z.shiftr m k = 0); [|lia].
  apply Z.shiftr_eq_0; lia.
Qed.

Lemma dig_succ m : 0 < m -> dig (m + 1) = dig m \/ (dig (m + 1) = dig m + 1 /\ m + 1 = 2 ^ dig m).
Proof.
  intros Hm. pose proof (dig_bounds m Hm) as [Hlo Hhi].
  pose proof (dig_pos m Hm) as Hd.
  destruct (Z.eq_dec (m + 1) (2 ^ dig m)) as [E|NE].
  - right. split; [|assumption]. apply dig_unique; [|lia].
    replace (dig m + 1 - 1) with (dig m) by lia. split; [lia|].
    rewrite Z.pow_add_r by lia. lia.
  - left. apply dig_unique; [|lia]. lia.
Qed.

(** The second alignment of [binary_round_aux] leaves the value unchanged
    and yields a canonical mantissa. *)
Lemma finalize_spec sx m e : 0 < m ->
  e <= fexp64 (dig m + e) <= e + 1 ->
  (fexp64 (dig m + e) = e + 1 -> Z.even m = true) ->
  exists mr er, finalize sx m e = build sx mr er /\ 0 < mr /\
    e <= er /\ mr * 2 ^ (er - e) = m /\ fexp64 (dig mr + er) = er.
Proof.
  intros Hm Hf Hev. unfold finalize, shift_of.
  destruct (Z.eq_dec (fexp64 (dig m + e)) e) as [E|NE].
  - rewrite E. replace (Z.max 0 (e - e)) with 0 by lia.
    exists m, e. rewrite Z.div_1_r, Z.add_0_r, Z.sub_diag, Z.mul_1_r.
    repeat split; auto; lia.
  - assert (E : fexp64 (dig m + e) = e + 1) by lia.
    rewrite E. replace (Z.max 0 (e + 1 - e)) with 1 by lia.
    specialize (Hev E). apply Z.even_spec in Hev. destruct Hev as [h Hh].
    exists h, (e + 1). change (2 ^ 1) with 2.
    replace (m / 2) with h by (subst m; symmetry; rewrite Z.mul_comm; apply Z.div_mul; lia).
    replace (e + 1 - e) with 1 by lia. change (2 ^ 1) with 2.
    assert (0 < h) by lia.
    repeat split; auto; try lia.
    assert (dig h = dig m - 1).
    { replace h with (m / 2 ^ 1).
      - apply dig_div_pow2; [lia|]. change (2^1) with 2. subst m.
        rewrite Z.mul_comm, Z.div_mul by lia. assumption.
      - change (2^1) with 2. subst m. rewrite Z.mul_comm, Z.div_mul by lia. reflexivity. }
    replace (dig h + (e + 1)) with (dig m + e) by lia. assumption.
Qed.

(** Rounding an exact, not over-precise input [mx * 2^ex]. *)
Lemma bra_exact_spec sx mx ex : 0 < mx ->
  ex <= fexp64 (dig mx + ex) ->
  let e1 := fexp64 (dig mx + ex) in
  let q := mx / 2 ^ (e1 - ex) in
  exists mr er, binary_round_aux prec emax sx mx ex loc_Exact = build sx mr er /\
    0 <= mr /\ e1 <= er /\
    q <= mr * 2 ^ (er - e1) <= q + 1 /\
    (mx mod 2 ^ (e1 - ex) = 0 -> mr * 2 ^ (er - e1) = q) /\
    (mr = 0 \/ fexp64 (dig mr + er) = er).
Proof.
  intros Hm Hpre e1. cbv zeta.
  destruct (bra_stage1 sx mx ex loc_Exact ltac:(lia)) as (m2 & Hb & Hex & Heq).
  assert (Hk : shift_of mx ex = e1 - ex) by (unfold shift_of, e1; lia).
  assert (He1 : e1 = fexp64 (dig mx + ex)) by reflexivity.
  assert (Hk0 : 0 <= e1 - ex) by (unfold e1; lia).
  clearbody e1.
  rewrite Hk in *.
  set (q := mx / 2 ^ (e1 - ex)) in *.
  assert (Hqd : q = mx / 2 ^ (e1 - ex)) by reflexivity.
  clearbody q. replace (ex + (e1 - ex)) with e1 in Heq by lia.
  assert (Hq0 : 0 <= q) by (rewrite Hqd; apply Z.div_pos; [lia|apply pow2_pos; assumption]).
  destruct (Z.eq_dec m2 0) as [Z0|NZ].
  { (* rounded to zero *)
    exists 0, e1. subst m2. rewrite Heq. unfold finalize.
    rewrite Z.div_0_l by (pose proof (pow2_pos (shift_of 0 e1)); unfold shift_of in *; lia).
    simpl build. rewrite Z.sub_diag. repeat split; lia. }
  assert (Hm2 : 0 < m2) by lia.
  assert (Hfin : exists mr er, finalize sx m2 e1 = build sx mr er /\ 0 < mr /\
    e1 <= er /\ mr * 2 ^ (er - e1) = m2 /\ fexp64 (dig mr + er) = er).
  { destruct (Z.eq_dec q 0) as [Q0|QN].
    - (* underflow: the quotient vanishes and the mantissa is 1 *)
      assert (m2 = 1) by lia. subst m2.
      assert (Hlt : mx < 2 ^ (e1 - ex)).
      { destruct (Z.lt_ge_cases mx (2 ^ (e1 - ex))); [assumption|].
        assert (1 <= q); [|lia]. rewrite Hqd.
        apply Z.div_le_lower_bound; [apply pow2_pos; assumption|lia]. }
      pose proof (dig_bounds mx Hm) as [Hlo _].
      assert (dig mx - 1 < e1 - ex).
      { apply (Z.pow_lt_mono_r_iff 2); lia. }
      assert (He1' : e1 = -1074) by (rewrite fexp_eq in He1; lia).
      apply finalize_spec; [lia| |].
      + change (dig 1) with 1. rewrite He1'. rewrite fexp_eq. lia.
      + change (dig 1) with 1. rewrite He1'. rewrite fexp_eq. lia.
    - assert (Hq : 0 < q) by lia.
      assert (Hdq : dig q + e1 = dig mx + ex).
      { rewrite Hqd. rewrite dig_div_pow2 by (try rewrite <- Hqd; lia). lia. }
      assert (Hcq : fexp64 (dig q + e1) = e1) by (rewrite Hdq; auto).
      destruct (Z.eq_dec m2 q) as [->|NQ].
      + apply finalize_spec; [lia|lia|lia].
      + assert (m2 = q + 1) by lia. subst m2.
        destruct (dig_succ q Hq) as [Hd|[Hd Hp]].
        * apply finalize_spec; [lia|rewrite Hd; lia|rewrite Hd; lia].
        * pose proof (fexp_succ (dig q + e1)).
          replace (dig q + e1 + 1) with (dig (q + 1) + e1) in * by lia.
          apply finalize_spec; [lia|lia|].
          intros _. rewrite Hp. pose proof (dig_pos q Hq).
          replace (dig q) with (Z.succ (dig q - 1)) by lia.
          rewrite Z.pow_succ_r by lia. rewrite Z.even_mul. reflexivity. }
  destruct Hfin as (mr & er & F1 & F2 & F3 & F4 & F5).
  specialize (Hex eq_refl).
  exists mr, er. rewrite Heq, F1. repeat split; lia.
Qed.

Lemma canon_bounds m e : canon m e ->
  -1074 <= e /\ 1 <= dig m <= 53 /\ (-1074 < e -> dig m = 53).
Proof.
  intros [Hm Hc]. pose proof (dig_pos m Hm). rewrite fexp_eq in Hc. lia.
Qed.

Lemma pow2_split a b : 0 <= a -> 0 <= b -> 2 ^ (a + b) = 2 ^ a * 2 ^ b.
Proof. intros; apply Z.pow_add_r; assumption. Qed.

(** Among canonical numbers a smaller exponent means a smaller value. *)
Lemma canon_lt m1 e1 m2 e2 b :
  canon m1 e1 -> canon m2 e2 -> b <= e1 -> e1 < e2 ->
  m1 * 2 ^ (e1 - b) < m2 * 2 ^ (e2 - b).
Proof.
  intros C1 C2 Hb Hlt.
  pose proof (canon_bounds _ _ C1) as (L1 & D1 & _).
  pose proof (canon_bounds _ _ C2) as (L2 & D2 & N2).
  destruct C1 as [P1 _], C2 as [P2 _].
  pose proof (dig_bounds m1 P1) as [_ U1].
  pose proof (dig_bounds m2 P2) as [U2 _].
  rewrite N2 in U2 by lia.
  assert (m1 < 2 ^ 53).
  { eapply Z.lt_le_trans; [exact U1|]. apply Z.pow_le_mono_r; lia. }
  replace (e2 - b) with ((e2 - e1 - 1) + 1 + (e1 - b)) by lia.
  rewrite !pow2_split by lia. change (2 ^ 1) with 2.
  pose proof (pow2_pos (e1 - b) ltac:(lia)) as PA.
  pose proof (pow2_pos (e2 - e1 - 1) ltac:(lia)) as PB.
  set (A := 2 ^ (e1 - b)) in *. set (B := 2 ^ (e2 - e1 - 1)) in *.
  change (2 ^ (53 - 1)) with 4503599627370496 in U2.
  change (2 ^ 53) with 9007199254740992 in H.
  assert (m1 * A < 9007199254740992 * A) by (apply Z.mul_lt_mono_pos_r; lia).
  assert (4503599627370496 * 2 * A <= m2 * B * 2 * A).
  { apply Z.mul_le_mono_nonneg_r; [lia|]. apply Z.mul_le_mono_nonneg_r; [lia|].
    assert (m2 * 1 <= m2 * B) by (apply Z.mul_le_mono_nonneg_l; lia). lia. }
  lia.
Qed.

Lemma canon_le_lex m1 e1 m2 e2 b :
  canon m1 e1 -> canon m2 e2 -> b <= e1 -> b <= e2 ->
  m1 * 2 ^ (e1 - b) <= m2 * 2 ^ (e2 - b) -> lex_le m1 e1 m2 e2.
Proof.
  intros C1 C2 B1 B2 H. unfold lex_le.
  destruct (Z.lt_trichotomy e1 e2) as [L|[E|G]]; [left; assumption| |].
  - right. split; [assumption|]. subst e2.
    pose proof (pow2_pos (e1 - b) ltac:(lia)). nia.
  - pose proof (canon_lt m2 e2 m1 e1 b C2 C1 B2 G). lia.
Qed.

Lemma lex_le_canon m1 e1 m2 e2 b :
  canon m1 e1 -> canon m2 e2 -> b <= e1 -> b <= e2 ->
  lex_le m1 e1 m2 e2 -> m1 * 2 ^ (e1 - b) <= m2 * 2 ^ (e2 - b).
Proof.
  intros C1 C2 B1 B2 [L|[E Hm]].
  - pose proof (canon_lt m1 e1 m2 e2 b C1 C2 B1 L). lia.
  - subst e2. pose proof (pow2_pos (e1 - b) ltac:(lia)). nia.
Qed.

(** A value and the digits of its mantissa. *)
Lemma value_lt_dig m1 e1 m2 e2 b :
  0 < m1 -> 0 < m2 -> b <= e1 -> b <= e2 ->
  m1 * 2 ^ (e1 - b) <= m2 * 2 ^ (e2 - b) ->
  dig m1 + e1 <= dig m2 + e2.
Proof.
  intros P1 P2 B1 B2 H.
  pose proof (dig_bounds m1 P1) as [L1 _].
  pose proof (dig_bounds m2 P2) as [_ U2].
  pose proof (dig_pos m1 P1). pose proof (dig_pos m2 P2).
  assert (2 ^ (dig m1 - 1 + (e1 - b)) < 2 ^ (dig m2 + (e2 - b))).
  { rewrite !pow2_split by lia.
    pose proof (pow2_pos (e1 - b) ltac:(lia)).
    pose proof (pow2_pos (e2 - b) ltac:(lia)). nia. }
  apply Z.pow_lt_mono_r_iff in H2; lia.
Qed.

Section Round.

Variables (sx : bool) (mx ex : Z).
Hypothesis Hmx : 0 < mx.
Hypothesis Hpre : ex <= fexp64 (dig mx + ex).

(** Rounding never moves a value above a representable number that
    bounds it from above. *)
Lemma rounded_le mr er ma ea b :
  rounded mx ex mr er ->
  canon ma ea -> b <= ex -> b <= ea ->
  mx * 2 ^ (ex - b) <= ma * 2 ^ (ea - b) ->
  mr = 0 \/ (canon mr er /\ lex_le mr er ma ea).
Proof.
  intros (Hr0 & He & Hb & Hex & Hc) Ca B1 B2 Hle.
  cbv zeta in *.
  set (e1 := fexp64 (dig mx + ex)) in *.
  assert (He1 : e1 = fexp64 (dig mx + ex)) by reflexivity. clearbody e1.
  destruct Hc as [Hz|Hc]; [left; assumption|].
  destruct (Z.eq_dec mr 0) as [Hz|Hnz]; [left; assumption|]. right.
  assert (Cr : canon mr er) by (split; [lia|assumption]).
  split; [assumption|].
  pose proof Ca as [Pa Hca].
  assert (Hd : dig mx + ex <= dig ma + ea) by (apply (value_lt_dig mx ex ma ea b); auto).
  assert (Hea : e1 <= ea) by (rewrite He1, <- Hca; apply fexp_mono; assumption).
  apply (canon_le_lex mr er ma ea e1); auto.
  set (k := e1 - ex) in *. assert (Hk : 0 <= k) by (unfold k; lia).
  set (q := mx / 2 ^ k) in *.
  pose proof (pow2_pos k Hk) as Pk.
  pose proof (pow2_pos (ex - b) ltac:(lia)) as Pb.
  assert (Hmx_le : mx <= ma * 2 ^ (ea - e1) * 2 ^ k).
  { replace (ea - b) with ((ea - e1) + k + (ex - b)) in Hle by (unfold k; lia).
    rewrite !pow2_split in Hle by lia. nia. }
  pose proof (Z.div_mod mx (2 ^ k) ltac:(lia)) as Hdm. fold q in Hdm.
  pose proof (Z.mod_pos_bound mx (2 ^ k) Pk) as Hmod.
  assert (pow_er : 2 ^ (er - e1) > 0) by (pose proof (pow2_pos (er - e1)); lia).
  destruct (Z.eq_dec (mx mod 2 ^ k) 0) as [Z0|NZ0].
  - rewrite (Hex Z0). nia.
  - assert (q + 1 <= ma * 2 ^ (ea - e1)) by nia. lia.
Qed.

(** Rounding never moves a value below a representable number that
    bounds it from below. *)
Lemma rounded_ge mr er ma ea b :
  rounded mx ex mr er ->
  canon ma ea -> b <= ex -> b <= ea ->
  ma * 2 ^ (ea - b) <= mx * 2 ^ (ex - b) ->
  canon mr er /\ lex_le ma ea mr er.
Proof.
  intros (Hr0 & He & Hb & Hex & Hc) Ca B1 B2 Hle.
  cbv zeta in *.
  set (e1 := fexp64 (dig mx + ex)) in *.
  assert (He1 : e1 = fexp64 (dig mx + ex)) by reflexivity. clearbody e1.
  pose proof Ca as [Pa Hca].
  pose proof (canon_bounds _ _ Ca) as (La & Da & _).
  assert (Hd : dig ma + ea <= dig mx + ex) by (apply (value_lt_dig ma ea mx ex b); auto).
  assert (Hea : ea <= e1) by (rewrite He1, <- Hca; apply fexp_mono; assumption).
  set (k := e1 - ex) in *. assert (Hk : 0 <= k) by (unfold k; lia).
  set (q := mx / 2 ^ k) in *.
  pose proof (pow2_pos k Hk) as Pk.
  pose proof (pow2_pos (ex - b) ltac:(lia)) as Pb.
  pose proof (Z.div_mod mx (2 ^ k) ltac:(lia)) as Hdm. fold q in Hdm.
  pose proof (Z.mod_pos_bound mx (2 ^ k) Pk) as Hmod.
  pose proof (pow2_pos (er - e1) ltac:(lia)) as Per.
  pose proof (pow2_pos (e1 - ea) ltac:(lia)) as Pea.
  (* the value of [a], in units of [2^ea], is below the rounded value *)
  assert (Hval : ma <= mr * 2 ^ (er - e1) * 2 ^ (e1 - ea)).
  { destruct (Z.eq_dec (dig ma + ea) (dig mx + ex)) as [E|NE].
    - assert (Hee : ea = e1) by (rewrite He1, <- Hca, E; reflexivity).
      replace (e1 - ea) with 0 by lia. change (2 ^ 0) with 1.
      assert (ma * 2 ^ k <= mx).
      { replace (ea - b) with (k + (ex - b)) in Hle by (unfold k; lia).
        rewrite pow2_split in Hle by lia. nia. }
      assert (ma <= q) by nia. nia.
    - pose proof (dig_bounds mx Hmx) as [Lx _].
      pose proof (dig_bounds ma Pa) as [_ Ua].
      pose proof (dig_pos mx Hmx).
      assert (Hdk : 0 <= dig mx - 1 - k).
      { unfold k. rewrite He1, fexp_eq. lia. }
      assert (Hq : 2 ^ (dig mx - 1 - k) <= q).
      { unfold q. apply Z.div_le_lower_bound; [lia|].
        rewrite Z.mul_comm, <- pow2_split by lia.
        replace (dig mx - 1 - k + k) with (dig mx - 1) by lia. assumption. }
      assert (2 ^ dig ma <= 2 ^ (dig mx - 1 - k) * 2 ^ (e1 - ea)).
      { rewrite <- pow2_split by lia. apply Z.pow_le_mono_r; [lia|]. unfold k. lia. }
      nia. }
  assert (Hnz : 0 < mr) by nia.
  destruct Hc as [Hz|Hc]; [lia|].
  assert (Cr : canon mr er) by (split; assumption).
  split; [assumption|].
  apply (canon_le_lex ma ea mr er ea); auto; try lia.
  rewrite Z.sub_diag. change (2 ^ 0) with 1.
  replace (er - ea) with ((er - e1) + (e1 - ea)) by lia.
  rewrite pow2_split by lia. lia.
Qed.

Lemma bra_rounded :
  exists mr er, binary_round_aux prec emax sx mx ex loc_Exact = build sx mr er /\
    rounded mx ex mr er.
Proof.
  destruct (bra_exact_spec sx mx ex Hmx Hpre) as (mr & er & Heq & H).
  exists mr, er. split; [assumption|exact H].
Qed.

Lemma round_le ma ea b :
  canon ma ea -> b <= ex -> b <= ea ->
  mx * 2 ^ (ex - b) <= ma * 2 ^ (ea - b) ->
  exists mr er, binary_round_aux prec emax sx mx ex loc_Exact = build sx mr er /\
    (mr = 0 \/ (canon mr er /\ lex_le mr er ma ea)).
Proof.
  intros Ca B1 B2 Hle. destruct bra_rounded as (mr & er & Heq & R).
  exists mr, er. split; [assumption|]. eapply rounded_le; eassumption.
Qed.

Lemma round_ge ma ea b :
  canon ma ea -> b <= ex -> b <= ea ->
  ma * 2 ^ (ea - b) <= mx * 2 ^ (ex - b) ->
  exists mr er, binary_round_aux prec emax sx mx ex loc_Exact = build sx mr er /\
    canon mr er /\ lex_le ma ea mr er.
Proof.
  intros Ca B1 B2 Hle. destruct bra_rounded as (mr & er & Heq & R).
  exists mr, er. split; [assumption|]. eapply rounded_ge; eassumption.
Qed.

(** Rounding a representable value returns it. *)
Lemma round_exact ma ea b :
  canon ma ea -> b <= ex -> b <= ea ->
  mx * 2 ^ (ex - b) = ma * 2 ^ (ea - b) ->
  binary_round_aux prec emax sx mx ex loc_Exact = build sx ma ea.
Proof.
  intros Ca B1 B2 Hle. destruct bra_rounded as (mr & er & Heq & R).
  destruct (rounded_ge mr er ma ea b R Ca B1 B2 ltac:(lia)) as [Cr L1].
  destruct (rounded_le mr er ma ea b R Ca B1 B2 ltac:(lia)) as [Hz|[_ L2]].
  - destruct Cr; lia.
  - rewrite Heq. unfold lex_le in *. f_equal; lia.
Qed.

End Round.

(** Validity of a finite number, on [Z]. *)
Lemma valid_canon s m e :
  valid_binary (S754_finite s m e) = true -> canon (Zpos m) e /\ e <= 971.
Proof.
  unfold SpecFloat.valid_binary, bounded, canonical_mantissa.
  intros H. apply andb_true_iff in H. destruct H as [H1 H2].
  apply Z.eqb_eq in H1. apply Z.leb_le in H2.
  split; [split; [lia|exact H1]|exact H2].
Qed.

Lemma canon_valid s m e :
  canon (Zpos m) e -> e <= 971 -> valid_binary (S754_finite s m e) = true.
Proof.
  intros [_ H1] H2. unfold SpecFloat.valid_binary, bounded, canonical_mantissa.
  apply andb_true_iff. split; [apply Z.eqb_eq; exact H1|apply Z.leb_le; exact H2].
Qed.

Lemma build_valid sx mr er :
  mr = 0 \/ canon mr er -> valid_binary (build sx mr er) = true.
Proof.
  intros [->|C]; [reflexivity|].
  pose proof C as [P _]. destruct mr as [|p|p]; try lia. simpl.
  destruct (Z.leb_spec er 971); [|reflexivity].
  apply canon_valid; assumption.
Qed.

Lemma build_sign sx m e : 0 <= m -> has_sign sx (build sx m e).
Proof.
  intros H. destruct m as [|p|p]; simpl; try lia; [reflexivity|].
  destruct (e <=? 971); reflexivity.
Qed.

Lemma bra_sign sx mx ex lx : 0 <= mx ->
  has_sign sx (binary_round_aux prec emax sx mx ex lx).
Proof.
  intros H. destruct (bra_stage1 sx mx ex lx H) as (m2 & Hb & _ & ->).
  unfold finalize. apply build_sign.
  apply Z.div_pos; [|apply pow2_pos; unfold shift_of; lia].
  assert (0 <= mx / 2 ^ shift_of mx ex); [|lia].
  apply Z.div_pos; [assumption|apply pow2_pos; unfold shift_of; lia].
Qed.

(** [shl_align] and [binary_round]. *)
Lemma Pos_iter_xO m d : Zpos (Pos.iter xO m d) = Zpos m * 2 ^ Zpos d.
Proof.
  induction d as [|d IH] using Pos.peano_ind.
  - simpl. lia.
  - rewrite Pos.iter_succ, Pos2Z.inj_xO, IH, Pos2Z.inj_succ, Z.pow_succ_r by lia. lia.
Qed.

Lemma shl_align_spec mx ex ex' :
  let '(mz, ez) := shl_align mx ex ex' in
  ez = Z.min ex ex' /\ Zpos mz = Zpos mx * 2 ^ (ex - ez).
Proof.
  unfold shl_align. destruct (ex' - ex) as [|d|d] eqn:E.
  - split; [lia|]. rewrite Z.sub_diag. lia.
  - split; [lia|]. rewrite Z.sub_diag. lia.
  - split; [lia|]. rewrite Pos_iter_xO. f_equal. f_equal. lia.
Qed.

Lemma dig_mul_pow2 m k : 0 < m -> 0 <= k -> dig (m * 2 ^ k) = dig m + k.
Proof.
  intros Hm Hk. pose proof (dig_bounds m Hm) as [L U]. pose proof (dig_pos m Hm).
  pose proof (pow2_pos k Hk).
  apply dig_unique; [|lia]. split.
  - replace (dig m + k - 1) with (dig m - 1 + k) by lia. rewrite pow2_split by lia. nia.
  - rewrite pow2_split by lia. nia.
Qed.

Lemma binary_round_eq sx mx ex :
  exists mz ez, binary_round prec emax sx mx ex =
                binary_round_aux prec emax sx mz ez loc_Exact /\
    0 < mz /\ ez = Z.min ex (fexp64 (dig (Zpos mx) + ex)) /\
    mz = Zpos mx * 2 ^ (ex - ez) /\ ez <= fexp64 (dig mz + ez).
Proof.
  unfold binary_round.
  pose proof (shl_align_spec mx ex (SpecFloat.fexp prec emax (Zpos (digits2_pos mx) + ex))) as H.
  destruct (shl_align mx ex _) as [mz ez]. destruct H as [H1 H2].
  exists (Zpos mz), ez. split; [reflexivity|]. split; [lia|].
  change (SpecFloat.fexp prec emax (Zpos (digits2_pos mx) + ex))
    with (fexp64 (dig (Zpos mx) + ex)) in H1.
  split; [assumption|]. split; [assumption|].
  rewrite H2. rewrite dig_mul_pow2 by lia.
  replace (dig (Zpos mx) + (ex - ez) + ez) with (dig (Zpos mx) + ex) by lia. lia.
Qed.

Section RoundSF.

Variables (sx : bool) (w : positive) (ez : Z).
Hypothesis Hez : -1074 <= ez.

Lemma binary_round_le ma ea :
  canon ma ea -> ea <= 971 -> ez <= ea ->
  Zpos w <= ma * 2 ^ (ea - ez) ->
  exists mr er, binary_round prec emax sx w ez = build sx mr er /\
    (mr = 0 \/ (canon mr er /\ lex_le mr er ma ea)).
Proof.
  intros Ca Hb He Hle.
  destruct (binary_round_eq sx w ez) as (mz & e0 & -> & Pz & He0 & Hmz & Hpre).
  pose proof (fexp_ge_emin (dig (Zpos w) + ez)).
  pose proof (canon_bounds _ _ Ca) as (La & _).
  apply (round_le sx mz e0 Pz Hpre ma ea (-1074)); auto; try lia.
  rewrite Hmz.
  replace (ea - -1074) with ((ea - ez) + (ez - e0) + (e0 - -1074)) by lia.
  rewrite !pow2_split by lia.
  pose proof (pow2_pos (ez - e0) ltac:(lia)).
  pose proof (pow2_pos (e0 - -1074) ltac:(lia)). nia.
Qed.

Lemma binary_round_ge ma ea :
  canon ma ea -> ez <= ea ->
  ma * 2 ^ (ea - ez) <= Zpos w ->
  exists mr er, binary_round prec emax sx w ez = build sx mr er /\
    canon mr er /\ lex_le ma ea mr er.
Proof.
  intros Ca He Hle.
  destruct (binary_round_eq sx w ez) as (mz & e0 & -> & Pz & He0 & Hmz & Hpre).
  pose proof (fexp_ge_emin (dig (Zpos w) + ez)).
  pose proof (canon_bounds _ _ Ca) as (La & _).
  apply (round_ge sx mz e0 Pz Hpre ma ea (-1074)); auto; try lia.
  rewrite Hmz.
  replace (ea - -1074) with ((ea - ez) + (ez - e0) + (e0 - -1074)) by lia.
  rewrite !pow2_split by lia.
  pose proof (pow2_pos (ez - e0) ltac:(lia)).
  pose proof (pow2_pos (e0 - -1074) ltac:(lia)). nia.
Qed.

End RoundSF.

(** Comparison of what [build] returns with a finite number. *)
Lemma build_le_pos mr er ma ea :
  mr = 0 \/ (canon mr er /\ lex_le mr er (Zpos ma) ea) -> ea <= 971 ->
  SFleb (build false mr er) (S754_finite false ma ea) = true.
Proof.
  intros [->|[[P C] L]] Hb; [reflexivity|].
  destruct mr as [|p|p]; try lia. simpl.
  assert (er <= 971) by (destruct L; lia).
  destruct (Z.leb_spec er 971); [|lia].
  unfold SFleb; simpl. destruct L as [L|[E L]]; cmp_cases; try reflexivity; lia.
Qed.

Lemma build_ge_pos mr er ma ea :
  canon mr er -> lex_le (Zpos ma) ea mr er ->
  SFleb (S754_finite false ma ea) (build false mr er) = true.
Proof.
  intros [P C] L. destruct mr as [|p|p]; try lia. simpl.
  destruct (Z.leb_spec er 971); [|reflexivity].
  unfold SFleb; simpl. destruct L as [L|[E L]]; cmp_cases; try reflexivity; lia.
Qed.

Lemma build_le_neg mr er ma ea :
  canon mr er -> lex_le (Zpos ma) ea mr er ->
  SFleb (build true mr er) (S754_finite true ma ea) = true.
Proof.
  intros [P C] L. destruct mr as [|p|p]; try lia. simpl.
  destruct (Z.leb_spec er 971); [|reflexivity].
  unfold SFleb; simpl. destruct L as [L|[E L]]; cmp_cases; simpl; try reflexivity; lia.
Qed.

Lemma build_ge_neg mr er ma ea :
  mr = 0 \/ (canon mr er /\ lex_le mr er (Zpos ma) ea) -> ea <= 971 ->
  SFleb (S754_finite true ma ea) (build true mr er) = true.
Proof.
  intros [->|[[P C] L]] Hb; [reflexivity|].
  destruct mr as [|p|p]; try lia. simpl.
  assert (er <= 971) by (destruct L; lia).
  destruct (Z.leb_spec er 971); [|lia].
  unfold SFleb; simpl. destruct L as [L|[E L]]; cmp_cases; simpl; try reflexivity; lia.
Qed.

Lemma has_sign_le_pos x m e : has_sign true x ->
  SFleb x (S754_finite false m e) = true.
Proof. destruct x as [[]|[]| |[] ? ?]; simpl; intros H; try discriminate; try contradiction; reflexivity. Qed.

Lemma has_sign_ge_neg x m e : has_sign false x ->
  SFleb (S754_finite true m e) x = true.
Proof. destruct x as [[]|[]| |[] ? ?]; simpl; intros H; try discriminate; try contradiction; reflexivity. Qed.

Lemma binary_normalize_sign W ez s :
  W <> 0 -> has_sign (W <? 0) (binary_normalize prec emax W ez s).
Proof.
  intros H. destruct W as [|p|p]; try lia; simpl.
  - destruct (binary_round_eq false p ez) as (mz & e0 & -> & Pz & _). apply bra_sign; lia.
  - destruct (binary_round_eq true p ez) as (mz & e0 & -> & Pz & _). apply bra_sign; lia.
Qed.

Section Normalize.

Variables (sa : bool) (ma : positive) (ea : Z).
Hypothesis Va : valid_binary (S754_finite sa ma ea) = true.
Variables (W ez : Z).
Hypothesis Hez : -1074 <= ez <= ea.

Lemma normalize_le :
  W <= aligned sa ma ea ez ->
  SFleb (binary_normalize prec emax W ez false) (S754_finite sa ma ea) = true.
Proof.
  intros Hle. destruct (valid_canon _ _ _ Va) as [Ca Hb].
  pose proof (pow2_pos (ea - ez) ltac:(lia)) as Pp.
  assert (Pm : 0 < Zpos ma * 2 ^ (ea - ez)) by (apply Z.mul_pos_pos; lia).
  unfold aligned, cond_Zopp in Hle.
  destruct W as [|w|w]; simpl.
  - destruct sa; [lia|reflexivity].
  - destruct sa; [lia|].
    destruct (binary_round_le false w ez ltac:(lia) (Zpos ma) ea Ca Hb ltac:(lia) Hle)
      as (mr & er & -> & Hr).
    apply build_le_pos; assumption.
  - destruct sa.
    + assert (Hge : Zpos ma * 2 ^ (ea - ez) <= Zpos w) by lia.
      destruct (binary_round_ge true w ez ltac:(lia) (Zpos ma) ea Ca ltac:(lia) Hge)
        as (mr & er & -> & Cr & Lr).
      apply build_le_neg; assumption.
    + apply has_sign_le_pos.
      apply (binary_normalize_sign (Zneg w) ez false). lia.
Qed.

Lemma normalize_ge :
  aligned sa ma ea ez <= W ->
  SFleb (S754_finite sa ma ea) (binary_normalize prec emax W ez false) = true.
Proof.
  intros Hle. destruct (valid_canon _ _ _ Va) as [Ca Hb].
  pose proof (pow2_pos (ea - ez) ltac:(lia)) as Pp.
  assert (Pm : 0 < Zpos ma * 2 ^ (ea - ez)) by (apply Z.mul_pos_pos; lia).
  unfold aligned, cond_Zopp in Hle.
  destruct W as [|w|w]; simpl.
  - destruct sa; [reflexivity|lia].
  - destruct sa.
    + apply has_sign_ge_neg.
      apply (binary_normalize_sign (Zpos w) ez false). lia.
    + destruct (binary_round_ge false w ez ltac:(lia) (Zpos ma) ea Ca ltac:(lia) Hle)
        as (mr & er & -> & Cr & Lr).
      apply build_ge_pos; assumption.
  - destruct sa; [|lia].
    assert (Hge : Zpos w <= Zpos ma * 2 ^ (ea - ez)) by lia.
    destruct (binary_round_le true w ez ltac:(lia) (Zpos ma) ea Ca Hb ltac:(lia) Hge)
      as (mr & er & -> & Hr).
    apply build_ge_neg; assumption.
Qed.

End Normalize.

Lemma has_sign_notnan s x : has_sign s x -> SFnotnan x = true.
Proof. destruct x; simpl; auto. Qed.

Lemma has_sign_nn x : has_sign false x -> SFnn x = true.
Proof. destruct x as [[]|[]| |[] ? ?]; simpl; auto; discriminate. Qed.

Lemma SFleb_refl x : SFnotnan x = true -> SFleb x x = true.
Proof.
  destruct x as [[]|[]| |[] m e]; simpl; intros H; try discriminate; try reflexivity;
    unfold SFleb; simpl; rewrite Z.compare_refl;
    change (Pos.compare_cont Eq m m) with (Pos.compare m m);
    rewrite Pos.compare_refl; reflexivity.
Qed.

Lemma shl_align_fst mx ex ez : ez <= ex ->
  Zpos (fst (shl_align mx ex ez)) = Zpos mx * 2 ^ (ex - ez).
Proof.
  intros H. pose proof (shl_align_spec mx ex ez) as S.
  destruct (shl_align mx ex ez) as [mz e']. destruct S as [S1 S2]. simpl.
  rewrite S2. subst e'. replace (Z.min ex ez) with ez by lia. reflexivity.
Qed.

Lemma aligned_eq s m e ez : ez <= e ->
  cond_Zopp s (Zpos (fst (shl_align m e ez))) = aligned s m e ez.
Proof. intros H. unfold aligned. rewrite shl_align_fst by assumption. reflexivity. Qed.

Lemma aligned_sign s m e ez : ez <= e ->
  (s = true -> aligned s m e ez < 0) /\ (s = false -> 0 < aligned s m e ez).
Proof.
  intros H. pose proof (pow2_pos (e - ez) ltac:(lia)).
  assert (0 < Zpos m * 2 ^ (e - ez)) by (apply Z.mul_pos_pos; lia).
  unfold aligned, cond_Zopp. destruct s; split; intros; try discriminate; lia.
Qed.

(** The order on valid finite numbers is the order of their aligned
    mantissas. *)
Lemma SFleb_aligned sx mx ex sy my ey ez :
  valid_binary (S754_finite sx mx ex) = true ->
  valid_binary (S754_finite sy my ey) = true ->
  ez <= ex -> ez <= ey ->
  SFleb (S754_finite sx mx ex) (S754_finite sy my ey) = true ->
  aligned sx mx ex ez <= aligned sy my ey ez.
Proof.
  intros Vx Vy Hx Hy H.
  destruct (valid_canon _ _ _ Vx) as [Cx _], (valid_canon _ _ _ Vy) as [Cy _].
  pose proof (aligned_sign sx mx ex ez Hx) as [Nx Px].
  pose proof (aligned_sign sy my ey ez Hy) as [Ny Py].
  unfold SFleb in H; simpl in H.
  destruct sx, sy; try discriminate H;
    try (specialize (Nx eq_refl)); try (specialize (Px eq_refl));
    try (specialize (Ny eq_refl)); try (specialize (Py eq_refl)); try lia.
  - (* both negative *)
    assert (L : lex_le (Zpos my) ey (Zpos mx) ex).
    { unfold lex_le. cmp_cases; simpl in H; try discriminate; lia. }
    pose proof (lex_le_canon _ _ _ _ ez Cy Cx Hy Hx L). unfold aligned, cond_Zopp. lia.
  - assert (L : lex_le (Zpos mx) ex (Zpos my) ey).
    { unfold lex_le. cmp_cases; simpl in H; try discriminate; lia. }
    pose proof (lex_le_canon _ _ _ _ ez Cx Cy Hx Hy L). unfold aligned, cond_Zopp. lia.
Qed.

Section Ops.

Variables x t : spec_float.
Hypothesis Vx : valid_binary x = true.
Hypothesis Vt : valid_binary t = true.

(** Subtracting a non-negative number does not increase a finite one. *)
Lemma SFsub_le : SFfin x = true -> SFnn t = true ->
  SFleb (SF64sub x t) x = true.
Proof.
  intros Fx Nt.
  destruct x as [sx|sx| |sx mx ex]; try discriminate Fx;
    destruct t as [st|[]| |[] mt et]; try discriminate Nt.
  - destruct sx, st; reflexivity.
  - reflexivity.
  - reflexivity.
  - simpl. apply SFleb_refl. reflexivity.
  - destruct sx; reflexivity.
  - unfold SF64sub, SFsub.
    destruct (valid_canon _ _ _ Vx) as [Cx _], (valid_canon _ _ _ Vt) as [Ct _].
    pose proof (canon_bounds _ _ Cx) as (Lx & _).
    pose proof (canon_bounds _ _ Ct) as (Lt' & _).
    rewrite !aligned_eq by lia.
    apply normalize_le; [assumption|lia|].
    pose proof (aligned_sign false mt et (Z.min ex et) ltac:(lia)) as [_ P].
    specialize (P eq_refl). lia.
Qed.

(** Adding a non-negative number does not decrease a finite one. *)
Lemma SFadd_ge : SFfin x = true -> SFnn t = true ->
  SFleb x (SF64add x t) = true.
Proof.
  intros Fx Nt.
  destruct x as [sx|sx| |sx mx ex]; try discriminate Fx;
    destruct t as [st|[]| |[] mt et]; try discriminate Nt.
  - destruct sx, st; reflexivity.
  - reflexivity.
  - reflexivity.
  - simpl. apply SFleb_refl. reflexivity.
  - destruct sx; reflexivity.
  - unfold SF64add, SFadd.
    destruct (valid_canon _ _ _ Vx) as [Cx _], (valid_canon _ _ _ Vt) as [Ct _].
    pose proof (canon_bounds _ _ Cx) as (Lx & _).
    pose proof (canon_bounds _ _ Ct) as (Lt' & _).
    rewrite !aligned_eq by lia.
    apply normalize_ge; [assumption|lia|].
    pose proof (aligned_sign false mt et (Z.min ex et) ltac:(lia)) as [_ P].
    specialize (P eq_refl). lia.
Qed.

(** The difference of two ordered finite numbers is not negative. *)
Lemma SFsub_nn : SFfin x = true -> SFfin t = true ->
  SFleb x t = true -> SFnn (SF64sub t x) = true.
Proof.
  intros Fx Ft Hle.
  destruct x as [sx|sx| |sx mx ex]; try discriminate Fx;
    destruct t as [st|st| |st mt et]; try discriminate Ft.
  - destruct sx, st; reflexivity.
  - destruct st; [discriminate Hle|reflexivity].
  - destruct sx; [reflexivity|discriminate Hle].
  - unfold SF64sub, SFsub.
    destruct (valid_canon _ _ _ Vx) as [Cx _], (valid_canon _ _ _ Vt) as [Ct _].
    pose proof (canon_bounds _ _ Cx) as (Lx & _).
    pose proof (canon_bounds _ _ Ct) as (Lt' & _).
    rewrite !aligned_eq by lia.
    pose proof (SFleb_aligned sx mx ex st mt et (Z.min et ex) Vx Vt
                  ltac:(lia) ltac:(lia) Hle) as Hal.
    set (W := aligned st mt et (Z.min et ex) - aligned sx mx ex (Z.min et ex)) in *.
    destruct (Z.eq_dec W 0) as [->|NZ]; [reflexivity|].
    apply has_sign_nn.
    replace false with (W <? 0) at 1 by (apply Z.ltb_ge; lia).
    apply binary_normalize_sign; assumption.
Qed.

End Ops.

(** Products and quotients of numbers that are not NaN. *)
Lemma SFmul_sign sx mx ex sy my ey :
  has_sign (xorb sx sy) (SF64mul (S754_finite sx mx ex) (S754_finite sy my ey)).
Proof. unfold SF64mul, SFmul. apply bra_sign. lia. Qed.

Lemma SFmul_nn c t :
  SFnn c = true -> SFfin c = true -> c <> S754_zero false -> c <> S754_zero true ->
  SFnn t = true -> SFnn (SF64mul c t) = true.
Proof.
  intros Nc Fc Z1 Z2 Nt.
  destruct c as [[]|sc| |[] mc ec]; try discriminate; try congruence.
  destruct t as [st|[]| |[] mt et]; try discriminate; try reflexivity.
  apply has_sign_nn. apply (SFmul_sign false mc ec false mt et).
Qed.

Lemma SFadd_notnan x y :
  SFnotnan x = true -> SFfin y = true -> SFnotnan (SF64add x y) = true.
Proof.
  intros Nx Fy.
  destruct x as [sx|sx| |sx mx ex]; try discriminate;
    destruct y as [sy|sy| |sy my ey]; try discriminate; try reflexivity.
  - destruct sx, sy; reflexivity.
  - unfold SF64add, SFadd.
    set (W := _ + _). destruct (Z.eq_dec W 0) as [->|NZ]; [reflexivity|].
    eapply has_sign_notnan. apply binary_normalize_sign; assumption.
Qed.

Lemma SFsub_notnan x y :
  SFfin x = true -> SFnotnan y = true -> SFnotnan (SF64sub x y) = true.
Proof.
  intros Fx Ny.
  destruct x as [sx|sx| |sx mx ex]; try discriminate;
    destruct y as [sy|sy| |sy my ey]; try discriminate; try reflexivity.
  - destruct sx, sy; reflexivity.
  - unfold SF64sub, SFsub.
    set (W := _ - _). destruct (Z.eq_dec W 0) as [->|NZ]; [reflexivity|].
    eapply has_sign_notnan. apply binary_normalize_sign; assumption.
Qed.

Lemma SFdiv_notnan x sy my ey :
  SFnotnan x = true -> SFnotnan (SF64div x (S754_finite sy my ey)) = true.
Proof.
  intros Nx. destruct x as [sx|sx| |sx mx ex]; try discriminate; try reflexivity.
  unfold SF64div, SFdiv.
  destruct (SFdiv_core_binary prec emax (Zpos mx) ex (Zpos my) ey) as [[mz ez] lz] eqn:E.
  eapply has_sign_notnan. apply bra_sign.
  unfold SFdiv_core_binary in E.
  set (m' := match _ with Zpos _ => _ | _ => _ end) in E.
  assert (0 <= m').
  { unfold m'. destruct (_ - _ - _); try lia. apply Z.shiftl_nonneg. lia. }
  pose proof (Z_div_mod m' (Zpos my) ltac:(lia)) as D.
  destruct (Z.div_eucl m' (Zpos my)) as [q r]. inversion E; subst.
  destruct D as [D1 D2]. nia.
Qed.

Lemma binary_round_valid sx w e :
  valid_binary (binary_round prec emax sx w e) = true.
Proof.
  destruct (binary_round_eq sx w e) as (mz & ez & -> & Pz & _ & _ & Hpre).
  destruct (bra_exact_spec sx mz ez Pz Hpre) as (mr & er & -> & Hr0 & _ & _ & _ & Hc).
  apply build_valid. destruct Hc as [Hz|Hc]; [left; assumption|].
  destruct (Z.eq_dec mr 0); [left; assumption|right; split; [lia|assumption]].
Qed.

Lemma binary_normalize_valid z e s :
  valid_binary (binary_normalize prec emax z e s) = true.
Proof. destruct z; simpl; [reflexivity| |]; apply binary_round_valid. Qed.

Lemma scaled_aligned s m e : scaled (S754_finite s m e) = aligned s m e (-1074).
Proof. unfold scaled, aligned. replace (e - -1074) with (e + 1074) by lia. reflexivity. Qed.

Lemma SFleb_scaled x y :
  valid_binary x = true -> valid_binary y = true ->
  SFfin x = true -> SFfin y = true ->
  SFleb x y = true -> scaled x <= scaled y.
Proof.
  intros Vx Vy Fx Fy H.
  destruct x as [sx|sx| |sx mx ex]; try discriminate Fx;
    destruct y as [sy|sy| |sy my ey]; try discriminate Fy.
  - simpl; lia.
  - destruct (valid_canon _ _ _ Vy) as [Cy _]. pose proof (canon_bounds _ _ Cy) as (L & _).
    rewrite scaled_aligned. pose proof (aligned_sign sy my ey (-1074) ltac:(lia)) as [_ P].
    destruct sy; [discriminate H|]. specialize (P eq_refl). simpl scaled. lia.
  - destruct (valid_canon _ _ _ Vx) as [Cx _]. pose proof (canon_bounds _ _ Cx) as (L & _).
    rewrite scaled_aligned. pose proof (aligned_sign sx mx ex (-1074) ltac:(lia)) as [P _].
    destruct sx; [|discriminate H]. specialize (P eq_refl). simpl scaled. lia.
  - destruct (valid_canon _ _ _ Vx) as [Cx _]. pose proof (canon_bounds _ _ Cx) as (Lx & _).
    destruct (valid_canon _ _ _ Vy) as [Cy _]. pose proof (canon_bounds _ _ Cy) as (Ly & _).
    rewrite !scaled_aligned. apply SFleb_aligned; auto.
Qed.

(** The integer part of a non-negative finite number. *)
Lemma shiftl_scaled m e : -1074 <= e ->
  Z.shiftl (Zpos m) e = (Zpos m * 2 ^ (e + 1074)) / unit1074.
Proof.
  intros H. unfold unit1074. destruct (Z.le_gt_cases 0 e) as [P|N].
  - rewrite Z.shiftl_mul_pow2 by assumption.
    rewrite pow2_split by lia. rewrite Z.mul_assoc.
    rewrite Z.div_mul; [reflexivity|]. pose proof (pow2_pos 1074 ltac:(lia)); lia.
  - rewrite Z.shiftl_div_pow2 by lia.
    replace 1074 with ((e + 1074) + (- e)) at 2 by lia.
    rewrite (pow2_split (e + 1074) (- e)) by lia.
    rewrite (Z.mul_comm (2 ^ (e + 1074))).
    rewrite Z.div_mul_cancel_r; [reflexivity| |];
      [pose proof (pow2_pos (- e) ltac:(lia)) | pose proof (pow2_pos (e + 1074) ltac:(lia))]; lia.
Qed.

(** Conversion of a small natural number is exact. *)
Lemma normalize_exact (z : Z) : 0 < z < 2 ^ 53 ->
  exists m e, binary_normalize prec emax z 0 false = S754_finite false m e /\
    canon (Zpos m) e /\ e <= 0 /\ Zpos m = z * 2 ^ (- e).
Proof.
  intros [Hz Hb]. destruct z as [|w|w]; try lia. simpl binary_normalize.
  destruct (binary_round_eq false w 0) as (mz & ez & -> & Pz & Hez & Hmz & Hpre).
  assert (Hd : dig (Zpos w) <= 53).
  { pose proof (dig_bounds (Zpos w) ltac:(lia)) as [L _].
    destruct (Z.le_gt_cases (dig (Zpos w)) 53); [assumption|].
    assert (2 ^ 53 <= 2 ^ (dig (Zpos w) - 1)) by (apply Z.pow_le_mono_r; lia). lia. }
  pose proof (dig_pos (Zpos w) ltac:(lia)) as Hd0.
  rewrite Z.add_0_r in Hez.
  assert (He : ez = fexp64 (dig (Zpos w))) by (rewrite fexp_eq in *; lia).
  assert (Hez0 : ez <= 0) by (rewrite He, fexp_eq; lia).
  assert (Hdz : dig mz + ez = dig (Zpos w)).
  { rewrite Hmz, dig_mul_pow2 by lia. lia. }
  destruct (bra_exact_spec false mz ez Pz Hpre) as (mr & er & Heq & Hr0 & Her & Hbd & Hex & Hc).
  cbv zeta in *. rewrite Hdz, <- He in *. rewrite Z.sub_diag in *.
  change (2 ^ 0) with 1 in *. rewrite Z.mod_1_r, Z.div_1_r in *.
  specialize (Hex eq_refl).
  assert (Pr : 0 < mr).
  { pose proof (pow2_pos (er - ez) ltac:(lia)). nia. }
  destruct Hc as [Hc|Hc]; [lia|].
  (* the canonical exponent of the result is that of the input *)
  assert (Cz : canon mz ez) by (split; [assumption|rewrite Hdz; auto]).
  assert (Cr : canon mr er) by (split; assumption).
  assert (L1 : lex_le mr er mz ez).
  { apply (canon_le_lex mr er mz ez ez); auto; try lia.
    rewrite Z.sub_diag. change (2 ^ 0) with 1. lia. }
  assert (Heq' : er = ez) by (destruct L1; lia).
  subst er. rewrite Z.sub_diag in Hex. change (2 ^ 0) with 1 in Hex.
  assert (mr = mz) by lia. subst mr.
  destruct mz as [|pz|pz]; try lia.
  exists pz, ez. rewrite Heq. simpl build.
  destruct (Z.leb_spec ez 971); [|lia].
  repeat split; auto; lia.
Qed.

(** Rounded products against representable bounds. *)
Lemma mul_pre mx ex my ey :
  canon (Zpos mx) ex -> canon (Zpos my) ey ->
  ex + ey <= fexp64 (dig (Zpos (mx * my)) + (ex + ey)).
Proof.
  intros Cx Cy.
  pose proof (canon_bounds _ _ Cx) as (Lx & Dx & _).
  pose proof (canon_bounds _ _ Cy) as (Ly & Dy & _).
  destruct Cx as [Px Hx], Cy as [Py Hy].
  pose proof (dig_bounds _ Px) as [Bx _]. pose proof (dig_bounds _ Py) as [By _].
  assert (Hd : dig (Zpos mx) + dig (Zpos my) - 1 <= dig (Zpos (mx * my))).
  { rewrite Pos2Z.inj_mul.
    assert (2 ^ (dig (Zpos mx) - 1 + (dig (Zpos my) - 1)) <= Zpos mx * Zpos my).
    { rewrite pow2_split by lia.
      pose proof (pow2_pos (dig (Zpos mx) - 1) ltac:(lia)).
      pose proof (pow2_pos (dig (Zpos my) - 1) ltac:(lia)). nia. }
    pose proof (dig_bounds (Zpos mx * Zpos my) ltac:(lia)) as [_ U].
    assert (2 ^ (dig (Zpos mx) - 1 + (dig (Zpos my) - 1)) < 2 ^ dig (Zpos mx * Zpos my)) by lia.
    apply Z.pow_lt_mono_r_iff in H0; [lia|lia|].
    apply dig_nonneg. lia. }
  rewrite fexp_eq in *. lia.
Qed.

Section Mul.

Variables (mx : positive) (ex : Z) (my : positive) (ey : Z).
Hypothesis Vx : valid_binary (S754_finite false mx ex) = true.
Hypothesis Vy : valid_binary (S754_finite false my ey) = true.
Variables (ma : positive) (ea : Z).
Hypothesis Va : valid_binary (S754_finite false ma ea) = true.

Lemma SFmul_le :
  Zpos mx * Zpos my * 2 ^ (ex + ey + 2148) <= Zpos ma * 2 ^ (ea + 2148) ->
  SFleb (SF64mul (S754_finite false mx ex) (S754_finite false my ey))
        (S754_finite false ma ea) = true.
Proof.
  intros H.
  destruct (valid_canon _ _ _ Vx) as [Cx _], (valid_canon _ _ _ Vy) as [Cy _].
  destruct (valid_canon _ _ _ Va) as [Ca Hb].
  pose proof (canon_bounds _ _ Cx) as (Lx & _).
  pose proof (canon_bounds _ _ Cy) as (Ly & _).
  pose proof (canon_bounds _ _ Ca) as (La & _).
  unfold SF64mul, SFmul. simpl xorb.
  destruct (round_le false (Zpos (mx * my)) (ex + ey) ltac:(lia)
              (mul_pre _ _ _ _ Cx Cy) (Zpos ma) ea (-2148) Ca ltac:(lia) ltac:(lia))
    as (mr & er & -> & Hr).
  - rewrite Pos2Z.inj_mul.
    replace (ex + ey - -2148) with (ex + ey + 2148) by lia.
    replace (ea - -2148) with (ea + 2148) by lia. assumption.
  - apply build_le_pos; assumption.
Qed.

Lemma SFmul_ge :
  Zpos ma * 2 ^ (ea + 2148) <= Zpos mx * Zpos my * 2 ^ (ex + ey + 2148) ->
  SFleb (S754_finite false ma ea)
        (SF64mul (S754_finite false mx ex) (S754_finite false my ey)) = true.
Proof.
  intros H.
  destruct (valid_canon _ _ _ Vx) as [Cx _], (valid_canon _ _ _ Vy) as [Cy _].
  destruct (valid_canon _ _ _ Va) as [Ca Hb].
  pose proof (canon_bounds _ _ Cx) as (Lx & _).
  pose proof (canon_bounds _ _ Cy) as (Ly & _).
  pose proof (canon_bounds _ _ Ca) as (La & _).
  unfold SF64mul, SFmul. simpl xorb.
  destruct (round_ge false (Zpos (mx * my)) (ex + ey) ltac:(lia)
              (mul_pre _ _ _ _ Cx Cy) (Zpos ma) ea (-2148) Ca ltac:(lia) ltac:(lia))
    as (mr & er & -> & Cr & Lr).
  - rewrite Pos2Z.inj_mul.
    replace (ex + ey - -2148) with (ex + ey + 2148) by lia.
    replace (ea - -2148) with (ea + 2148) by lia. assumption.
  - apply build_ge_pos; assumption.
Qed.

End Mul.

(** A representable value is rounded to itself. *)
Lemma binary_round_exact sx w ez ma ea :
  -1074 <= ez -> canon ma ea ->
  Zpos w * 2 ^ (ez + 1074) = ma * 2 ^ (ea + 1074) ->
  binary_round prec emax sx w ez = build sx ma ea.
Proof.
  intros Hez Ca Hv.
  destruct (binary_round_eq sx w ez) as (mz & e0 & -> & Pz & He0 & Hmz & Hpre).
  pose proof (fexp_ge_emin (dig (Zpos w) + ez)).
  pose proof (canon_bounds _ _ Ca) as (La & _).
  apply (round_exact sx mz e0 Pz Hpre ma ea (-1074)); auto; try lia.
  rewrite Hmz.
  replace (ea - -1074) with (ea + 1074) by lia. rewrite <- Hv.
  replace (ez + 1074) with ((ez - e0) + (e0 - -1074)) by lia.
  rewrite pow2_split by lia. ring.
Qed.

Lemma build_finite sx (m : positive) e :
  e <= 971 -> build sx (Zpos m) e = S754_finite sx m e.
Proof. intros H. simpl. destruct (Z.leb_spec e 971); [reflexivity|lia]. Qed.

Lemma scaled_aligned_at s m e ez : -1074 <= ez <= e ->
  scaled (S754_finite s m e) = aligned s m e ez * 2 ^ (ez + 1074).
Proof.
  intros H. unfold scaled, aligned.
  replace (e + 1074) with ((e - ez) + (ez + 1074)) by lia.
  rewrite pow2_split by lia. unfold cond_Zopp. destruct s; ring.
Qed.

(** A sum of finite numbers that is representable is computed exactly. *)
Lemma SFadd_exact sx mx ex sy my ey ss ms es :
  valid_binary (S754_finite sx mx ex) = true ->
  valid_binary (S754_finite sy my ey) = true ->
  valid_binary (S754_finite ss ms es) = true ->
  scaled (S754_finite ss ms es) =
    scaled (S754_finite sx mx ex) + scaled (S754_finite sy my ey) ->
  SF64add (S754_finite sx mx ex) (S754_finite sy my ey) = S754_finite ss ms es.
Proof.
  intros Vx Vy Vs Hv.
  destruct (valid_canon _ _ _ Vx) as [Cx _], (valid_canon _ _ _ Vy) as [Cy _].
  destruct (valid_canon _ _ _ Vs) as [Cs Hs].
  pose proof (canon_bounds _ _ Cx) as (Lx & _).
  pose proof (canon_bounds _ _ Cy) as (Ly & _).
  pose proof (canon_bounds _ _ Cs) as (Ls & _).
  unfold SF64add, SFadd. rewrite !aligned_eq by lia.
  set (ez := Z.min ex ey).
  assert (Hez : -1074 <= ez /\ ez <= ex /\ ez <= ey) by (unfold ez; lia).
  clearbody ez.
  rewrite (scaled_aligned_at sx mx ex ez), (scaled_aligned_at sy my ey ez) in Hv by lia.
  rewrite <- Z.mul_add_distr_r in Hv.
  set (W := aligned sx mx ex ez + aligned sy my ey ez) in *.
  pose proof (pow2_pos (ez + 1074) ltac:(lia)) as Pz.
  pose proof (pow2_pos (es + 1074) ltac:(lia)) as Ps.
  unfold scaled, cond_Zopp in Hv.
  destruct W as [|w|w]; simpl binary_normalize.
  - destruct ss; nia.
  - destruct ss; [nia|].
    rewrite (binary_round_exact false w ez (Zpos ms) es)
      by (try assumption; lia).
    apply build_finite; assumption.
  - destruct ss; [|nia].
    rewrite (binary_round_exact true w ez (Zpos ms) es)
      by (try assumption; lia).
    apply build_finite; assumption.
Qed.

(** A quotient of finite numbers that is representable is computed
    exactly. *)
Lemma SFdiv_exact sx m1 e1 m2 e2 mc ec :
  valid_binary (S754_finite sx m1 e1) = true ->
  valid_binary (S754_finite false m2 e2) = true ->
  valid_binary (S754_finite sx mc ec) = true ->
  Zpos m1 * 2 ^ (e1 + 1074) * 2 ^ 1074 =
    Zpos mc * 2 ^ (ec + 1074) * (Zpos m2 * 2 ^ (e2 + 1074)) ->
  SF64div (S754_finite sx m1 e1) (S754_finite false m2 e2) = S754_finite sx mc ec.
Proof.
  intros Vx Vy Vc Hv.
  destruct (valid_canon _ _ _ Vx) as [Cx Bx], (valid_canon _ _ _ Vy) as [Cy By].
  destruct (valid_canon _ _ _ Vc) as [Cc Bc].
  pose proof (canon_bounds _ _ Cx) as (Lx & Dx & _).
  pose proof (canon_bounds _ _ Cy) as (Ly & Dy & _).
  pose proof (canon_bounds _ _ Cc) as (Lc & Dc & _).
  pose proof Cc as [_ Hcc].
  unfold SF64div, SFdiv, SFdiv_core_binary.
  change (Zdigits2 (Zpos m1)) with (dig (Zpos m1)).
  change (Zdigits2 (Zpos m2)) with (dig (Zpos m2)).
  change (SpecFloat.fexp prec emax) with fexp64.
  set (e' := Z.min (fexp64 (dig (Zpos m1) + e1 - (dig (Zpos m2) + e2))) (e1 - e2)).
  (* the exponent of the quotient is at least that of the division *)
  assert (Hv' : Zpos m1 * 2 ^ (e1 + 2148) = Zpos mc * Zpos m2 * 2 ^ (ec + e2 + 2148)).
  { replace (e1 + 2148) with ((e1 + 1074) + 1074) by lia.
    replace (ec + e2 + 2148) with ((ec + 1074) + (e2 + 1074)) by lia.
    rewrite (pow2_split (e1 + 1074) 1074), (pow2_split (ec + 1074) (e2 + 1074)) by lia.
    rewrite Z.mul_assoc, Hv. ring. }
  assert (Hd : dig (Zpos m1) + e1 - (dig (Zpos m2) + e2) <= dig (Zpos mc) + ec).
  { pose proof (dig_bounds (Zpos m1) ltac:(lia)) as [L1 _].
    pose proof (dig_bounds (Zpos m2) ltac:(lia)) as [_ U2].
    pose proof (dig_bounds (Zpos mc) ltac:(lia)) as [_ Uc].
    assert (2 ^ (dig (Zpos m1) - 1 + (e1 + 2148))
            < 2 ^ (dig (Zpos mc) + dig (Zpos m2) + (ec + e2 + 2148))).
    { rewrite (pow2_split (dig (Zpos m1) - 1)), (pow2_split (dig (Zpos mc) + dig (Zpos m2))),
        (pow2_split (dig (Zpos mc))) by lia.
      pose proof (pow2_pos (e1 + 2148) ltac:(lia)).
      pose proof (pow2_pos (ec + e2 + 2148) ltac:(lia)).
      assert (Zpos mc * Zpos m2 < 2 ^ dig (Zpos mc) * 2 ^ dig (Zpos m2)) by nia.
      nia. }
    apply Z.pow_lt_mono_r_iff in H; lia. }
  assert (He' : e' <= ec).
  { pose proof (fexp_mono _ _ Hd). unfold e'. lia. }
  assert (Le' : -2148 <= e').
  { unfold e'. pose proof (fexp_ge_emin (dig (Zpos m1) + e1 - (dig (Zpos m2) + e2))). lia. }
  assert (Le2 : -2148 <= e2 + e').
  { unfold e'. pose proof (fexp_ge_emin (dig (Zpos m1) + e1 - (dig (Zpos m2) + e2))). lia. }
  set (s := e1 - e2 - e').
  assert (Hs : 0 <= s) by (unfold s, e'; lia).
  assert (Hsd : s = e1 - e2 - e') by reflexivity.
  clearbody s.
  set (m' := match s with Zpos _ => Z.shiftl (Zpos m1) s | Z0 => Zpos m1 | Zneg _ => 0 end).
  assert (Hm' : m' = Zpos m1 * 2 ^ s).
  { unfold m'. destruct s as [|p|p]; try lia.
    apply Z.shiftl_mul_pow2. lia. }
  set (Q := Zpos mc * 2 ^ (ec - e')).
  assert (HQ : m' = Q * Zpos m2).
  { rewrite Hm'. unfold Q.
    pose proof (pow2_pos (e2 + e' + 2148) ltac:(lia)) as P.
    apply (Z.mul_reg_r _ _ (2 ^ (e2 + e' + 2148))); [lia|].
    replace (Zpos m1 * 2 ^ s * 2 ^ (e2 + e' + 2148)) with (Zpos m1 * 2 ^ (e1 + 2148)).
    - rewrite Hv'.
      replace (ec + e2 + 2148) with ((ec - e') + (e2 + e' + 2148)) by lia.
      rewrite pow2_split by lia. ring.
    - replace (e1 + 2148) with (s + (e2 + e' + 2148)) by lia.
      rewrite pow2_split by lia. ring. }
  assert (PQ : 0 < Q).
  { unfold Q. pose proof (pow2_pos (ec - e') ltac:(lia)). nia. }
  assert (Hdiv : Z.div_eucl m' (Zpos m2) = (Q, 0)).
  { pose proof (Z.div_eucl_eq m' (Zpos m2) ltac:(lia)) as D.
    pose proof (Z.mod_pos_bound m' (Zpos m2) ltac:(lia)) as B.
    unfold Z.modulo in B.
    destruct (Z.div_eucl m' (Zpos m2)) as [q r]. simpl in B.
    assert (r = 0 /\ q = Q); [|intuition congruence].
    rewrite HQ in D.
    assert (Zpos m2 * (Q - q) = r) by lia.
    assert (Q - q = 0) by nia. lia. }
  rewrite Hdiv.
  assert (Hloc : new_location (Zpos m2) 0 = loc_Exact).
  { unfold new_location, new_location_even, new_location_odd.
    destruct (Z.even (Zpos m2)); reflexivity. }
  rewrite Hloc. simpl xorb. rewrite xorb_false_r.
  rewrite (round_exact sx Q e' PQ) with (ma := Zpos mc) (ea := ec) (b := -2148);
    auto; try lia.
  - apply build_finite; assumption.
  - unfold Q. rewrite dig_mul_pow2 by lia.
    replace (dig (Zpos mc) + (ec - e') + e') with (dig (Zpos mc) + ec) by lia. lia.
  - unfold Q. replace (ec - -2148) with ((ec - e') + (e' - -2148)) by lia.
    rewrite pow2_split by lia. ring.
Qed.

(** The order [SFleb]. *)
Lemma SFleb_trans x y z :
  SFleb x y = true -> SFleb y z = true -> SFleb x z = true.
Proof.
  unfold SFleb.
  destruct x as [[]|[]| |[] m1 e1], y as [[]|[]| |[] m2 e2], z as [[]|[]| |[] m3 e3];
    simpl; try congruence; try reflexivity; intros H1 H2;
    cmp_cases; simpl in *; try congruence; try reflexivity; try lia.
Qed.

Lemma SFleb_total x y :
  SFnotnan x = true -> SFnotnan y = true -> SFleb x y = true \/ SFleb y x = true.
Proof.
  unfold SFleb.
  destruct x as [[]|[]| |[] m1 e1], y as [[]|[]| |[] m2 e2];
    simpl; try congruence; auto; intros H1 H2;
    cmp_cases; simpl in *; auto; try lia.
Qed.

Lemma SFltb_SFleb x y :
  SFnotnan x = true -> SFnotnan y = true -> SFltb x y = negb (SFleb y x).
Proof.
  unfold SFleb, SFltb.
  destruct x as [[]|[]| |[] m1 e1], y as [[]|[]| |[] m2 e2];
    simpl; try congruence; auto; intros H1 H2;
    cmp_cases; simpl in *; auto; try lia.
Qed.

Lemma SFleb_notnan x y :
  SFleb x y = true -> SFnotnan x = true /\ SFnotnan y = true.
Proof.
  unfold SFleb. destruct x, y; simpl; intros H; try discriminate; auto.
Qed.

Lemma SFltb_notnan x y :
  SFltb x y = true -> SFleb x y = true.
Proof.
  unfold SFleb, SFltb. destruct (SFcompare x y) as [[]|]; congruence.
Qed.

Lemma SFeqb_refl x : SFeqb x x = SFnotnan x.
Proof.
  destruct x as [[]|[]| |[] m e]; try reflexivity;
    unfold SFeqb; simpl; rewrite Z.compare_refl;
    change (Pos.compare_cont Eq m m) with (Pos.compare m m);
    rewrite Pos.compare_refl; reflexivity.
Qed.

End B64Facts.

(** * Doubles and their specification *)

Module DblFacts.

Import B64 B64Facts.

Lemma SF_valid x : valid_binary (Prim2SF x) = true.
Proof. apply Prim2SF_valid. Qed.

Lemma is_nan_SF x : is_nan x = negb (SFnotnan (Prim2SF x)).
Proof. unfold is_nan. rewrite FloatAxioms.eqb_spec, SFeqb_refl. reflexivity. Qed.

Lemma is_finite_SF x : is_finite x = SFfin (Prim2SF x).
Proof.
  unfold is_finite, is_infinity. rewrite is_nan_SF, FloatAxioms.eqb_spec, FloatAxioms.abs_spec.
  change (Prim2SF infinity) with (S754_infinity false).
  destruct (Prim2SF x) as [[]|[]| |[] m e]; reflexivity.
Qed.

Lemma is_finite_notnan x : is_finite x = true -> is_nan x = false.
Proof.
  rewrite is_finite_SF, is_nan_SF. destruct (Prim2SF x); simpl; congruence.
Qed.

Lemma leb_trans x y z :
  (x <=? y)%float = true -> (y <=? z)%float = true -> (x <=? z)%float = true.
Proof. rewrite !FloatAxioms.leb_spec. apply SFleb_trans. Qed.

Lemma leb_refl x : is_nan x = false -> (x <=? x)%float = true.
Proof.
  rewrite is_nan_SF, FloatAxioms.leb_spec. intros H. apply SFleb_refl.
  destruct (SFnotnan (Prim2SF x)); simpl in H; congruence.
Qed.

Lemma ltb_false_leb x y :
  is_nan x = false -> is_nan y = false ->
  (x <? y)%float = false -> (y <=? x)%float = true.
Proof.
  rewrite !is_nan_SF, FloatAxioms.ltb_spec, FloatAxioms.leb_spec. intros Hx Hy H.
  rewrite SFltb_SFleb in H.
  - destruct (SFleb (Prim2SF y) (Prim2SF x)); simpl in H; congruence.
  - destruct (SFnotnan (Prim2SF x)); simpl in Hx; congruence.
  - destruct (SFnotnan (Prim2SF y)); simpl in Hy; congruence.
Qed.

Lemma leb_ltb_false x y :
  (x <=? y)%float = true -> (y <? x)%float = false.
Proof.
  rewrite FloatAxioms.ltb_spec, FloatAxioms.leb_spec. intros H.
  destruct (SFleb_notnan _ _ H) as [Hx Hy].
  rewrite SFltb_SFleb, H by assumption. reflexivity.
Qed.

Lemma ltb_true_leb x y : (x <? y)%float = true -> (x <=? y)%float = true.
Proof. rewrite FloatAxioms.ltb_spec, FloatAxioms.leb_spec. apply SFltb_notnan. Qed.

Lemma leb_notnan x y :
  (x <=? y)%float = true -> is_nan x = false /\ is_nan y = false.
Proof.
  rewrite FloatAxioms.leb_spec, !is_nan_SF. intros H.
  destruct (SFleb_notnan _ _ H) as [-> ->]. auto.
Qed.

(** Conversion from an integer. *)
Lemma of_Z_SF z : Prim2SF (Dbl.of_Z z) = binary_normalize prec emax z 0 false.
Proof. unfold Dbl.of_Z. apply Prim2SF_SF2Prim. apply binary_normalize_valid. Qed.

Local Open Scope Z_scope.

Lemma unit1074_pos : 0 < unit1074.
Proof. unfold unit1074. apply pow2_pos. lia. Qed.

(** The integer part of a valid non-negative finite number. *)
Lemma trunc_SF_scaled r :
  valid_binary r = true -> SFfin r = true -> SFnn r = true ->
  Dbl.trunc_SF r = Some (scaled r / unit1074) /\ 0 <= scaled r.
Proof.
  intros V F N. destruct r as [s|s| |[] m e]; try discriminate.
  - simpl. rewrite Z.div_0_l by (pose proof unit1074_pos; lia). split; [reflexivity|lia].
  - destruct (valid_canon _ _ _ V) as [C _]. pose proof (canon_bounds _ _ C) as (L & _).
    unfold Dbl.trunc_SF, scaled, cond_Zopp.
    rewrite shiftl_scaled by assumption. split; [reflexivity|].
    pose proof (pow2_pos (e + 1074) ltac:(lia)).
    apply Z.mul_nonneg_nonneg; lia.
Qed.

Lemma scaled_one : scaled one_SF = unit1074.
Proof. reflexivity. Qed.

(** The product [p * (double) z] for [0 <= p <= 1] and a small [z]. *)
Lemma mul_of_Z_bound p z :
  (0 <=? p)%float = true -> (p <=? 1)%float = true -> 0 <= z < 2 ^ 53 ->
  let r := Prim2SF (p * Dbl.of_Z z)%float in
  SFfin r = true /\ SFnn r = true /\ 0 <= scaled r <= z * unit1074.
Proof.
  intros H0 H1 Hz r.
  assert (Vr : valid_binary r = true) by apply Prim2SF_valid.
  unfold r in *. rewrite mul_spec, of_Z_SF in *.
  rewrite FloatAxioms.leb_spec in H0, H1.
  change (Prim2SF 0) with (S754_zero false) in H0.
  change (Prim2SF 1) with one_SF in H1.
  pose proof (Prim2SF_valid p) as Vp.
  pose proof unit1074_pos as U.
  destruct (Prim2SF p) as [sp|sp| |sp mp ep] eqn:Ep; try discriminate.
  - (* p is a zero *)
    destruct (binary_normalize prec emax z 0 false) as [sm|sm| |sm mm em] eqn:Em.
    + simpl. repeat split; nia.
    + destruct (Z.eq_dec z 0) as [->|NZ]; [discriminate Em|].
      destruct (normalize_exact z ltac:(lia)) as (m & e & E & _). congruence.
    + destruct (Z.eq_dec z 0) as [->|NZ]; [discriminate Em|].
      destruct (normalize_exact z ltac:(lia)) as (m & e & E & _). congruence.
    + simpl. repeat split; nia.
  - destruct sp; discriminate.
  - destruct sp; [discriminate H0|].
    destruct (Z.eq_dec z 0) as [->|NZ].
    + simpl. repeat split; lia.
    + destruct (normalize_exact z ltac:(lia)) as (mm & em & E & Cm & Hem & Hmm).
      rewrite E in *.
      assert (Vm : valid_binary (S754_finite false mm em) = true).
      { rewrite <- E. apply binary_normalize_valid. }
      pose proof (canon_bounds _ _ Cm) as (Lm & _).
      destruct (valid_canon _ _ _ Vp) as [Cp _].
      pose proof (canon_bounds _ _ Cp) as (Lp & _).
      pose proof (SFleb_scaled (S754_finite false mp ep) one_SF
                    Vp eq_refl eq_refl eq_refl H1) as Sp.
      rewrite scaled_one in Sp. unfold scaled, cond_Zopp in Sp.
      assert (Hle : SFleb (SF64mul (S754_finite false mp ep) (S754_finite false mm em))
                      (S754_finite false mm em) = true).
      { apply SFmul_le; auto.
        replace (ep + em + 2148) with ((ep + 1074) + (em + 1074)) by lia.
        replace (em + 2148) with (1074 + (em + 1074)) by lia.
        rewrite (pow2_split (ep + 1074) (em + 1074)), (pow2_split 1074 (em + 1074)) by lia.
        fold unit1074.
        pose proof (pow2_pos (em + 1074) ltac:(lia)).
        pose proof (pow2_pos (ep + 1074) ltac:(lia)). nia. }
      pose proof (SFmul_sign false mp ep false mm em) as Hs. simpl xorb in Hs.
      set (q := SF64mul (S754_finite false mp ep) (S754_finite false mm em)) in *.
      assert (Fq : SFfin q = true).
      { destruct q as [?|[]| |? ? ?]; simpl in Hs; try reflexivity; try contradiction;
          try discriminate. }
      assert (Nq : SFnn q = true) by (apply has_sign_nn; assumption).
      pose proof (SFleb_scaled q (S754_finite false mm em) Vr Vm Fq eq_refl Hle) as Sq.
      destruct (trunc_SF_scaled q Vr Fq Nq) as [_ Q0].
      repeat split; auto.
      unfold scaled at 2 in Sq. unfold cond_Zopp in Sq. rewrite Hmm in Sq.
      replace (z * 2 ^ (- em) * 2 ^ (em + 1074)) with (z * unit1074) in Sq; [assumption|].
      unfold unit1074. replace 1074 with ((- em) + (em + 1074)) at 1 by lia.
      rewrite pow2_split by lia. ring.
Qed.

Lemma size_pred_eq n : 1 <= n <= Dbl.size_max -> Dbl.size_pred n = n - 1.
Proof.
  intros H. unfold Dbl.size_pred. apply Z.mod_small. unfold Dbl.size_max in *. lia.
Qed.

(** The index computed by [percentile] lies in the vector. *)
Lemma percentile_index_range n p :
  (0 <=? p)%float = true -> (p <=? 1)%float = true -> 1 <= n <= 2 ^ 53 ->
  exists idx, Benchmark.percentile_index n p = Some idx /\ 0 <= idx <= n - 1 /\
    idx = scaled (Prim2SF (p * Dbl.of_Z (n - 1))%float) / unit1074.
Proof.
  intros H0 H1 Hn.
  unfold Benchmark.percentile_index.
  rewrite size_pred_eq by (unfold Dbl.size_max; lia).
  destruct (mul_of_Z_bound p (n - 1) H0 H1 ltac:(lia)) as (F & N & B0 & B1).
  pose proof (Prim2SF_valid (p * Dbl.of_Z (n - 1))%float) as V.
  destruct (trunc_SF_scaled _ V F N) as [T _].
  pose proof unit1074_pos as U.
  set (r := Prim2SF (p * Dbl.of_Z (n - 1))%float) in *.
  assert (Q0 : 0 <= scaled r / unit1074) by (apply Z.div_pos; lia).
  assert (Q1 : scaled r / unit1074 <= n - 1).
  { apply Z.div_le_upper_bound; lia. }
  exists (scaled r / unit1074). unfold Dbl.to_size_t. fold r. rewrite T.
  assert (Hb : ((0 <=? scaled r / unit1074) && (scaled r / unit1074 <? Dbl.size_max)) = true).
  { apply andb_true_iff. split; [apply Z.leb_le; lia|apply Z.ltb_lt; unfold Dbl.size_max; lia]. }
  rewrite Hb. auto.
Qed.

Lemma scaled_half : scaled half_SF = 2 ^ 1073.
Proof. reflexivity. Qed.

(** A factor below one half gives an index below that of a factor above
    one half: the two rounded products are separated by half the value,
    which is representable. *)
Lemma mul_of_Z_mono c1 c3 z :
  (0 <=? c1)%float = true -> (c1 <=? 0.5)%float = true ->
  (0.5 <=? c3)%float = true -> (c3 <=? 1)%float = true -> 0 <= z < 2 ^ 53 ->
  scaled (Prim2SF (c1 * Dbl.of_Z z)%float) <= scaled (Prim2SF (c3 * Dbl.of_Z z)%float).
Proof.
  intros A1 A2 A3 A4 Hz.
  assert (A5 : (c1 <=? 1)%float = true) by (eapply leb_trans; [exact A2|reflexivity]).
  assert (A6 : (0 <=? c3)%float = true) by (eapply leb_trans; [|exact A3]; reflexivity).
  destruct (mul_of_Z_bound c1 z A1 A5 Hz) as (F1 & N1 & B1 & B1').
  destruct (mul_of_Z_bound c3 z A6 A4 Hz) as (F3 & N3 & B3 & B3').
  pose proof (Prim2SF_valid (c1 * Dbl.of_Z z)%float) as V1.
  pose proof (Prim2SF_valid (c3 * Dbl.of_Z z)%float) as V3.
  destruct (Z.eq_dec z 0) as [->|NZ]; [lia|].
  rewrite !mul_spec, !of_Z_SF in *.
  rewrite FloatAxioms.leb_spec in A1, A2, A3.
  change (Prim2SF 0) with (S754_zero false) in A1.
  change (Prim2SF 0.5) with half_SF in A2, A3.
  pose proof (Prim2SF_valid c1) as Vc1. pose proof (Prim2SF_valid c3) as Vc3.
  destruct (normalize_exact z ltac:(lia)) as (mm & em & E & Cm & Hem & Hmm).
  rewrite E in *.
  assert (Vm : valid_binary (S754_finite false mm em) = true).
  { rewrite <- E. apply binary_normalize_valid. }
  pose proof (canon_bounds _ _ Cm) as (Lm & Dm & Nm).
  (* the mantissa of [z] has 53 digits: half of it is representable *)
  assert (Hem' : -1074 < em).
  { destruct (Z.eq_dec em (-1074)) as [->|]; [|lia]. exfalso.
    destruct Cm as [Pm _]. pose proof (dig_bounds _ Pm) as [_ U].
    change (- -1074) with 1074 in Hmm.
    assert (2 ^ dig (Zpos mm) <= 2 ^ 53) by (apply Z.pow_le_mono_r; lia).
    assert (2 ^ 53 <= 2 ^ 1074) by (apply Z.pow_le_mono_r; lia).
    assert (1 * 2 ^ 1074 <= z * 2 ^ 1074) by (apply Z.mul_le_mono_nonneg_r; lia).
    lia. }
  specialize (Nm Hem').
  assert (Vh : valid_binary (S754_finite false mm (em - 1)) = true).
  { destruct (valid_canon _ _ _ Vm) as [_ Hb]. apply canon_valid; [|lia].
    split; [lia|]. rewrite Nm, fexp_eq. lia. }
  destruct (Prim2SF c3) as [s3|s3| |s3 m3 e3] eqn:E3; try discriminate;
    try (destruct s3; discriminate).
  destruct s3; [discriminate A3|].
  assert (L3 : SFleb (S754_finite false mm (em - 1))
                 (SF64mul (S754_finite false m3 e3) (S754_finite false mm em)) = true).
  { apply SFmul_ge; auto.
    pose proof (SFleb_scaled half_SF (S754_finite false m3 e3)
                  eq_refl Vc3 eq_refl eq_refl A3) as S3.
    rewrite scaled_half in S3. unfold scaled, cond_Zopp in S3.
    destruct (valid_canon _ _ _ Vc3) as [C3 _].
    pose proof (canon_bounds _ _ C3) as (Lc3 & _).
    replace (em - 1 + 2148) with (1073 + (em + 1074)) by lia.
    replace (e3 + em + 2148) with ((e3 + 1074) + (em + 1074)) by lia.
    rewrite (pow2_split 1073 (em + 1074)), (pow2_split (e3 + 1074) (em + 1074)) by lia.
    pose proof (pow2_pos (em + 1074) ltac:(lia)). nia. }
  destruct (Prim2SF c1) as [s1|s1| |s1 m1 e1] eqn:E1; try discriminate;
    try (destruct s1; discriminate).
  - (* c1 is a zero *)
    replace (scaled (SF64mul (S754_zero s1) (S754_finite false mm em))) with 0
      by reflexivity.
    lia.
  - destruct s1; [discriminate A1|].
    assert (L1 : SFleb (SF64mul (S754_finite false m1 e1) (S754_finite false mm em))
                   (S754_finite false mm (em - 1)) = true).
    { apply SFmul_le; auto.
      pose proof (SFleb_scaled (S754_finite false m1 e1) half_SF
                    Vc1 eq_refl eq_refl eq_refl A2) as S1.
      rewrite scaled_half in S1. unfold scaled, cond_Zopp in S1.
      destruct (valid_canon _ _ _ Vc1) as [C1 _].
      pose proof (canon_bounds _ _ C1) as (Lc1 & _).
      replace (em - 1 + 2148) with (1073 + (em + 1074)) by lia.
      replace (e1 + em + 2148) with ((e1 + 1074) + (em + 1074)) by lia.
      rewrite (pow2_split 1073 (em + 1074)), (pow2_split (e1 + 1074) (em + 1074)) by lia.
      pose proof (pow2_pos (em + 1074) ltac:(lia)). nia. }
    apply SFleb_scaled; auto. eapply SFleb_trans; eassumption.
Qed.

(** The lower quartile lies within the Tukey fences. *)
Lemma fences_keep q1 q3 :
  is_finite q1 = true -> is_finite q3 = true -> (q1 <=? q3)%float = true ->
  Benchmark.in_fences (q1 - 1.5 * (q3 - q1))%float (q3 + 1.5 * (q3 - q1))%float q1 = true.
Proof.
  intros F1 F3 H. rewrite is_finite_SF in F1, F3.
  pose proof H as H'. rewrite FloatAxioms.leb_spec in H'.
  set (iqr := (q3 - q1)%float). set (t := (1.5 * iqr)%float).
  assert (Ni : SFnn (Prim2SF iqr) = true).
  { unfold iqr. rewrite sub_spec. apply SFsub_nn; auto using Prim2SF_valid. }
  assert (Nt : SFnn (Prim2SF t) = true).
  { unfold t. rewrite mul_spec. apply SFmul_nn; auto; try discriminate; reflexivity. }
  unfold Benchmark.in_fences. apply andb_true_iff. split.
  - rewrite FloatAxioms.leb_spec, sub_spec. apply SFsub_le; auto using Prim2SF_valid.
  - apply leb_trans with q3; [assumption|].
    rewrite FloatAxioms.leb_spec, add_spec. apply SFadd_ge; auto using Prim2SF_valid.
Qed.

(** Results that are not NaN. *)
Lemma notnan_iff x : is_nan x = false <-> SFnotnan (Prim2SF x) = true.
Proof. rewrite is_nan_SF. destruct (SFnotnan (Prim2SF x)); simpl; split; congruence. Qed.

Lemma add_notnan x y :
  is_nan x = false -> is_finite y = true -> is_nan (x + y)%float = false.
Proof.
  rewrite !notnan_iff, is_finite_SF, add_spec. apply SFadd_notnan.
Qed.

Lemma sub_notnan x y :
  is_finite x = true -> is_nan y = false -> is_nan (x - y)%float = false.
Proof.
  rewrite !notnan_iff, is_finite_SF, sub_spec. apply SFsub_notnan.
Qed.

Lemma div_notnan x y s m e :
  is_nan x = false -> Prim2SF y = S754_finite s m e -> is_nan (x / y)%float = false.
Proof.
  rewrite !notnan_iff, div_spec. intros Hx ->. apply SFdiv_notnan. assumption.
Qed.

Lemma clamp_nonneg c : is_nan c = false -> (0 <=? Benchmark.clamp c)%float = true.
Proof.
  intros H. unfold Benchmark.clamp. destruct (c <? 0)%float eqn:E; [reflexivity|].
  apply ltb_false_leb; auto.
Qed.

(** A positive [size_t] converts to a positive finite double. *)
Lemma normalize_pos_finite z : 0 < z <= 2 ^ 64 ->
  exists m e, binary_normalize prec emax z 0 false = S754_finite false m e.
Proof.
  intros [Hz Hb]. destruct z as [|w|w]; try lia. simpl binary_normalize.
  destruct (binary_round_eq false w 0) as (mz & ez & -> & Pz & Hez & Hmz & Hpre).
  pose proof (fexp_ge_emin (dig (Zpos w) + 0)) as Hf.
  assert (Hez1 : -1074 <= ez <= 0) by lia.
  pose proof (pow2_pos (ez - -1074) ltac:(lia)) as P1.
  assert (Hv : mz * 2 ^ (ez - -1074) = Zpos w * 2 ^ 1074).
  { rewrite Hmz.
    replace (2 ^ 1074) with (2 ^ (0 - ez) * 2 ^ (ez - -1074)); [ring|].
    rewrite <- pow2_split by lia. f_equal. lia. }
  assert (C1 : canon 4503599627370496 (-52)) by (split; [lia|reflexivity]).
  assert (C2 : canon 4503599627370496 12) by (split; [lia|reflexivity]).
  destruct (round_ge false mz ez Pz Hpre _ _ (-1074) C1 ltac:(lia) ltac:(lia))
    as (mr & er & Heq & Cr & Lr).
  { rewrite Hv. change (4503599627370496 * 2 ^ (-52 - -1074)) with (1 * 2 ^ 1074).
    apply Z.mul_le_mono_nonneg_r; [|lia]. pose proof (pow2_pos 1074 ltac:(lia)); lia. }
  destruct (round_le false mz ez Pz Hpre _ _ (-1074) C2 ltac:(lia) ltac:(lia))
    as (mr' & er' & Heq' & Hr').
  { rewrite Hv. change (4503599627370496 * 2 ^ (12 - -1074)) with (2 ^ 64 * 2 ^ 1074).
    apply Z.mul_le_mono_nonneg_r; [|lia]. pose proof (pow2_pos 1074 ltac:(lia)); lia. }
  rewrite Heq in *. destruct Cr as [Pr Cr].
  destruct mr as [|pr|pr]; try lia. simpl build in *.
  destruct (Z.leb_spec er 971); [eauto|].
  exfalso. destruct Hr' as [->|[[P' C'] L']]; [discriminate Heq'|].
  destruct mr' as [|pr'|pr']; try lia. simpl build in Heq'.
  assert (er' <= 971) by (destruct L'; lia).
  destruct (Z.leb_spec er' 971); [discriminate Heq'|lia].
Qed.

Lemma of_Z_pos_finite z : 0 < z <= 2 ^ 64 ->
  exists m e, Prim2SF (Dbl.of_Z z) = S754_finite false m e.
Proof. intros H. rewrite of_Z_SF. apply normalize_pos_finite; assumption. Qed.

(** Squared deviations from the exact mean of a constant sequence. *)
Lemma SF_zero_eq x : Prim2SF x = S754_zero false -> x = 0%float.
Proof. intros H. apply Prim2SF_inj. rewrite H. reflexivity. Qed.

Lemma sub_self c : is_finite c = true -> (c - c)%float = 0%float.
Proof.
  rewrite is_finite_SF. intros F. apply SF_zero_eq. rewrite sub_spec.
  destruct (Prim2SF c) as [[]|?| |s m e]; try discriminate; try reflexivity.
  unfold SF64sub, SFsub. rewrite Z.sub_diag. reflexivity.
Qed.

Lemma sum_sq_const c n a :
  is_finite c = true -> a = 0%float ->
  fold_left (fun s x => (s + (x - c) * (x - c))%float) (repeat c n) a = 0%float.
Proof.
  intros F ->. induction n as [|n IH]; [reflexivity|].
  simpl. rewrite sub_self by assumption.
  change (0 + 0 * 0)%float with 0%float. exact IH.
Qed.

Lemma zero_div_pos y m e :
  Prim2SF y = S754_finite false m e -> (0 / y)%float = 0%float.
Proof.
  intros H. apply SF_zero_eq. rewrite div_spec, H. reflexivity.
Qed.

End DblFacts.

(** * The statistics helpers *)

Module StatsFacts.

Import B64 B64Facts DblFacts Benchmark Spec.

Lemma all_finite_no_nan v : all_finite v -> no_nan v.
Proof. apply Forall_impl. intros x. apply is_finite_notnan. Qed.

Lemma Forall_perm {A} (P : A -> Prop) l l' :
  Permutation l l' -> Forall P l -> Forall P l'.
Proof.
  intros H. rewrite !Forall_forall. intros F x Hx. apply F.
  eapply Permutation_in; [symmetry; exact H|exact Hx].
Qed.

(** ** [std::sort] *)

Lemma insert_perm x l : Permutation (insert x l) (x :: l).
Proof.
  induction l as [|y l IH]; simpl; [reflexivity|].
  destruct (y <? x)%float; [|reflexivity].
  rewrite IH. apply perm_swap.
Qed.

Lemma sort_perm v : Permutation (sort v) v.
Proof.
  induction v as [|x v IH]; simpl; [reflexivity|].
  rewrite insert_perm. constructor. exact IH.
Qed.

Lemma sort_length v : List.length (sort v) = List.length v.
Proof. apply Permutation_length, sort_perm. Qed.

Lemma sort_nonempty v : v <> [] -> sort v <> [].
Proof.
  intros Hne E. apply Hne. apply length_zero_iff_nil.
  rewrite <- sort_length, E. reflexivity.
Qed.

Lemma sort_size v : Dbl.size (sort v) = Dbl.size v.
Proof. unfold Dbl.size. rewrite sort_length. reflexivity. Qed.

Lemma sort_in x v : In x (sort v) <-> In x v.
Proof.
  split; apply Permutation_in; [apply sort_perm|symmetry; apply sort_perm].
Qed.

Lemma sort_no_nan v : no_nan v -> no_nan (sort v).
Proof. apply Forall_perm. symmetry. apply sort_perm. Qed.

Lemma sort_all_finite v : all_finite v -> all_finite (sort v).
Proof. apply Forall_perm. symmetry. apply sort_perm. Qed.

Lemma insert_sorted x l :
  is_nan x = false -> no_nan l ->
  StronglySorted le l -> StronglySorted le (insert x l).
Proof.
  intros Hx Hl Hs. induction Hs as [|y l Hs IH Hy]; simpl.
  - constructor; constructor.
  - inversion Hl as [|? ? Hny Hnl]; subst.
    destruct (y <? x)%float eqn:E.
    + constructor; [apply IH; assumption|].
      apply (Forall_perm _ (x :: l)); [symmetry; apply insert_perm|].
      constructor; [apply ltb_true_leb; assumption|assumption].
    + assert (Hxy : le x y) by (apply ltb_false_leb; assumption).
      constructor; [constructor; assumption|].
      constructor; [assumption|].
      eapply Forall_impl; [|exact Hy]. intros z Hz. eapply leb_trans; eassumption.
Qed.

Lemma sort_sorted v : no_nan v -> StronglySorted le (sort v).
Proof.
  induction v as [|x v IH]; intros H; simpl; [constructor|].
  inversion H; subst.
  apply insert_sorted; auto. apply sort_no_nan; assumption.
Qed.

(** Sorting a sorted vector changes nothing. *)
Lemma sort_id l : StronglySorted le l -> sort l = l.
Proof.
  induction 1 as [|x l Hs IH Hx]; [reflexivity|].
  simpl. rewrite IH. destruct l as [|y l]; [reflexivity|].
  simpl. inversion Hx; subst.
  rewrite leb_ltb_false by assumption. reflexivity.
Qed.

Lemma sorted_nth l : StronglySorted le l -> no_nan l ->
  forall i j a b, (i <= j)%nat ->
    nth_error l i = Some a -> nth_error l j = Some b -> le a b.
Proof.
  induction 1 as [|x l Hs IH Hx]; intros Hn i j a b Hij Ha Hb.
  - destruct i; discriminate.
  - inversion Hn; subst. destruct i as [|i], j as [|j]; simpl in *.
    + inversion Ha; inversion Hb; subst. apply leb_refl; assumption.
    + inversion Ha; subst. rewrite Forall_forall in Hx. apply Hx.
      eapply nth_error_In; eassumption.
    + lia.
    + apply (IH H2 i j a b); [lia|assumption|assumption].
Qed.

Lemma filter_sorted (f : float -> bool) l :
  StronglySorted le l -> StronglySorted le (filter f l).
Proof.
  induction 1 as [|x l Hs IH Hx]; simpl; [constructor|].
  destruct (f x); [|assumption].
  constructor; [assumption|].
  rewrite Forall_forall in *. intros y Hy. apply Hx.
  apply filter_In in Hy. tauto.
Qed.

(** ** [percentile] *)

Lemma at_index_spec l idx : (0 <= idx < Dbl.size l)%Z ->
  exists x, at_index l idx = Some x /\ nth_error l (Z.to_nat idx) = Some x.
Proof.
  intros H. unfold at_index.
  destruct (Z.ltb_spec idx (Dbl.size l)); [|lia].
  destruct (nth_error l (Z.to_nat idx)) as [x|] eqn:E; [eauto|].
  apply nth_error_None in E. unfold Dbl.size in H. lia.
Qed.

Lemma size_pos v : v <> [] -> (1 <= Dbl.size v)%Z.
Proof. destruct v; [congruence|]. unfold Dbl.size. simpl List.length. lia. Qed.

(** On a non-empty vector of at most [2^53] elements, [percentile] is
    defined for every [p] in [[0,1]]: it returns the element of the sorted
    vector at the computed index. *)
Lemma percentile_defined v p :
  v <> [] -> (Dbl.size v <= 2 ^ 53)%Z ->
  (0 <=? p)%float = true -> (p <=? 1)%float = true ->
  exists idx x,
    percentile_index (Dbl.size v) p = Some idx /\
    (0 <= idx <= Dbl.size v - 1)%Z /\
    idx = (scaled (Prim2SF (p * Dbl.of_Z (Dbl.size v - 1))%float) / unit1074)%Z /\
    nth_error (sort v) (Z.to_nat idx) = Some x /\
    percentile v p = Some x.
Proof.
  intros Hne Hsz H0 H1. pose proof (size_pos v Hne) as Hp.
  destruct (percentile_index_range (Dbl.size v) p H0 H1 ltac:(lia))
    as (idx & Hi & Hr & He).
  destruct (at_index_spec (sort v) idx) as (x & Hx & Hn).
  { rewrite sort_size. lia. }
  exists idx, x. unfold percentile. rewrite sort_size, Hi. auto.
Qed.

Lemma percentile_in v p x : percentile v p = Some x -> In x v.
Proof.
  unfold percentile, at_index. destruct (percentile_index _ p) as [idx|]; [|discriminate].
  destruct (Z.ltb_spec idx (Dbl.size (sort v))); [|discriminate].
  intros Hx. apply nth_error_In in Hx. apply sort_in. assumption.
Qed.

(** ** [filter_outliers] *)

Lemma filter_outliers_defined v :
  v <> [] -> (Dbl.size v <= 2 ^ 53)%Z ->
  exists q1 q3,
    percentile (sort v) 0.25%float = Some q1 /\
    percentile (sort v) 0.75%float = Some q3 /\
    filter_outliers v =
      Some (filter (in_fences (lower_fence q1 q3) (upper_fence q1 q3)) (sort v)).
Proof.
  intros Hne Hsz.
  pose proof (sort_nonempty v Hne) as Hne'.
  assert (Hsz' : (Dbl.size (sort v) <= 2 ^ 53)%Z) by (rewrite sort_size; assumption).
  destruct (percentile_defined (sort v) 0.25%float Hne' Hsz' eq_refl eq_refl)
    as (i1 & q1 & _ & _ & _ & _ & P1).
  destruct (percentile_defined (sort v) 0.75%float Hne' Hsz' eq_refl eq_refl)
    as (i3 & q3 & _ & _ & _ & _ & P3).
  exists q1, q3. unfold filter_outliers. rewrite P1, P3. auto.
Qed.

(** On a vector without NaN the lower quartile is below the upper one. *)
Lemma quartiles_ordered v q1 q3 :
  no_nan v ->  v <> [] -> (Dbl.size v <= 2 ^ 53)%Z ->
  percentile (sort v) 0.25%float = Some q1 ->
  percentile (sort v) 0.75%float = Some q3 ->
  le q1 q3.
Proof.
  intros Hn Hne Hsz P1 P3.
  pose proof (sort_nonempty v Hne) as Hne'.
  assert (Hsz' : (Dbl.size (sort v) <= 2 ^ 53)%Z) by (rewrite sort_size; assumption).
  pose proof (sort_sorted v Hn) as Hs. pose proof (sort_no_nan v Hn) as Hn'.
  destruct (percentile_defined (sort v) 0.25%float Hne' Hsz' eq_refl eq_refl)
    as (i1 & x1 & _ & R1 & E1 & N1 & Q1).
  destruct (percentile_defined (sort v) 0.75%float Hne' Hsz' eq_refl eq_refl)
    as (i3 & x3 & _ & R3 & E3 & N3 & Q3).
  rewrite P1 in Q1. rewrite P3 in Q3. inversion Q1; inversion Q3; subst x1 x3.
  rewrite sort_id in N1, N3 by assumption.
  pose proof (size_pos _ Hne') as Hp.
  pose proof (mul_of_Z_mono 0.25%float 0.75%float (Dbl.size (sort v) - 1)
                eq_refl eq_refl eq_refl eq_refl ltac:(lia)) as Hm.
  assert (Hi : (i1 <= i3)%Z).
  { rewrite E1, E3. apply Z.div_le_mono; [apply unit1074_pos|exact Hm]. }
  apply (sorted_nth (sort v) Hs Hn' (Z.to_nat i1) (Z.to_nat i3)); auto. lia.
Qed.

(** A non-empty vector of finite values keeps its lower quartile. *)
Lemma filter_outliers_keeps v :
  all_finite v -> v <> [] -> (Dbl.size v <= 2 ^ 53)%Z ->
  exists q1 out, filter_outliers v = Some out /\ In q1 out.
Proof.
  intros Hf Hne Hsz.
  destruct (filter_outliers_defined v Hne Hsz) as (q1 & q3 & P1 & P3 & E).
  pose proof (quartiles_ordered v q1 q3 (all_finite_no_nan v Hf) Hne Hsz P1 P3) as Hle.
  exists q1, (filter (in_fences (lower_fence q1 q3) (upper_fence q1 q3)) (sort v)).
  split; [assumption|].
  apply filter_In. split; [eapply percentile_in; eassumption|].
  pose proof (sort_all_finite v Hf) as Hf'. unfold all_finite in Hf'.
  rewrite Forall_forall in Hf'.
  apply fences_keep; auto; apply Hf'; eapply percentile_in; eassumption.
Qed.

Lemma filter_outliers_nonempty v :
  all_finite v -> v <> [] -> (Dbl.size v <= 2 ^ 53)%Z ->
  exists out, filter_outliers v = Some out /\ out <> [].
Proof.
  intros Hf Hne Hsz.
  destruct (filter_outliers_keeps v Hf Hne Hsz) as (q1 & out & E & Hin).
  exists out. split; [assumption|]. intros ->. contradiction.
Qed.

(** What [filter_outliers] returns is a sorted part of its input. *)
Lemma filter_outliers_sub v out :
  filter_outliers v = Some out ->
  exists lo hi, out = filter (in_fences lo hi) (sort v).
Proof.
  unfold filter_outliers.
  destruct (percentile (sort v) 0.25%float) as [q1|]; [|discriminate].
  destruct (percentile (sort v) 0.75%float) as [q3|]; [|discriminate].
  intros H. inversion H. eauto.
Qed.

(** [count]: permutations and filters. *)
Lemma count_perm x l l' : Permutation l l' -> count x l = count x l'.
Proof.
  unfold count. induction 1 as [|y l l' H IH|y z l|l l' l'' H1 IH1 H2 IH2]; simpl.
  - reflexivity.
  - destruct (Leibniz.eqb x y); simpl; rewrite IH; reflexivity.
  - destruct (Leibniz.eqb x y), (Leibniz.eqb x z); reflexivity.
  - rewrite IH1. exact IH2.
Qed.

Lemma count_filter (f : float -> bool) x l :
  count x (filter f l) = if f x then count x l else 0%nat.
Proof.
  unfold count. induction l as [|y l IH]; simpl; [destruct (f x); reflexivity|].
  destruct (Leibniz.eqb x y) eqn:E.
  - apply FloatAxioms.Leibniz.eqb_spec in E. subst y.
    destruct (f x); simpl.
    + rewrite (proj2 (FloatAxioms.Leibniz.eqb_spec x x) eq_refl). simpl. rewrite IH. reflexivity.
    + exact IH.
  - destruct (f y); simpl; [rewrite E|]; exact IH.
Qed.

Lemma filter_length_le {A} (f : A -> bool) l :
  (List.length (filter f l) <= List.length l)%nat.
Proof. induction l as [|x l IH]; simpl; [lia|]. destruct (f x); simpl; lia. Qed.

Lemma filter_outliers_props v out :
  filter_outliers v = Some out ->
  (forall x, In x out -> In x v) /\
  (Dbl.size out <= Dbl.size v)%Z /\
  (no_nan v -> StronglySorted le out) /\
  (all_finite v -> all_finite out).
Proof.
  intros H. destruct (filter_outliers_sub v out H) as (lo & hi & ->).
  split; [|split; [|split]].
  - intros x Hx. apply filter_In in Hx. apply sort_in. tauto.
  - unfold Dbl.size. rewrite <- (sort_length v).
    pose proof (filter_length_le (in_fences lo hi) (sort v)). lia.
  - intros Hn. apply filter_sorted, sort_sorted. assumption.
  - intros Hf. apply sort_all_finite in Hf. unfold all_finite in *.
    rewrite Forall_forall in *. intros x Hx. apply Hf.
    apply filter_In in Hx. tauto.
Qed.

Local Open Scope Z_scope.

Lemma scaled_finite_nonzero s m e :
  valid_binary (S754_finite s m e) = true -> scaled (S754_finite s m e) <> 0.
Proof.
  intros V. destruct (valid_canon _ _ _ V) as [C _].
  pose proof (canon_bounds _ _ C) as (L & _).
  pose proof (pow2_pos (e + 1074) ltac:(lia)).
  unfold scaled, cond_Zopp. destruct s; nia.
Qed.

Lemma finite_nonzero_SF x :
  is_finite x = true -> scaled (Prim2SF x) <> 0 ->
  exists s m e, Prim2SF x = S754_finite s m e.
Proof.
  rewrite is_finite_SF. destruct (Prim2SF x) as [?|?| |s m e]; try discriminate.
  - simpl. congruence.
  - eauto.
Qed.

Section ConstantSum.

Variable c : float.
Variables (sc : bool) (mc : positive) (ec : Z).
Hypothesis Hc : Prim2SF c = S754_finite sc mc ec.

Local Abbreviation vc := (scaled (Prim2SF c)).

Lemma vc_nonzero : vc <> 0.
Proof.
  unfold vc. rewrite Hc. apply scaled_finite_nonzero. rewrite <- Hc. apply Prim2SF_valid.
Qed.

Local Abbreviation is_partial_sum := (is_partial_sum c).

Lemma add_const_exact j a :
  0 <= j -> is_partial_sum j a -> representable ((j + 1) * vc) ->
  is_partial_sum (j + 1) (a + c)%float.
Proof.
  intros Hj (Fa & Va & Za) (s & Fs & Vs).
  pose proof vc_nonzero as NZ.
  destruct (Z.eq_dec j 0) as [->|Hj0].
  - rewrite (Za eq_refl).
    assert (E : (0 + c)%float = c).
    { apply Prim2SF_inj. rewrite add_spec, Hc. reflexivity. }
    rewrite E. repeat split.
    + rewrite is_finite_SF, Hc. reflexivity.
    + fold vc. lia.
    + lia.
  - destruct (finite_nonzero_SF a Fa) as (sa & ma & ea & Ea); [rewrite Va; nia|].
    destruct (finite_nonzero_SF s Fs) as (ss & ms & es & Es); [rewrite Vs; nia|].
    assert (E : (a + c)%float = s).
    { apply Prim2SF_inj. rewrite add_spec, Ea, Hc, Es.
      apply SFadd_exact.
      - rewrite <- Ea. apply Prim2SF_valid.
      - rewrite <- Hc. apply Prim2SF_valid.
      - rewrite <- Es. apply Prim2SF_valid.
      - rewrite <- Es, <- Ea, <- Hc, Vs, Va. fold vc. ring. }
    rewrite E. repeat split; auto. lia.
Qed.

Lemma sum_const_exact n :
  (forall k, 1 <= k <= Z.of_nat n -> representable (k * vc)) ->
  forall k j a, 0 <= j -> j + Z.of_nat k <= Z.of_nat n ->
    is_partial_sum j a ->
    is_partial_sum (j + Z.of_nat k) (fold_left (fun s x => (s + x)%float) (repeat c k) a).
Proof.
  intros Hrep. induction k as [|k IH]; intros j a Hj Hk Ha.
  - simpl. rewrite Z.add_0_r. assumption.
  - simpl repeat. simpl fold_left.
    replace (j + Z.of_nat (S k)) with ((j + 1) + Z.of_nat k) by lia.
    apply IH; try lia.
    apply add_const_exact; auto. apply Hrep. lia.
Qed.

(** The mean of a constant sequence whose partial sums are representable
    is the constant. *)
Lemma mean_const_exact n :
  (0 < n)%nat -> Z.of_nat n < 2 ^ 53 ->
  (forall k, 1 <= k <= Z.of_nat n -> representable (k * vc)) ->
  mean (repeat c n) = c.
Proof.
  intros Hn Hb Hrep. unfold mean, sum, Dbl.size. rewrite repeat_length.
  pose proof (sum_const_exact n Hrep n 0 0%float ltac:(lia) ltac:(lia)) as H.
  destruct H as (Fs & Vs & _); [repeat split; reflexivity|].
  simpl (0 + Z.of_nat n) in Vs.
  set (S := fold_left (fun s x => (s + x)%float) (repeat c n) 0%float) in *.
  pose proof vc_nonzero as NZ.
  destruct (finite_nonzero_SF S Fs) as (ss & m1 & e1 & E1); [rewrite Vs; nia|].
  destruct (normalize_exact (Z.of_nat n) ltac:(lia)) as (mn & en & En & Cn & Hen & Hmn).
  pose proof (Prim2SF_valid S) as V1. rewrite E1 in V1.
  pose proof (Prim2SF_valid c) as Vc. rewrite Hc in Vc.
  destruct (valid_canon _ _ _ V1) as [C1 _]. pose proof (canon_bounds _ _ C1) as (L1 & _).
  destruct (valid_canon _ _ _ Vc) as [Cc _]. pose proof (canon_bounds _ _ Cc) as (Lc & _).
  pose proof (canon_bounds _ _ Cn) as (Ln & _).
  pose proof (pow2_pos (e1 + 1074) ltac:(lia)) as P1.
  pose proof (pow2_pos (ec + 1074) ltac:(lia)) as Pc.
  assert (Hvn : Zpos mn * 2 ^ (en + 1074) = Z.of_nat n * 2 ^ 1074).
  { rewrite Hmn. replace 1074 with ((- en) + (en + 1074)) at 2 by lia.
    rewrite (pow2_split (- en) (en + 1074)) by lia. ring. }
  rewrite E1 in Vs. unfold vc in Vs. rewrite Hc in Vs. unfold scaled, cond_Zopp in Vs.
  assert (Hsign : ss = sc) by (destruct ss, sc; auto; nia).
  subst ss.
  apply Prim2SF_inj. rewrite div_spec, E1, of_Z_SF, En, Hc.
  apply SFdiv_exact; auto.
  - rewrite <- En. apply binary_normalize_valid.
  - rewrite Hvn. destruct sc; nia.
Qed.

End ConstantSum.

(** Constant sequences of a zero. *)
Lemma zero_cases c s : Prim2SF c = S754_zero s -> c = 0%float \/ c = (-0)%float.
Proof.
  intros H. destruct s; [right|left]; apply Prim2SF_inj; rewrite H; reflexivity.
Qed.

Lemma fold_const_zero (f : float -> float -> float) c n :
  f 0%float c = 0%float -> fold_left f (repeat c n) 0%float = 0%float.
Proof.
  intros H. induction n as [|n IH]; [reflexivity|]. simpl. rewrite H. exact IH.
Qed.

Lemma stddev_zero_sum v avg :
  v <> [] -> Z.of_nat (List.length v) <= 2 ^ 64 ->
  sum_sq v avg = 0%float -> stddev v avg = 0%float.
Proof.
  intros Hne Hb H. unfold stddev. rewrite H.
  assert (0 < Dbl.size v).
  { destruct v; [congruence|]. unfold Dbl.size. simpl List.length. lia. }
  destruct (of_Z_pos_finite (Dbl.size v)) as (m & e & E); [unfold Dbl.size in *; lia|].
  rewrite (zero_div_pos _ m e E). reflexivity.
Qed.

Lemma repeat_nonempty {A} (x : A) n : (0 < n)%nat -> repeat x n <> [].
Proof. destruct n; [lia|discriminate]. Qed.

(** Mean and deviation of a constant sequence whose partial sums are
    representable. *)
Lemma constant_exact c n :
  is_finite c = true -> (0 < n)%nat -> Z.of_nat n < 2 ^ 53 ->
  (forall k : nat, (1 <= k <= n)%nat ->
     representable (Z.of_nat k * scaled (Prim2SF c))) ->
  (mean (repeat c n) =? c)%float = true /\
  stddev (repeat c n) (mean (repeat c n)) = 0%float.
Proof.
  intros Hf Hn Hb Hrep.
  pose proof (repeat_nonempty c n Hn) as Hne.
  assert (Hlen : Z.of_nat (List.length (repeat c n)) <= 2 ^ 64)
    by (rewrite repeat_length; lia).
  pose proof Hf as Hf'. rewrite is_finite_SF in Hf'.
  destruct (Prim2SF c) as [s|?| |sc mc ec] eqn:Ec; try discriminate.
  - (* the constant is a zero, and so are all sums *)
    assert (Hm : mean (repeat c n) = 0%float).
    { unfold mean, sum.
      rewrite fold_const_zero
        by (destruct (zero_cases c s Ec) as [-> | ->]; reflexivity).
      destruct (of_Z_pos_finite (Dbl.size (repeat c n))) as (m & e & E).
      { unfold Dbl.size. rewrite repeat_length. lia. }
      apply (zero_div_pos _ m e E). }
    rewrite Hm. split.
    + destruct (zero_cases c s Ec) as [-> | ->]; reflexivity.
    + apply stddev_zero_sum; auto. unfold sum_sq.
      apply fold_const_zero. destruct (zero_cases c s Ec) as [-> | ->]; reflexivity.
  - assert (Hm : mean (repeat c n) = c).
    { apply (mean_const_exact c sc mc ec Ec n Hn Hb).
      intros k Hk. rewrite <- (Z2Nat.id k) by lia. rewrite Ec. apply Hrep. lia. }
    rewrite Hm. split.
    + rewrite FloatAxioms.eqb_spec, SFeqb_refl, Ec. reflexivity.
    + apply stddev_zero_sum; auto. unfold sum_sq. apply sum_sq_const; auto.
Qed.

Local Close Scope Z_scope.

End StatsFacts.

(** * The runner *)

Module RunFacts.

Import B64 B64Facts DblFacts Benchmark Spec StatsFacts.

Section Facts.

Variable World : Type.
Variable time_point : Type.
Variable now : World -> time_point * World.
Variable ms_between : time_point -> time_point -> float.
Variable func : World -> World.

Local Abbreviation timed_loop := (timed_loop World time_point now ms_between func).
Local Abbreviation overhead_loop := (overhead_loop World time_point now ms_between).
Local Abbreviation measure_overhead := (measure_overhead World time_point now ms_between).
Local Abbreviation run := (run World time_point now ms_between func).
Local Abbreviation raws := (timed_raws now ms_between func).

Lemma timed_loop_spec i bs oh acc w :
  fst (timed_loop i bs oh acc w) =
  acc ++ map (fun raw => clamp (raw - oh)%float) (raws i bs w).
Proof.
  revert acc w. induction i as [|i IH]; intros acc w; simpl.
  - rewrite app_nil_r. reflexivity.
  - destruct (now w) as [start w1].
    destruct (now (batch World func bs w1)) as [end_ w3].
    rewrite IH, <- app_assoc. reflexivity.
Qed.

Lemma raws_length i bs w : List.length (raws i bs w) = i.
Proof.
  revert w. induction i as [|i IH]; intros w; simpl; [reflexivity|].
  destruct (now w) as [start w1].
  destruct (now (batch World func bs w1)) as [end_ w3].
  simpl. rewrite IH. reflexivity.
Qed.

Lemma run_samples b w :
  samples (fst (run b w)) =
  map (fun raw => clamp (raw - fst (measure_overhead b
                                      (warmup_loop World func (warmup b) (batch_size b) w)))%float)
      (raws (iterations b) (batch_size b)
         (snd (measure_overhead b (warmup_loop World func (warmup b) (batch_size b) w)))).
Proof.
  unfold run.
  destruct (measure_overhead b _) as [oh w2]. simpl fst. simpl snd.
  pose proof (timed_loop_spec (iterations b) (batch_size b) oh [] w2) as H.
  destruct (timed_loop _ _ _ _ _) as [s w3]. simpl in *. exact H.
Qed.

Hypothesis ms_finite : forall s e, is_finite (ms_between s e) = true.

Lemma raws_finite i bs w : all_finite (raws i bs w).
Proof.
  revert w. induction i as [|i IH]; intros w; simpl; [constructor|].
  destruct (now w) as [start w1].
  destruct (now (batch World func bs w1)) as [end_ w3].
  constructor; [apply ms_finite|apply IH].
Qed.

Lemma overhead_loop_notnan i total w :
  is_nan total = false -> is_nan (fst (overhead_loop i total w)) = false.
Proof.
  revert total w. induction i as [|i IH]; intros total w H; simpl; [assumption|].
  destruct (now w) as [s w1]. destruct (now w1) as [e w2].
  apply IH. apply add_notnan; [assumption|apply ms_finite].
Qed.

(** The calibrated overhead is never a NaN when at least one iteration is
    asked for. *)
Lemma measure_overhead_notnan b w :
  (0 < iterations b)%nat -> (Z.of_nat (iterations b) <= 2 ^ 64)%Z ->
  is_nan (fst (measure_overhead b w)) = false.
Proof.
  intros Hpos Hb. unfold Benchmark.measure_overhead.
  pose proof (overhead_loop_notnan (iterations b) 0%float w eq_refl) as H.
  destruct (overhead_loop _ _ _) as [total w']. simpl in *.
  destruct (of_Z_pos_finite (Z.of_nat (iterations b)) ltac:(lia)) as (m & e & E).
  eapply div_notnan; eassumption.
Qed.

Lemma run_samples_nonneg b w :
  (Z.of_nat (iterations b) <= 2 ^ 64)%Z ->
  Forall (fun x => (0 <=? x)%float = true) (samples (fst (run b w))).
Proof.
  intros Hb. rewrite run_samples.
  destruct (iterations b) as [|n] eqn:En; [constructor|].
  rewrite <- En.
  set (w1 := warmup_loop World func (warmup b) (batch_size b) w).
  pose proof (measure_overhead_notnan b w1 ltac:(lia) ltac:(lia)) as Hoh.
  pose proof (raws_finite (iterations b) (batch_size b) (snd (measure_overhead b w1))) as Hr.
  apply Forall_map. eapply Forall_impl; [|exact Hr].
  intros raw Hraw. apply clamp_nonneg. apply sub_notnan; assumption.
Qed.

End Facts.

End RunFacts.

(** * Reports *)

Module ReportFacts.

Import B64 B64Facts DblFacts Benchmark Spec StatsFacts.

Lemma append_assoc (a b c : string) :
  ((a ++ b) ++ c)%string = (a ++ (b ++ c))%string.
Proof. induction a as [|ch a IH]; simpl; [reflexivity|]. rewrite IH. reflexivity. Qed.

Lemma min_element_defined v : v <> [] -> exists x, min_element v = Some x.
Proof. destruct v; [congruence|]. simpl. eauto. Qed.

Lemma max_element_defined v : v <> [] -> exists x, max_element v = Some x.
Proof. destruct v; [congruence|]. simpl. eauto. Qed.

Lemma contents_write fs path text :
  contents (write_file fs path text) path = Some text.
Proof. simpl. rewrite String.eqb_refl. reflexivity. Qed.

Lemma can_open_write fs path text q :
  can_open (write_file fs path text) q = can_open fs q.
Proof. reflexivity. Qed.

(** [exists] throws exactly on the paths whose status cannot be read, and
    these cannot be opened. *)
Lemma exists_throws fs path :
  exists_ fs path = Throws filesystem_error <-> access fs path = NoStatus.
Proof. unfold exists_. destruct (access fs path); split; congruence. Qed.

Lemma exists_throws_unopenable fs path :
  exists_ fs path = Throws filesystem_error -> can_open fs path = false.
Proof. intros H. apply exists_throws in H. unfold can_open. rewrite H. reflexivity. Qed.

Lemma exists_returns fs path :
  exists_ fs path <> Throws filesystem_error ->
  exists_ fs path = Returns match contents fs path with
                            | Some _ => true
                            | None => false
                            end.
Proof. unfold exists_. destruct (access fs path); congruence. Qed.

Lemma can_open_exists fs path :
  can_open fs path = true -> exists_ fs path <> Throws filesystem_error.
Proof.
  intros H E. apply exists_throws_unopenable in E. congruence.
Qed.

(** The statistics of a non-empty vector of finite samples are defined. *)
Lemma report_defined b :
  samples b <> [] -> all_finite (samples b) -> (Dbl.size (samples b) <= 2 ^ 53)%Z ->
  exists clean r,
    filter_outliers (samples b) = Some clean /\ clean <> [] /\
    report_of b clean = Some r.
Proof.
  intros Hne Hf Hsz.
  destruct (filter_outliers_nonempty _ Hf Hne Hsz) as (clean & E & Hc).
  destruct (filter_outliers_props _ _ E) as (_ & Hs & _ & _).
  assert (Hsz' : (Dbl.size clean <= 2 ^ 53)%Z) by lia.
  destruct (min_element_defined clean Hc) as (mn & Emn).
  destruct (max_element_defined clean Hc) as (mx & Emx).
  destruct (percentile_defined clean 0.50%float Hc Hsz' eq_refl eq_refl)
    as (? & p50 & _ & _ & _ & _ & E50).
  destruct (percentile_defined clean 0.90%float Hc Hsz' eq_refl eq_refl)
    as (? & p90 & _ & _ & _ & _ & E90).
  destruct (percentile_defined clean 0.95%float Hc Hsz' eq_refl eq_refl)
    as (? & p95 & _ & _ & _ & _ & E95).
  destruct (percentile_defined clean 0.99%float Hc Hsz' eq_refl eq_refl)
    as (? & p99 & _ & _ & _ & _ & E99).
  exists clean. unfold report_of. rewrite Emn, Emx, E50, E90, E95, E99. simpl.
  eexists. repeat split; eauto.
Qed.

Section Text.

Variable fmt_double : nat -> float -> string.
Variable fmt_size : nat -> string.

Local Open Scope string_scope.

Local Abbreviation console_text := (console_text fmt_double fmt_size).
Local Abbreviation csv_text := (csv_text fmt_double fmt_size).

Lemma print_stats_report b cout clean r :
  samples b <> [] -> filter_outliers (samples b) = Some clean ->
  report_of b clean = Some r ->
  print_stats fmt_double fmt_size b cout = Some (b, cout ++ console_text r).
Proof.
  intros Hne E R. unfold print_stats.
  destruct (samples b) as [|x l] eqn:Es; [congruence|]. rewrite <- Es in *.
  rewrite E. cbn [bind]. unfold report_of in R.
  destruct (min_element clean) as [mn|]; [|discriminate]. cbn [bind] in *.
  destruct (max_element clean) as [mx|]; [|discriminate]. cbn [bind] in *.
  destruct (percentile clean 0.50) as [p50|]; [|discriminate]. cbn [bind] in *.
  destruct (percentile clean 0.90) as [p90|]; [|discriminate]. cbn [bind] in *.
  destruct (percentile clean 0.95) as [p95|]; [|discriminate]. cbn [bind] in *.
  destruct (percentile clean 0.99) as [p99|]; [|discriminate]. cbn [bind] in *.
  inversion R; subst r; clear R. unfold console_text. cbn [r_iterations r_batch_size
    r_samples_used r_min r_max r_mean r_stddev r_p50 r_p90 r_p95 r_p99 r_per_op_avg].
  rewrite !append_assoc. reflexivity.
Qed.

(** With the statistics defined, [export_csv] throws where [exists]
    throws, and otherwise returns, having written the file when the file
    opens. *)
Lemma export_csv_throws b path fs clean r :
  samples b <> [] -> filter_outliers (samples b) = Some clean ->
  report_of b clean = Some r ->
  exists_ fs path = Throws filesystem_error ->
  export_csv fmt_double fmt_size b path Append fs = Throws filesystem_error.
Proof.
  intros Hne E R Hx. unfold export_csv.
  destruct (samples b) as [|x l] eqn:Es; [congruence|]. rewrite <- Es in *.
  rewrite E. cbn [obind defined]. unfold report_of in R.
  destruct (min_element clean) as [mn|]; [|discriminate]. cbn [bind obind defined] in *.
  destruct (max_element clean) as [mx|]; [|discriminate]. cbn [bind obind defined] in *.
  rewrite Hx. reflexivity.
Qed.

Lemma export_csv_report b path mode fs clean r :
  samples b <> [] -> filter_outliers (samples b) = Some clean ->
  report_of b clean = Some r ->
  (mode = Append -> exists_ fs path <> Throws filesystem_error) ->
  export_csv fmt_double fmt_size b path mode fs =
  Returns (b, if can_open fs path
              then write_file fs path (csv_prefix mode fs path ++ csv_text r)
              else fs).
Proof.
  intros Hne E R Hx. unfold export_csv.
  destruct (samples b) as [|x l] eqn:Es; [congruence|]. rewrite <- Es in *.
  rewrite E. cbn [obind defined]. unfold report_of in R.
  destruct (min_element clean) as [mn|]; [|discriminate]. cbn [bind obind defined] in *.
  destruct (max_element clean) as [mx|]; [|discriminate]. cbn [bind obind defined] in *.
  assert (Hh : match mode with
               | Append => exists_ fs path
               | Truncate => Returns false
               end =
               Returns match mode with
                       | Append => match contents fs path with
                                   | Some _ => true
                                   | None => false
                                   end
                       | Truncate => false
                       end).
  { destruct mode; [reflexivity|]. apply exists_returns. apply Hx. reflexivity. }
  rewrite Hh. cbn [obind].
  destruct (can_open fs path); simpl negb; cbv iota; [|reflexivity].
  unfold csv_row.
  destruct (percentile clean 0.50) as [p50|]; [|discriminate]. cbn [bind obind defined] in *.
  destruct (percentile clean 0.90) as [p90|]; [|discriminate]. cbn [bind obind defined] in *.
  destruct (percentile clean 0.95) as [p95|]; [|discriminate]. cbn [bind obind defined] in *.
  destruct (percentile clean 0.99) as [p99|]; [|discriminate]. cbn [bind obind defined] in *.
  inversion R; subst r; clear R. unfold csv_text. cbn [r_iterations r_batch_size
    r_samples_used r_min r_max r_mean r_stddev r_p50 r_p90 r_p95 r_p99 r_per_op_avg].
  do 3 f_equal. f_equal.
  unfold csv_prefix.
  destruct mode; [reflexivity|]. destruct (contents fs path); reflexivity.
Qed.

Lemma export_csv_open b path mode fs clean r :
  samples b <> [] -> filter_outliers (samples b) = Some clean ->
  report_of b clean = Some r -> can_open fs path = true ->
  export_csv fmt_double fmt_size b path mode fs =
  Returns (b, write_file fs path (csv_prefix mode fs path ++ csv_text r)).
Proof.
  intros Hne E R Ho.
  rewrite (export_csv_report b path mode fs clean r Hne E R).
  - rewrite Ho. reflexivity.
  - intros _. apply can_open_exists. assumption.
Qed.

End Text.

End ReportFacts.

(** * Properties of the benchmark harness *)

Import B64 B64Facts DblFacts Benchmark Spec StatsFacts RunFacts ReportFacts.

Lemma demo_ms_finite s e : is_finite (demo_ms s e) = true.
Proof. unfold demo_ms. destruct (e - s <=? 1)%nat; reflexivity. Qed.

Lemma demo_samples_finite : all_finite demo_samples.
Proof. repeat constructor. Qed.

(** C1: after [run] the sample vector holds exactly [iterations] samples,
    whatever it held before: the previous contents never reach the result,
    and a second run again leaves exactly [iterations] samples. *)
Theorem run_sample_count (World time_point : Type)
    (now : World -> time_point * World)
    (ms_between : time_point -> time_point -> float)
    (func : World -> World) (b : t) (prior : list float) (w w' : World) :
  let run := run World time_point now ms_between func in
  List.length (samples (fst (run b w))) = iterations b /\
  run (set_samples b prior) w = run b w /\
  iterations (fst (run b w)) = iterations b /\
  List.length (samples (fst (run (fst (run b w)) w'))) = iterations b.
Proof.
  cbv zeta.
  assert (L : forall b0 w0,
    List.length (samples (fst (run World time_point now ms_between func b0 w0)))
    = iterations b0).
  { intros b0 w0. rewrite run_samples, length_map, raws_length. reflexivity. }
  assert (I : forall b0 w0,
    iterations (fst (run World time_point now ms_between func b0 w0)) = iterations b0).
  { intros b0 w0. unfold run.
    destruct (measure_overhead _ _ _ _ _ _) as [oh w2].
    destruct (timed_loop _ _ _ _ _ _ _ _ _ _) as [s0 w3]. reflexivity. }
  split; [apply L|]. split; [reflexivity|]. split; [apply I|].
  rewrite L. apply I.
Qed.

(** [floor_double] on a few doubles. *)
Example floor_double_examples :
  floor_double 3.75%float = 3%Z /\ floor_double 0.5%float = 0%Z /\
  floor_double 2%float = 2%Z /\ floor_double (0.75 * 5)%float = 3%Z.
Proof. repeat split; vm_compute; reflexivity. Qed.

(** C2: for [p] in [[0,1]] and a non-empty vector [v] of [N] doubles,
    [percentile] returns the element of the ascending sort of [v] at index
    [floor (p * (N - 1))], the product being the rounded product of doubles
    that the source computes; the element is one of the input.  On
    [[1,2,3,4,5]] it returns 3, 1 and 5 at [p] = 0.5, 0 and 1.  The vector
    holds no NaN, which [std::sort] requires of [operator<], and at most
    [2^53] elements, so that [N - 1] converts to a double exactly. *)
Theorem percentile_nearest_rank (v : list float) (p : float) :
  v <> [] -> no_nan v -> (Dbl.size v <= 2 ^ 53)%Z ->
  (0 <=? p)%float = true -> (p <=? 1)%float = true ->
  (exists idx x,
     idx = floor_double (p * Dbl.of_Z (Dbl.size v - 1))%float /\
     (0 <= idx <= Dbl.size v - 1)%Z /\
     StronglySorted le (sort v) /\ Permutation (sort v) v /\
     nth_error (sort v) (Z.to_nat idx) = Some x /\
     percentile v p = Some x /\ In x v) /\
  percentile [1; 2; 3; 4; 5]%float 0.5%float = Some 3%float /\
  percentile [1; 2; 3; 4; 5]%float 0%float = Some 1%float /\
  percentile [1; 2; 3; 4; 5]%float 1%float = Some 5%float.
Proof.
  intros Hne Hn Hsz H0 H1. split; [|repeat split; reflexivity].
  destruct (percentile_defined v p Hne Hsz H0 H1) as (idx & x & _ & R & E & N & P).
  exists idx, x. repeat split; auto; try lia.
  - apply sort_sorted; assumption.
  - apply sort_perm.
  - eapply percentile_in; eassumption.
Qed.

Lemma percentile_nearest_rank_witness :
  (exists idx x,
     idx = floor_double (0.5 * Dbl.of_Z (Dbl.size demo_samples - 1))%float /\
     (0 <= idx <= Dbl.size demo_samples - 1)%Z /\
     StronglySorted le (sort demo_samples) /\
     Permutation (sort demo_samples) demo_samples /\
     nth_error (sort demo_samples) (Z.to_nat idx) = Some x /\
     percentile demo_samples 0.5%float = Some x /\ In x demo_samples) /\
  percentile [1; 2; 3; 4; 5]%float 0.5%float = Some 3%float /\
  percentile [1; 2; 3; 4; 5]%float 0%float = Some 1%float /\
  percentile [1; 2; 3; 4; 5]%float 1%float = Some 5%float.
Proof.
  apply (percentile_nearest_rank demo_samples 0.5%float).
  - discriminate.
  - repeat constructor.
  - vm_compute. discriminate.
  - reflexivity.
  - reflexivity.
Defined.

(** C3: on a non-empty vector without NaN (and of at most [2^53]
    elements), [filter_outliers] sorts ascending, takes the quartiles [q1]
    and [q3] of the sorted vector by [percentile] at 0.25 and 0.75, and
    keeps exactly the values within
    [[q1 - 1.5 * iqr, q3 + 1.5 * iqr]], both ends included, in sorted
    order and each as often as it occurs in the input. *)
Theorem filter_outliers_tukey (v : list float) :
  v <> [] -> no_nan v -> (Dbl.size v <= 2 ^ 53)%Z ->
  exists q1 q3 out,
    percentile (sort v) 0.25%float = Some q1 /\
    percentile (sort v) 0.75%float = Some q3 /\
    filter_outliers v = Some out /\
    let iqr := (q3 - q1)%float in
    let lo := (q1 - 1.5 * iqr)%float in
    let hi := (q3 + 1.5 * iqr)%float in
    out = filter (fun x => (lo <=? x)%float && (x <=? hi)%float) (sort v) /\
    (forall x, In x out <->
               In x v /\ (lo <=? x)%float = true /\ (x <=? hi)%float = true) /\
    StronglySorted le out /\
    (forall x, count x out =
               if (lo <=? x)%float && (x <=? hi)%float then count x v else 0%nat) /\
    (forall x, (count x out <= count x v)%nat).
Proof.
  intros Hne Hn Hsz.
  destruct (filter_outliers_defined v Hne Hsz) as (q1 & q3 & P1 & P3 & E).
  exists q1, q3, (filter (in_fences (lower_fence q1 q3) (upper_fence q1 q3)) (sort v)).
  split; [assumption|]. split; [assumption|]. split; [assumption|].
  cbv zeta. fold (lower_fence q1 q3) (upper_fence q1 q3).
  set (lo := lower_fence q1 q3). set (hi := upper_fence q1 q3).
  change (fun x => (lo <=? x)%float && (x <=? hi)%float) with (in_fences lo hi).
  assert (C : forall x, count x (filter (in_fences lo hi) (sort v)) =
                        if in_fences lo hi x then count x v else 0%nat).
  { intros x. rewrite count_filter, (count_perm x _ _ (sort_perm v)). reflexivity. }
  split; [reflexivity|]. split; [|split; [|split]].
  - intros x. rewrite filter_In, sort_in. unfold in_fences.
    rewrite andb_true_iff. tauto.
  - apply filter_sorted, sort_sorted. assumption.
  - exact C.
  - intros x. rewrite C. destruct (in_fences lo hi x); lia.
Qed.

Lemma filter_outliers_tukey_witness :
  exists q1 q3 out,
    percentile (sort demo_samples) 0.25%float = Some q1 /\
    percentile (sort demo_samples) 0.75%float = Some q3 /\
    filter_outliers demo_samples = Some out /\
    let iqr := (q3 - q1)%float in
    let lo := (q1 - 1.5 * iqr)%float in
    let hi := (q3 + 1.5 * iqr)%float in
    out = filter (fun x => (lo <=? x)%float && (x <=? hi)%float) (sort demo_samples) /\
    (forall x, In x out <->
               In x demo_samples /\ (lo <=? x)%float = true /\ (x <=? hi)%float = true) /\
    StronglySorted le out /\
    (forall x, count x out =
               if (lo <=? x)%float && (x <=? hi)%float
               then count x demo_samples else 0%nat) /\
    (forall x, (count x out <= count x demo_samples)%nat).
Proof.
  apply (filter_outliers_tukey demo_samples).
  - discriminate.
  - repeat constructor.
  - vm_compute. discriminate.
Defined.

(** C4, as stated: on [[1,2,3,4,5,100]] the quartiles would be 2 and 4.5.
    The upper quartile is 4: nearest rank takes index
    [floor (0.75 * 5) = 3] of the sorted vector. *)
Lemma tukey_example_q3_is_not_4_5 :
  ~ (percentile [1; 2; 3; 4; 5; 100]%float 0.25%float = Some 2%float /\
     percentile [1; 2; 3; 4; 5; 100]%float 0.75%float = Some 4.5%float /\
     filter_outliers [1; 2; 3; 4; 5; 100]%float = Some [1; 2; 3; 4; 5]%float).
Proof.
  intros (_ & H & _). vm_compute in H.
  assert (E : Leibniz.eqb 4%float 4.5%float = true).
  { apply FloatAxioms.Leibniz.eqb_spec. congruence. }
  vm_compute in E. discriminate E.
Qed.

(** C4, amended: on [[1,2,3,4,5,100]] the quartiles are 2 and 4, the
    fences are -1 and 7, and [filter_outliers] removes 100 and nothing
    else. *)
Theorem tukey_example :
  let v := [1; 2; 3; 4; 5; 100]%float in
  percentile v 0.25%float = Some 2%float /\
  percentile v 0.75%float = Some 4%float /\
  lower_fence 2 4 = (-1)%float /\
  upper_fence 2 4 = 7%float /\
  (7 <? 100)%float = true /\
  filter_outliers v = Some [1; 2; 3; 4; 5]%float.
Proof. repeat split; reflexivity. Qed.

(** [clamp] is the larger of zero and its argument. *)
Lemma clamp_max c : is_nan c = false ->
  (0 <=? clamp c)%float = true /\ (c <=? clamp c)%float = true /\
  (clamp c = 0%float \/ clamp c = c).
Proof.
  intros H. split; [apply clamp_nonneg; assumption|].
  unfold clamp. destruct (c <? 0)%float eqn:E.
  - split; [apply ltb_true_leb; assumption|left; reflexivity].
  - split; [apply leb_refl; assumption|right; reflexivity].
Qed.

(** C5: every sample stored by [run] is [max(0, raw - overhead)] for the
    raw duration of its batch and the overhead calibrated by
    [measure_overhead], so no sample is negative.  The clock reports finite
    durations, and [iterations] is a [size_t]. *)
Theorem run_samples_clamped (World time_point : Type)
    (now : World -> time_point * World)
    (ms_between : time_point -> time_point -> float)
    (func : World -> World) (b : t) (w : World) :
  (forall s e, is_finite (ms_between s e) = true) ->
  (Z.of_nat (iterations b) <= 2 ^ 64)%Z ->
  let calibrated :=
    measure_overhead World time_point now ms_between b
      (warmup_loop World func (warmup b) (batch_size b) w) in
  let overhead := fst calibrated in
  let raws := timed_raws now ms_between func (iterations b) (batch_size b)
                (snd calibrated) in
  samples (fst (run World time_point now ms_between func b w)) =
    map (fun raw => clamp (raw - overhead)%float) raws /\
  Forall (fun raw =>
            (0 <=? clamp (raw - overhead))%float = true /\
            (raw - overhead <=? clamp (raw - overhead))%float = true /\
            (clamp (raw - overhead) = 0%float \/
             clamp (raw - overhead) = (raw - overhead)%float)) raws /\
  Forall (fun x => (0 <=? x)%float = true)
    (samples (fst (run World time_point now ms_between func b w))).
Proof.
  intros Hfin Hb. cbv zeta. split; [apply run_samples|]. split.
  - destruct (iterations b) as [|n] eqn:En; [constructor|]. rewrite <- En.
    set (w1 := warmup_loop World func (warmup b) (batch_size b) w).
    pose proof (measure_overhead_notnan World time_point now ms_between Hfin
                  b w1 ltac:(lia) ltac:(lia)) as Hoh.
    pose proof (raws_finite World time_point now ms_between func Hfin
                  (iterations b) (batch_size b)
                  (snd (measure_overhead World time_point now ms_between b w1))) as Hr.
    eapply Forall_impl; [|exact Hr]. intros raw Hraw.
    apply clamp_max. apply sub_notnan; assumption.
  - apply run_samples_nonneg; assumption.
Qed.

Lemma run_samples_clamped_witness :
  Forall (fun x => (0 <=? x)%float = true)
    (samples (fst (run nat nat demo_now demo_ms S (make 3) 0%nat))).
Proof.
  apply (run_samples_clamped nat nat demo_now demo_ms S (make 3) 0%nat).
  - exact demo_ms_finite.
  - vm_compute. discriminate.
Defined.

(** C6, as stated: the mean of a constant sequence would be its constant
    and the deviation zero.  Three times 0.1 sums to 0.30000000000000004,
    so the mean is 0.10000000000000002 and the deviation is not zero. *)
Lemma constant_mean_is_rounded :
  let v := [0.1; 0.1; 0.1]%float in
  ~ ((mean v =? 0.1)%float = true /\ (stddev v (mean v) =? 0)%float = true).
Proof. cbv zeta. intros [H _]. vm_compute in H. discriminate H. Qed.

(** C6, amended: [stddev] divides the summed squared deviations by [N]
    (population, not sample: on [[1,3]] around 2 it is 1).  For a constant
    sequence of [n >= 1] copies of a finite [c], [stddev] returns 0 when it
    is given [c] as the mean.  [mean] returns [c], and so [stddev] of the
    computed mean returns 0, when the partial sums [c], [2c], ..., [nc] are
    all doubles, so that no addition rounds.  Otherwise [mean] need not
    return [c]: three times 0.1 has a mean other than 0.1, and twice 1e308
    overflows to a mean of infinity. *)
Theorem stddev_population_constant (c : float) (n : nat) :
  is_finite c = true -> (0 < n)%nat -> (Z.of_nat n < 2 ^ 64)%Z ->
  (forall v avg,
     stddev v avg =
     sqrt (fold_left (fun s x => s + (x - avg) * (x - avg)) v 0
           / Dbl.of_Z (Z.of_nat (List.length v)))%float) /\
  stddev [1; 3]%float 2%float = 1%float /\
  stddev (repeat c n) c = 0%float /\
  ((Z.of_nat n < 2 ^ 53)%Z ->
   (forall k : nat, (1 <= k <= n)%nat ->
      representable (Z.of_nat k * scaled (Prim2SF c))) ->
   (mean (repeat c n) =? c)%float = true /\
   stddev (repeat c n) (mean (repeat c n)) = 0%float) /\
  (mean (repeat 0.1 3) =? 0.1)%float = false /\
  mean (repeat 1e308 2)%float = infinity.
Proof.
  intros Hc Hn Hb. split; [reflexivity|]. split; [reflexivity|].
  split; [|split; [|split; reflexivity]].
  - apply stddev_zero_sum.
    + apply repeat_nonempty; assumption.
    + rewrite repeat_length. lia.
    + unfold sum_sq. apply sum_sq_const; auto.
  - intros Hb' Hrep. apply constant_exact; assumption.
Qed.

Lemma stddev_population_constant_witness :
  (stddev (repeat 2%float 3) 2%float = 0%float /\
   (mean (repeat 2%float 3) =? 2)%float = true /\
   stddev (repeat 2%float 3) (mean (repeat 2%float 3)) = 0%float) /\
  stddev (repeat 0.1%float 3) 0.1%float = 0%float.
Proof.
  assert (R : forall k : nat, (1 <= k <= 3)%nat ->
                representable (Z.of_nat k * scaled (Prim2SF 2%float))).
  { intros k Hk. destruct k as [|[|[|[|k]]]]; try lia.
    - exists 2%float. split; [reflexivity|vm_compute; reflexivity].
    - exists 4%float. split; [reflexivity|vm_compute; reflexivity].
    - exists 6%float. split; [reflexivity|vm_compute; reflexivity]. }
  split.
  - destruct (stddev_population_constant 2%float 3 eq_refl ltac:(lia)
                ltac:(vm_compute; reflexivity)) as (_ & _ & H1 & H2 & _).
    split; [exact H1|]. apply H2; [vm_compute; reflexivity|exact R].
  - apply (stddev_population_constant 0.1%float 3 eq_refl ltac:(lia)
             ltac:(vm_compute; reflexivity)).
Defined.

(** C7: with the file open, [export_csv] in [Truncate] mode leaves
    exactly the header and one data row whatever the file held, also when
    called twice; in [Append] mode it adds the data row to an existing
    file, and writes header and row to a file that did not exist, after
    which a second [Append] adds one more row and no header. *)
Theorem export_csv_truncate_append
    (fmt_double : nat -> float -> string) (fmt_size : nat -> string)
    (b : t) (path : string) (fs : FS) :
  samples b <> [] -> all_finite (samples b) ->
  (Dbl.size (samples b) <= 2 ^ 53)%Z ->
  can_open fs path = true ->
  exists clean r row,
    filter_outliers (samples b) = Some clean /\
    report_of b clean = Some r /\
    row = csv_text fmt_double fmt_size r /\
    (exists fs1 fs2,
       export_csv fmt_double fmt_size b path Truncate fs = Returns (b, fs1) /\
       contents fs1 path = Some (csv_header ++ row)%string /\
       export_csv fmt_double fmt_size b path Truncate fs1 = Returns (b, fs2) /\
       contents fs2 path = Some (csv_header ++ row)%string) /\
    (forall old, contents fs path = Some old ->
       exists fs1,
         export_csv fmt_double fmt_size b path Append fs = Returns (b, fs1) /\
         contents fs1 path = Some (old ++ row)%string) /\
    (contents fs path = None ->
       exists fs1 fs2,
         export_csv fmt_double fmt_size b path Append fs = Returns (b, fs1) /\
         contents fs1 path = Some (csv_header ++ row)%string /\
         export_csv fmt_double fmt_size b path Append fs1 = Returns (b, fs2) /\
         contents fs2 path = Some ((csv_header ++ row) ++ row)%string).
Proof.
  intros Hne Hf Hsz Hopen.
  destruct (report_defined b Hne Hf Hsz) as (clean & r & E & _ & R).
  exists clean, r, (csv_text fmt_double fmt_size r).
  split; [assumption|]. split; [assumption|]. split; [reflexivity|].
  pose proof (export_csv_open fmt_double fmt_size b path) as X.
  split; [|split].
  - eexists. eexists. split; [|split; [|split]].
    + apply (X Truncate fs clean r Hne E R Hopen).
    + apply contents_write.
    + apply (X Truncate _ clean r Hne E R). rewrite can_open_write. exact Hopen.
    + apply contents_write.
  - intros old Hold. eexists. split.
    + apply (X Append fs clean r Hne E R Hopen).
    + rewrite contents_write. unfold csv_prefix. rewrite Hold. reflexivity.
  - intros Hnone. eexists. eexists. split; [|split; [|split]].
    + apply (X Append fs clean r Hne E R Hopen).
    + rewrite contents_write. unfold csv_prefix. rewrite Hnone. reflexivity.
    + apply (X Append _ clean r Hne E R). rewrite can_open_write. exact Hopen.
    + rewrite contents_write. unfold csv_prefix at 1.
      rewrite contents_write. unfold csv_prefix. rewrite Hnone. reflexivity.
Qed.

Lemma export_csv_truncate_append_witness :
  exists clean r row,
    filter_outliers (samples demo_bench) = Some clean /\
    report_of demo_bench clean = Some r /\
    row = csv_text demo_fmt_double demo_fmt_size r /\
    (exists fs1 fs2,
       export_csv demo_fmt_double demo_fmt_size demo_bench "out.csv" Truncate demo_fs
         = Returns (demo_bench, fs1) /\
       contents fs1 "out.csv" = Some (csv_header ++ row)%string /\
       export_csv demo_fmt_double demo_fmt_size demo_bench "out.csv" Truncate fs1
         = Returns (demo_bench, fs2) /\
       contents fs2 "out.csv" = Some (csv_header ++ row)%string) /\
    (forall old, contents demo_fs "out.csv" = Some old ->
       exists fs1,
         export_csv demo_fmt_double demo_fmt_size demo_bench "out.csv" Append demo_fs
           = Returns (demo_bench, fs1) /\
         contents fs1 "out.csv" = Some (old ++ row)%string) /\
    (contents demo_fs "out.csv" = None ->
       exists fs1 fs2,
         export_csv demo_fmt_double demo_fmt_size demo_bench "out.csv" Append demo_fs
           = Returns (demo_bench, fs1) /\
         contents fs1 "out.csv" = Some (csv_header ++ row)%string /\
         export_csv demo_fmt_double demo_fmt_size demo_bench "out.csv" Append fs1
           = Returns (demo_bench, fs2) /\
         contents fs2 "out.csv" = Some ((csv_header ++ row) ++ row)%string).
Proof.
  apply (export_csv_truncate_append demo_fmt_double demo_fmt_size demo_bench
           "out.csv" demo_fs).
  - discriminate.
  - exact demo_samples_finite.
  - vm_compute. discriminate.
  - reflexivity.
Defined.




(** C9: both reports are the text of one [Report] whose every statistic
    is computed from the cleaned set returned by [filter_outliers], and
    both return the harness as they found it: sorting in [percentile] and
    [filter_outliers] works on their own copies. *)
Theorem reports_use_cleaned_set
    (fmt_double : nat -> float -> string) (fmt_size : nat -> string) (b : t) :
  samples b <> [] -> all_finite (samples b) ->
  (Dbl.size (samples b) <= 2 ^ 53)%Z ->
  exists clean mn mx p50 p90 p95 p99,
    filter_outliers (samples b) = Some clean /\
    min_element clean = Some mn /\ max_element clean = Some mx /\
    percentile clean 0.50%float = Some p50 /\
    percentile clean 0.90%float = Some p90 /\
    percentile clean 0.95%float = Some p95 /\
    percentile clean 0.99%float = Some p99 /\
    let r := {| r_iterations := iterations b;
                r_batch_size := batch_size b;
                r_samples_used := List.length clean;
                r_min := mn; r_max := mx;
                r_mean := mean clean;
                r_stddev := stddev clean (mean clean);
                r_p50 := p50; r_p90 := p90; r_p95 := p95; r_p99 := p99;
                r_per_op_avg :=
                  (mean clean / Dbl.of_Z (Z.of_nat (batch_size b)))%float |} in
    (forall cout,
       print_stats fmt_double fmt_size b cout =
       Some (b, (cout ++ console_text fmt_double fmt_size r)%string)) /\
    (forall path mode fs, can_open fs path = true ->
       export_csv fmt_double fmt_size b path mode fs =
       Returns (b, write_file fs path
                     (csv_prefix mode fs path ++ csv_text fmt_double fmt_size r)%string)) /\
    (forall path mode fs b' fs',
       export_csv fmt_double fmt_size b path mode fs = Returns (b', fs') -> b' = b) /\
    (forall cout b' cout',
       print_stats fmt_double fmt_size b cout = Some (b', cout') -> b' = b).
Proof.
  intros Hne Hf Hsz.
  destruct (report_defined b Hne Hf Hsz) as (clean & r & E & _ & R).
  pose proof R as R'. unfold report_of in R'.
  destruct (min_element clean) as [mn|] eqn:Emn; [|discriminate]. cbn [bind] in R'.
  destruct (max_element clean) as [mx|] eqn:Emx; [|discriminate]. cbn [bind] in R'.
  destruct (percentile clean 0.50) as [p50|] eqn:E50; [|discriminate]. cbn [bind] in R'.
  destruct (percentile clean 0.90) as [p90|] eqn:E90; [|discriminate]. cbn [bind] in R'.
  destruct (percentile clean 0.95) as [p95|] eqn:E95; [|discriminate]. cbn [bind] in R'.
  destruct (percentile clean 0.99) as [p99|] eqn:E99; [|discriminate]. cbn [bind] in R'.
  inversion R' as [Hr]. exists clean, mn, mx, p50, p90, p95, p99.
  repeat (split; [assumption|]). cbv zeta. rewrite Hr.
  split; [|split; [|split]].
  - intros cout. apply print_stats_report with clean; assumption.
  - intros path mode fs Hopen.
    apply (export_csv_open fmt_double fmt_size b path mode fs clean r Hne E R Hopen).
  - intros path mode fs b' fs' H.
    assert (Hx : mode = Append -> exists_ fs path <> Throws filesystem_error).
    { intros -> Hx.
      rewrite (export_csv_throws fmt_double fmt_size b path fs clean r Hne E R Hx) in H.
      discriminate H. }
    rewrite (export_csv_report fmt_double fmt_size b path mode fs clean r Hne E R Hx) in H.
    inversion H. reflexivity.
  - intros cout b' cout' H.
    rewrite (print_stats_report fmt_double fmt_size b cout clean r Hne E R) in H.
    inversion H. reflexivity.
Qed.

Lemma reports_use_cleaned_set_witness :
  exists clean mn mx p50 p90 p95 p99,
    filter_outliers (samples demo_bench) = Some clean /\
    min_element clean = Some mn /\ max_element clean = Some mx /\
    percentile clean 0.50%float = Some p50 /\
    percentile clean 0.90%float = Some p90 /\
    percentile clean 0.95%float = Some p95 /\
    percentile clean 0.99%float = Some p99 /\
    let r := {| r_iterations := iterations demo_bench;
                r_batch_size := batch_size demo_bench;
                r_samples_used := List.length clean;
                r_min := mn; r_max := mx;
                r_mean := mean clean;
                r_stddev := stddev clean (mean clean);
                r_p50 := p50; r_p90 := p90; r_p95 := p95; r_p99 := p99;
                r_per_op_avg :=
                  (mean clean / Dbl.of_Z (Z.of_nat (batch_size demo_bench)))%float |} in
    (forall cout,
       print_stats demo_fmt_double demo_fmt_size demo_bench cout =
       Some (demo_bench, (cout ++ console_text demo_fmt_double demo_fmt_size r)%string)) /\
    (forall path mode fs, can_open fs path = true ->
       export_csv demo_fmt_double demo_fmt_size demo_bench path mode fs =
       Returns (demo_bench,
                write_file fs path
                  (csv_prefix mode fs path
                   ++ csv_text demo_fmt_double demo_fmt_size r)%string)) /\
    (forall path mode fs b' fs',
       export_csv demo_fmt_double demo_fmt_size demo_bench path mode fs = Returns (b', fs') ->
       b' = demo_bench) /\
    (forall cout b' cout',
       print_stats demo_fmt_double demo_fmt_size demo_bench cout = Some (b', cout') ->
       b' = demo_bench).
Proof.
  apply (reports_use_cleaned_set demo_fmt_double demo_fmt_size demo_bench).
  - discriminate.
  - exact demo_samples_finite.
  - vm_compute. discriminate.
Defined.

(** C10, as stated: [filter_outliers] would return a non-empty vector on
    every non-empty input.  On the single sample [infinity] both quartiles
    are infinite, their difference is a NaN, so are the fences, and nothing
    is kept. *)
Lemma filter_outliers_infinite_is_empty :
  ~ (forall v, v <> [] -> exists out, filter_outliers v = Some out /\ out <> []).
Proof.
  intros H. destruct (H [infinity]) as (out & E & Hne); [discriminate|].
  vm_compute in E. inversion E. subst out. apply Hne. reflexivity.
Qed.

(** C10, amended: on every non-empty vector of finite samples
    [filter_outliers] returns a non-empty vector; hence behind the guard of
    [print_stats] and [export_csv] the cleaned vector handed to [mean],
    [stddev], [percentile], [min_element] and [max_element] is not empty,
    the divisor of [mean] and [stddev] is a positive number, every
    percentile index lies inside the vector, and no report has undefined
    behaviour: [print_stats] returns, and [export_csv] returns unless
    [std::filesystem::exists] throws ([Append] mode, a path whose status
    cannot be read), when it leaves by that [filesystem_error]. *)
Theorem finite_samples_keep_reports_defined (v : list float) :
  v <> [] -> all_finite v -> (Dbl.size v <= 2 ^ 53)%Z ->
  exists clean,
    filter_outliers v = Some clean /\ clean <> [] /\
    (exists m e, Prim2SF (Dbl.of_Z (Dbl.size clean)) = S754_finite false m e) /\
    (exists mn, min_element clean = Some mn) /\
    (exists mx, max_element clean = Some mx) /\
    (forall p, In p [0.50; 0.90; 0.95; 0.99]%float ->
       exists idx x,
         percentile_index (Dbl.size clean) p = Some idx /\
         (0 <= idx < Dbl.size clean)%Z /\
         percentile clean p = Some x) /\
    (forall fmt_double fmt_size b, samples b = v ->
       (forall cout, exists out,
          print_stats fmt_double fmt_size b cout = Some (b, out)) /\
       (forall path mode fs,
          export_csv fmt_double fmt_size b path mode fs <> Undef /\
          ((mode = Append -> exists_ fs path <> Throws filesystem_error) ->
           exists fs',
             export_csv fmt_double fmt_size b path mode fs = Returns (b, fs')) /\
          (mode = Append -> exists_ fs path = Throws filesystem_error ->
           export_csv fmt_double fmt_size b path mode fs = Throws filesystem_error))).
Proof.
  intros Hne Hf Hsz.
  destruct (filter_outliers_nonempty v Hf Hne Hsz) as (clean & E & Hc).
  destruct (filter_outliers_props _ _ E) as (_ & Hs & _ & _).
  pose proof (size_pos clean Hc) as Hp.
  assert (Hsz' : (Dbl.size clean <= 2 ^ 53)%Z) by lia.
  exists clean. split; [assumption|]. split; [assumption|].
  split; [apply of_Z_pos_finite; lia|].
  split; [apply min_element_defined; assumption|].
  split; [apply max_element_defined; assumption|].
  split.
  - intros p Hp'.
    assert (H01 : (0 <=? p)%float = true /\ (p <=? 1)%float = true).
    { simpl in Hp'. destruct Hp' as [<-|[<-|[<-|[<-|[]]]]]; split; reflexivity. }
    destruct H01 as [H0 H1].
    destruct (percentile_defined clean p Hc Hsz' H0 H1) as (idx & x & I & R & _ & _ & P).
    exists idx, x. repeat split; auto; lia.
  - intros fmt_double fmt_size b Hb. subst v.
    destruct (report_defined b Hne Hf Hsz) as (clean' & r & E' & _ & R).
    split.
    + intros cout. eexists.
      apply (print_stats_report fmt_double fmt_size b cout clean' r Hne E' R).
    + intros path mode fs.
      pose proof (export_csv_report fmt_double fmt_size b path mode fs clean' r Hne E' R)
        as Hr.
      pose proof (export_csv_throws fmt_double fmt_size b path fs clean' r Hne E' R)
        as Ht.
      split; [|split].
      * destruct mode.
        -- rewrite Hr by discriminate. discriminate.
        -- destruct (exists_ fs path) as [e| [] |] eqn:Ex.
           ++ rewrite Hr by discriminate. discriminate.
           ++ rewrite Ht by reflexivity. discriminate.
           ++ rewrite Hr by discriminate. discriminate.
      * intros Hx. eexists. apply Hr. exact Hx.
      * intros -> Hx. apply Ht. exact Hx.
Qed.

Lemma finite_samples_keep_reports_defined_witness :
  exists clean,
    filter_outliers demo_samples = Some clean /\ clean <> [] /\
    (exists m e, Prim2SF (Dbl.of_Z (Dbl.size clean)) = S754_finite false m e) /\
    (exists mn, min_element clean = Some mn) /\
    (exists mx, max_element clean = Some mx) /\
    (forall p, In p [0.50; 0.90; 0.95; 0.99]%float ->
       exists idx x,
         percentile_index (Dbl.size clean) p = Some idx /\
         (0 <= idx < Dbl.size clean)%Z /\
         percentile clean p = Some x) /\
    (forall fmt_double fmt_size b, samples b = demo_samples ->
       (forall cout, exists out,
          print_stats fmt_double fmt_size b cout = Some (b, out)) /\
       (forall path mode fs,
          export_csv fmt_double fmt_size b path mode fs <> Undef /\
          ((mode = Append -> exists_ fs path <> Throws filesystem_error) ->
           exists fs',
             export_csv fmt_double fmt_size b path mode fs = Returns (b, fs')) /\
          (mode = Append -> exists_ fs path = Throws filesystem_error ->
           export_csv fmt_double fmt_size b path mode fs = Throws filesystem_error))).
Proof.
  apply (finite_samples_keep_reports_defined demo_samples).
  - discriminate.
  - exact demo_samples_finite.
  - vm_compute. discriminate.
Defined.

(** * Further facts

    Signs and bounds of sums, quotients and square roots. *)

Module ArithFacts.

Import B64 B64Facts DblFacts Benchmark Spec StatsFacts RunFacts ReportFacts.

Lemma sqrt_core_nonneg m e :
  (0 <= fst (fst (SFsqrt_core_binary prec emax (Zpos m) e)))%Z.
Proof.
  unfold SFsqrt_core_binary.
  set (m' := match _ with Zpos _ => _ | _ => _ end).
  assert (0 <= m')%Z.
  { unfold m'. destruct (_ - _)%Z; try lia. apply Z.shiftl_nonneg. lia. }
  pose proof (Z.sqrtrem_spec m' ltac:(assumption)) as S.
  destruct (Z.sqrtrem m') as [q r]. simpl.
  destruct S as [S1 S2]. nia.
Qed.

Lemma SFsqrt_sign x : SF64sqrt x = S754_nan \/ SFnn (SF64sqrt x) = true.
Proof.
  unfold SF64sqrt. destruct x as [s|[]| |[] m e]; simpl; auto.
  right. pose proof (sqrt_core_nonneg m e) as H.
  destruct (SFsqrt_core_binary prec emax (Zpos m) e) as [[mz ez] lz].
  apply has_sign_nn, bra_sign. exact H.
Qed.

Lemma SFnn_leb_zero x : SFnn x = true -> SFleb (S754_zero false) x = true.
Proof. destruct x as [[]|[]| |[] m e]; try discriminate; reflexivity. Qed.

Lemma sqrt_nonneg x : is_nan (sqrt x) = true \/ (0 <=? sqrt x)%float = true.
Proof.
  rewrite is_nan_SF, FloatAxioms.leb_spec, sqrt_spec.
  destruct (SFsqrt_sign (Prim2SF x)) as [->|H]; [left; reflexivity|].
  right. apply SFnn_leb_zero. exact H.
Qed.

Lemma SFleb_zero_nn x : SFleb (S754_zero false) x = true -> SFnn x = true.
Proof. destruct x as [[]|[]| |[] m e]; try discriminate; reflexivity. Qed.

Lemma SFnn_notnan x : SFnn x = true -> SFnotnan x = true.
Proof. destruct x as [[]|[]| |[] m e]; try discriminate; reflexivity. Qed.

Lemma SFadd_nn x y :
  SFnn x = true -> SFnn y = true -> SFnn (SF64add x y) = true.
Proof.
  intros Nx Ny.
  destruct x as [sx|[]| |[] mx ex]; try discriminate;
    destruct y as [sy|[]| |[] my ey]; try discriminate; try reflexivity.
  - destruct sx, sy; reflexivity.
  - unfold SF64add, SFadd.
    set (ez := Z.min ex ey).
    pose proof (shl_align_fst mx ex ez ltac:(lia)) as H1.
    pose proof (shl_align_fst my ey ez ltac:(lia)) as H2.
    simpl cond_Zopp.
    set (W := (_ + _)%Z).
    apply has_sign_nn.
    replace false with (W <? 0)%Z at 1 by (apply Z.ltb_ge; lia).
    apply binary_normalize_sign. lia.
Qed.

Lemma SFdiv_nn x my ey :
  SFnn x = true -> SFnn (SF64div x (S754_finite false my ey)) = true.
Proof.
  intros Nx. destruct x as [sx|[]| |[] mx ex]; try discriminate; try reflexivity.
  unfold SF64div, SFdiv.
  destruct (SFdiv_core_binary prec emax (Zpos mx) ex (Zpos my) ey) as [[mz ez] lz] eqn:E.
  apply has_sign_nn. apply (bra_sign (xorb false false)).
  unfold SFdiv_core_binary in E.
  set (m' := match _ with Zpos _ => _ | _ => _ end) in E.
  assert (0 <= m')%Z.
  { unfold m'. destruct (_ - _ - _)%Z; try lia. apply Z.shiftl_nonneg. lia. }
  pose proof (Z_div_mod m' (Zpos my) ltac:(lia)) as D.
  destruct (Z.div_eucl m' (Zpos my)) as [q r]. inversion E; subst.
  destruct D as [D1 D2]. nia.
Qed.

(** A number between two finite ones is finite. *)
Lemma SFleb_between_finite z c r :
  SFfin z = true -> SFfin r = true ->
  SFleb z c = true -> SFleb c r = true -> SFfin c = true.
Proof.
  intros Fz Fr H1 H2.
  destruct c as [sc|[]| |sc mc ec]; try reflexivity.
  - destruct z as [?|?| |[] ? ?]; try discriminate.
  - destruct r as [?|?| |[] ? ?]; try discriminate.
  - destruct z; discriminate.
Qed.

Lemma nonneg_finite_nn x : nonneg_finite x -> SFnn (Prim2SF x) = true.
Proof.
  intros [_ H]. rewrite FloatAxioms.leb_spec in H. apply SFleb_zero_nn. exact H.
Qed.

(** A sample: the clamped difference of a finite non-negative duration and
    an overhead that is not negative. *)
Lemma sample_bounds raw oh :
  nonneg_finite raw -> SFnn (Prim2SF oh) = true ->
  is_finite (clamp (raw - oh)) = true /\
  (0 <=? clamp (raw - oh))%float = true /\
  (clamp (raw - oh) <=? raw)%float = true.
Proof.
  intros [Fr Pr] Noh.
  assert (Nn : is_nan (raw - oh) = false).
  { apply sub_notnan; [assumption|]. apply notnan_iff, SFnn_notnan. assumption. }
  assert (Le : (raw - oh <=? raw)%float = true).
  { rewrite FloatAxioms.leb_spec, sub_spec.
    apply SFsub_le; auto using Prim2SF_valid. rewrite <- is_finite_SF. assumption. }
  unfold clamp. destruct (raw - oh <? 0)%float eqn:E.
  - split; [reflexivity|]. split; [reflexivity|assumption].
  - assert (Ge : (0 <=? raw - oh)%float = true) by (apply ltb_false_leb; auto).
    repeat split; auto.
    rewrite is_finite_SF.
    apply SFleb_between_finite with (Prim2SF 0) (Prim2SF raw).
    + reflexivity.
    + rewrite <- is_finite_SF. assumption.
    + rewrite <- FloatAxioms.leb_spec. assumption.
    + rewrite <- FloatAxioms.leb_spec. assumption.
Qed.

Lemma SFnn_leb x : SFnn (Prim2SF x) = true -> (0 <=? x)%float = true.
Proof. intros H. rewrite FloatAxioms.leb_spec. apply SFnn_leb_zero. exact H. Qed.

Lemma SFmul_nn_pos t m e :
  SFnn t = true -> SFnn (SF64mul t (S754_finite false m e)) = true.
Proof.
  intros H. destruct t as [[]|[]| |[] mt et]; try discriminate; try reflexivity.
  apply has_sign_nn. apply (SFmul_sign false mt et false m e).
Qed.

Lemma mul_nn_pos t c m e :
  Prim2SF c = S754_finite false m e ->
  SFnn (Prim2SF t) = true -> (0 <=? t * c)%float = true.
Proof.
  intros Hc H. apply SFnn_leb. rewrite mul_spec, Hc. apply SFmul_nn_pos. exact H.
Qed.

Lemma add_zero_le a : is_finite a = true -> (a + 0 <=? a)%float = true.
Proof.
  rewrite is_finite_SF, FloatAxioms.leb_spec, add_spec.
  change (Prim2SF 0) with (S754_zero false).
  destruct (Prim2SF a) as [[]|?| |s m e]; try discriminate; intros _; try reflexivity.
  unfold SF64add, SFadd. apply SFleb_refl. reflexivity.
Qed.

Lemma ltb_not_leb a b : (a <? b)%float = true -> (b <=? a)%float = false.
Proof.
  rewrite FloatAxioms.ltb_spec, FloatAxioms.leb_spec. unfold SFltb, SFleb.
  destruct (Prim2SF a) as [sa|sa| |sa ma ea], (Prim2SF b) as [sb|sb| |sb mb eb];
    simpl; try discriminate;
    repeat match goal with s : bool |- _ => destruct s end; simpl;
    try discriminate; try reflexivity;
    cmp_cases; simpl; try discriminate; try reflexivity; try lia.
Qed.

(** The fences lie outside the quartiles. *)
Lemma fences_around q1 q3 :
  is_finite q1 = true -> is_finite q3 = true -> (q1 <=? q3)%float = true ->
  (lower_fence q1 q3 <=? q1)%float = true /\ (q3 <=? upper_fence q1 q3)%float = true.
Proof.
  intros F1 F3 H. rewrite is_finite_SF in F1, F3.
  pose proof H as H'. rewrite FloatAxioms.leb_spec in H'.
  unfold lower_fence, upper_fence.
  set (iqr := (q3 - q1)%float). set (t := (1.5 * iqr)%float).
  assert (Ni : SFnn (Prim2SF iqr) = true).
  { unfold iqr. rewrite sub_spec. apply SFsub_nn; auto using Prim2SF_valid. }
  assert (Nt : SFnn (Prim2SF t) = true).
  { unfold t. rewrite mul_spec. apply SFmul_nn; auto; try discriminate; reflexivity. }
  split.
  - rewrite FloatAxioms.leb_spec, sub_spec. apply SFsub_le; auto using Prim2SF_valid.
  - rewrite FloatAxioms.leb_spec, add_spec. apply SFadd_ge; auto using Prim2SF_valid.
Qed.

Lemma SFmul_nan_l y : SF64mul S754_nan y = S754_nan.
Proof. destruct y; reflexivity. Qed.

End ArithFacts.

(** * Rounding to nearest is monotone

    [binary_round_aux] picks the nearer of the two neighbours of an exact
    value, and the even one on a tie; hence a larger value never rounds to a
    smaller number. *)

Module NearestFacts.

Import B64 B64Facts DblFacts.

Local Open Scope Z_scope.

Lemma shr_1_rs mrs : 0 <= shr_m mrs ->
  shr_r (shr_1 mrs) = Z.odd (shr_m mrs) /\
  shr_s (shr_1 mrs) = shr_r mrs || shr_s mrs.
Proof.
  destruct mrs as [m r s]; simpl. intros H.
  destruct m as [|p|p]; try lia; [split; reflexivity|].
  destruct p; split; reflexivity.
Qed.

Lemma mod_pow2_succ m k : 0 <= k ->
  m mod 2 ^ (k + 1) = m mod 2 ^ k + 2 ^ k * ((m / 2 ^ k) mod 2).
Proof.
  intros Hk. rewrite Z.pow_add_r by lia. change (2 ^ 1) with 2.
  apply Z.rem_mul_r; [|lia]. pose proof (pow2_pos k Hk). lia.
Qed.

Lemma iter_shr_1_rs k m : 0 <= m ->
  let mrs := Nat.iter (S k) shr_1 {| shr_m := m; shr_r := false; shr_s := false |} in
  shr_r mrs = Z.odd (m / 2 ^ Z.of_nat k) /\
  shr_s mrs = negb (m mod 2 ^ Z.of_nat k =? 0).
Proof.
  intros Hm. cbv zeta. induction k as [|k [IHr IHs]].
  - set (mrs0 := {| shr_m := m; shr_r := false; shr_s := false |}).
    change (Nat.iter 1 shr_1 mrs0) with (shr_1 mrs0).
    destruct (shr_1_rs mrs0 Hm) as [-> ->].
    simpl. rewrite Z.div_1_r, Z.mod_1_r. split; reflexivity.
  - set (mrs0 := {| shr_m := m; shr_r := false; shr_s := false |}) in *.
    change (Nat.iter (S (S k)) shr_1 mrs0) with (shr_1 (Nat.iter (S k) shr_1 mrs0)).
    destruct (iter_shr_1 (S k) mrs0 Hm) as [Hq _]. change (shr_m mrs0) with m in Hq.
    assert (Hq0 : 0 <= shr_m (Nat.iter (S k) shr_1 mrs0)).
    { rewrite Hq. apply Z.div_pos; [assumption|]. apply pow2_pos. lia. }
    destruct (shr_1_rs _ Hq0) as [-> ->]. rewrite Hq, IHr, IHs.
    split; [reflexivity|].
    rewrite Nat2Z.inj_succ. unfold Z.succ.
    rewrite (mod_pow2_succ m (Z.of_nat k)) by lia.
    pose proof (pow2_pos (Z.of_nat k) ltac:(lia)) as Hp.
    pose proof (Z.mod_pos_bound m (2 ^ Z.of_nat k) Hp).
    pose proof (Z.mod_pos_bound (m / 2 ^ Z.of_nat k) 2 ltac:(lia)).
    rewrite Zodd_mod.
    destruct (Z.eqb_spec (m mod 2 ^ Z.of_nat k) 0),
      (Z.eqb_spec ((m / 2 ^ Z.of_nat k) mod 2) 1),
      (Z.eqb_spec (m mod 2 ^ Z.of_nat k + 2 ^ Z.of_nat k * ((m / 2 ^ Z.of_nat k) mod 2)) 0);
      simpl; try reflexivity; try nia.
Qed.

(** The mantissa that round-to-nearest-even picks after a shift by [k]:
    the quotient when the remainder is below one half, its successor when
    it is above, and the even one of the two on a tie. *)
Lemma nearest_decision m e n : 0 <= m ->
  let k := Z.max 0 n in
  let mrs := fst (shr {| shr_m := m; shr_r := false; shr_s := false |} e n) in
  let m2 := round_nearest_even (shr_m mrs) (loc_of_shr_record mrs) in
  let q := m / 2 ^ k in
  let rem := m mod 2 ^ k in
  (m2 = q /\ (2 * rem < 2 ^ k \/ (2 * rem = 2 ^ k /\ Z.even q = true))) \/
  (m2 = q + 1 /\ (2 ^ k < 2 * rem \/ (2 * rem = 2 ^ k /\ Z.even q = false))).
Proof.
  intros Hm. cbv zeta.
  destruct n as [|p|p].
  - simpl. rewrite Z.div_1_r, Z.mod_1_r. left. split; [reflexivity|left; lia].
  - replace (Z.max 0 (Zpos p)) with (Zpos p) by lia.
    unfold shr. cbn [fst]. rewrite iter_pos_nat.
    destruct (Pos.to_nat p) as [|k] eqn:Ek; [lia|].
    set (mrs0 := {| shr_m := m; shr_r := false; shr_s := false |}).
    destruct (iter_shr_1 (S k) mrs0 Hm) as [Hq _]. change (shr_m mrs0) with m in Hq.
    destruct (iter_shr_1_rs k m Hm) as [Hr Hs]. fold mrs0 in Hr, Hs.
    assert (Ep : Zpos p = Z.of_nat k + 1) by lia.
    rewrite Ep. rewrite Nat2Z.inj_succ in Hq. unfold Z.succ in Hq.
    set (K := Z.of_nat k) in *. assert (HK : 0 <= K) by (unfold K; lia).
    rewrite (mod_pow2_succ m K HK).
    pose proof (pow2_pos K HK) as Hp.
    pose proof (Z.mod_pos_bound m (2 ^ K) Hp) as Hlow.
    pose proof (Z.mod_pos_bound (m / 2 ^ K) 2 ltac:(lia)) as Hbit.
    assert (P2 : 2 ^ (K + 1) = 2 * 2 ^ K) by (rewrite Z.pow_add_r by lia; change (2^1) with 2; lia).
    rewrite P2.
    destruct (Nat.iter (S k) shr_1 mrs0) as [mq r s]. simpl in Hq, Hr, Hs.
    subst mq r s. rewrite Zodd_mod. unfold loc_of_shr_record, round_nearest_even.
    rewrite P2 in *.
    set (q := m / (2 * 2 ^ K)) in *.
    destruct (Z.eqb_spec ((m / 2 ^ K) mod 2) 1) as [Hr|Hr],
      (Z.eqb_spec (m mod 2 ^ K) 0) as [Hs|Hs]; cbn [negb shr_m shr_r shr_s].
    + destruct (IntDef.Z.even q) eqn:Ev.
      * left. split; [reflexivity|right]. split; [nia|reflexivity].
      * right. split; [reflexivity|right]. split; [nia|reflexivity].
    + right. split; [reflexivity|left]. nia.
    + left. split; [reflexivity|left]. nia.
    + left. split; [reflexivity|left]. nia.
  - simpl. rewrite Z.div_1_r, Z.mod_1_r. left. split; [reflexivity|left; lia].
Qed.

Lemma bra_stage1_nearest sx mx ex : 0 <= mx ->
  let k := shift_of mx ex in
  let q := mx / 2 ^ k in
  let rem := mx mod 2 ^ k in
  exists m2,
    ((m2 = q /\ (2 * rem < 2 ^ k \/ (2 * rem = 2 ^ k /\ Z.even q = true))) \/
     (m2 = q + 1 /\ (2 ^ k < 2 * rem \/ (2 * rem = 2 ^ k /\ Z.even q = false)))) /\
    binary_round_aux prec emax sx mx ex loc_Exact = finalize sx m2 (ex + k).
Proof.
  intros Hm. cbv zeta. unfold binary_round_aux.
  destruct (shr_fexp_spec mx ex loc_Exact Hm) as (H1 & H2 & _).
  pose proof (nearest_decision mx ex (SpecFloat.fexp prec emax (Zdigits2 mx + ex) - ex) Hm)
    as D. cbv zeta in D.
  change (shr {| shr_m := mx; shr_r := false; shr_s := false |} ex
            (SpecFloat.fexp prec emax (Zdigits2 mx + ex) - ex))
    with (shr_fexp prec emax mx ex loc_Exact) in D.
  change (Z.max 0 (SpecFloat.fexp prec emax (Zdigits2 mx + ex) - ex))
    with (shift_of mx ex) in D.
  destruct (shr_fexp prec emax mx ex loc_Exact) as [mrs1 e1]. simpl in H1, H2, D.
  set (m2 := round_nearest_even (shr_m mrs1) (loc_of_shr_record mrs1)) in *.
  exists m2. split; [exact D|].
  assert (Hm2 : 0 <= m2).
  { pose proof (round_nearest_even_bounds (shr_m mrs1) (loc_of_shr_record mrs1)).
    assert (0 <= shr_m mrs1); [|unfold m2; lia].
    rewrite H2. apply Z.div_pos; [assumption|]. apply Z.pow_pos_nonneg; [lia|].
    unfold shift_of; lia. }
  destruct (shr_fexp_spec m2 e1 loc_Exact Hm2) as (G1 & G2 & _).
  destruct (shr_fexp prec emax m2 e1 loc_Exact) as [mrs2 e2]. simpl in G1, G2.
  unfold finalize, build. rewrite <- H1, <- G1, <- G2. reflexivity.
Qed.

(** Rounding an exact input: the result, and which of the two neighbours
    it is. *)
Lemma bra_nearest_spec sx mx ex : 0 < mx ->
  ex <= fexp64 (dig mx + ex) ->
  let e1 := fexp64 (dig mx + ex) in
  let k := e1 - ex in
  let q := mx / 2 ^ k in
  let rem := mx mod 2 ^ k in
  exists mr er, binary_round_aux prec emax sx mx ex loc_Exact = build sx mr er /\
    0 <= mr /\ e1 <= er /\
    (mr = 0 \/ fexp64 (dig mr + er) = er) /\
    ((mr * 2 ^ (er - e1) = q /\
      (2 * rem < 2 ^ k \/ (2 * rem = 2 ^ k /\ Z.even q = true))) \/
     (mr * 2 ^ (er - e1) = q + 1 /\
      (2 ^ k < 2 * rem \/ (2 * rem = 2 ^ k /\ Z.even q = false)))).
Proof.
  intros Hm Hpre e1. cbv zeta.
  destruct (bra_stage1_nearest sx mx ex ltac:(lia)) as (m2 & D & Heq). cbv zeta in D.
  assert (Hk : shift_of mx ex = e1 - ex) by (unfold shift_of, e1; lia).
  assert (He1 : e1 = fexp64 (dig mx + ex)) by reflexivity.
  assert (Hk0 : 0 <= e1 - ex) by (unfold e1; lia).
  clearbody e1.
  rewrite Hk in *.
  set (q := mx / 2 ^ (e1 - ex)) in *.
  assert (Hqd : q = mx / 2 ^ (e1 - ex)) by reflexivity.
  clearbody q. replace (ex + (e1 - ex)) with e1 in Heq by lia.
  assert (Hq0 : 0 <= q) by (rewrite Hqd; apply Z.div_pos; [lia|apply pow2_pos; assumption]).
  assert (Hb : q <= m2 <= q + 1) by (destruct D as [[-> _]|[-> _]]; lia).
  destruct (Z.eq_dec m2 0) as [Z0|NZ].
  { (* rounded to zero *)
    exists 0, e1. subst m2. rewrite Heq. unfold finalize.
    rewrite Z.div_0_l by (pose proof (pow2_pos (shift_of 0 e1)); unfold shift_of in *; lia).
    simpl build. rewrite Z.sub_diag.
    split; [reflexivity|]. split; [lia|]. split; [lia|]. split; [left; reflexivity|].
    rewrite Z.mul_0_l. exact D. }
  assert (Hm2 : 0 < m2) by lia.
  assert (Hfin : exists mr er, finalize sx m2 e1 = build sx mr er /\ 0 < mr /\
    e1 <= er /\ mr * 2 ^ (er - e1) = m2 /\ fexp64 (dig mr + er) = er).
  { destruct (Z.eq_dec q 0) as [Q0|QN].
    - assert (m2 = 1) by lia. subst m2.
      assert (Hlt : mx < 2 ^ (e1 - ex)).
      { destruct (Z.lt_ge_cases mx (2 ^ (e1 - ex))); [assumption|].
        assert (1 <= q); [|lia]. rewrite Hqd.
        apply Z.div_le_lower_bound; [apply pow2_pos; assumption|lia]. }
      pose proof (dig_bounds mx Hm) as [Hlo _].
      assert (dig mx - 1 < e1 - ex).
      { apply (Z.pow_lt_mono_r_iff 2); lia. }
      assert (He1' : e1 = -1074) by (rewrite fexp_eq in He1; lia).
      apply finalize_spec; [lia| |].
      + change (dig 1) with 1. rewrite He1'. rewrite fexp_eq. lia.
      + change (dig 1) with 1. rewrite He1'. rewrite fexp_eq. lia.
    - assert (Hq : 0 < q) by lia.
      assert (Hdq : dig q + e1 = dig mx + ex).
      { rewrite Hqd. rewrite dig_div_pow2 by (try rewrite <- Hqd; lia). lia. }
      assert (Hcq : fexp64 (dig q + e1) = e1) by (rewrite Hdq; auto).
      destruct (Z.eq_dec m2 q) as [E2|NQ].
      + rewrite E2. apply finalize_spec; [lia|lia|lia].
      + assert (E2 : m2 = q + 1) by lia. rewrite E2.
        destruct (dig_succ q Hq) as [Hd|[Hd Hp]].
        * apply finalize_spec; [lia|rewrite Hd; lia|rewrite Hd; lia].
        * pose proof (fexp_succ (dig q + e1)).
          replace (dig q + e1 + 1) with (dig (q + 1) + e1) in * by lia.
          apply finalize_spec; [lia|lia|].
          intros _. rewrite Hp. pose proof (dig_pos q Hq).
          replace (dig q) with (Z.succ (dig q - 1)) by lia.
          rewrite Z.pow_succ_r by lia. rewrite Z.even_mul. reflexivity. }
  destruct Hfin as (mr & er & F1 & F2 & F3 & F4 & F5).
  exists mr, er. rewrite Heq, F1.
  split; [reflexivity|]. split; [lia|]. split; [lia|]. split; [right; assumption|].
  rewrite F4. exact D.
Qed.

Lemma build_zero_le m e : 0 <= m -> SFleb (S754_zero false) (build false m e) = true.
Proof.
  intros H. destruct m as [|p|p]; try lia; simpl; [reflexivity|].
  destruct (e <=? 971); reflexivity.
Qed.

Lemma build_mono mr1 er1 mr2 er2 :
  mr1 = 0 \/ canon mr1 er1 -> canon mr2 er2 -> lex_le mr1 er1 mr2 er2 ->
  SFleb (build false mr1 er1) (build false mr2 er2) = true.
Proof.
  intros C1 C2 L. pose proof C2 as [P2 _].
  destruct mr2 as [|p2|p2]; try lia. simpl build at 2.
  destruct (Z.leb_spec er2 971) as [Hb|Hb].
  - apply build_le_pos; [|assumption]. destruct C1 as [Z|C1]; [left|right]; auto.
  - destruct C1 as [->|[P1 C1]]; [reflexivity|].
    destruct mr1 as [|p1|p1]; try lia. simpl.
    destruct (er1 <=? 971); reflexivity.
Qed.

(** Arithmetic of a value [m = K * q + r] in units [A]. *)
Lemma split_value m K q r A :
  m = K * q + r -> 0 <= r < K -> 0 < A ->
  m * A = q * (K * A) + r * A /\ 0 <= r * A < K * A.
Proof.
  intros -> Hr HA. split; [ring|]. split.
  - apply Z.mul_nonneg_nonneg; lia.
  - apply Z.mul_lt_mono_pos_r; lia.
Qed.

Lemma same_quotient U q1 q2 a1 a2 :
  0 < U -> 0 <= a1 < U -> 0 <= a2 < U ->
  q2 * U < q1 * U + a1 -> q1 * U + a1 <= q2 * U + a2 -> q1 = q2.
Proof.
  intros HU H1 H2 Ha Hb.
  assert (q2 * U < (q1 + 1) * U) by (rewrite Z.mul_add_distr_r; lia).
  assert (q1 * U < (q2 + 1) * U) by (rewrite Z.mul_add_distr_r; lia).
  assert (q2 < q1 + 1) by (apply (Z.mul_lt_mono_pos_r U); assumption).
  assert (q1 < q2 + 1) by (apply (Z.mul_lt_mono_pos_r U); assumption).
  lia.
Qed.

Lemma tie_from_bounds K r A a :
  0 < A -> K <= 2 * r -> 2 * a <= K * A -> r * A <= a -> 2 * r = K.
Proof.
  intros HA H1 H2 H3.
  assert (K * A <= 2 * r * A) by (apply Z.mul_le_mono_nonneg_r; lia).
  assert (2 * r * A = K * A) by lia.
  apply (Z.mul_cancel_r _ _ A); lia.
Qed.

Lemma tie_from_bounds_below K r A a :
  0 < A -> 2 * r <= K -> K * A <= 2 * a -> a <= r * A -> 2 * r = K.
Proof.
  intros HA H1 H2 H3.
  assert (2 * r * A <= K * A) by (apply Z.mul_le_mono_nonneg_r; lia).
  assert (2 * r * A = K * A) by lia.
  apply (Z.mul_cancel_r _ _ A); lia.
Qed.

Section Monotone.

Variables (mx1 ex1 mx2 ex2 b : Z).
Hypothesis Hm1 : 0 < mx1.
Hypothesis Hm2 : 0 < mx2.
Hypothesis Hpre1 : ex1 <= fexp64 (dig mx1 + ex1).
Hypothesis Hpre2 : ex2 <= fexp64 (dig mx2 + ex2).
Hypothesis Hb1 : b <= ex1.
Hypothesis Hb2 : b <= ex2.
Hypothesis Hle : mx1 * 2 ^ (ex1 - b) <= mx2 * 2 ^ (ex2 - b).

(** Rounding to nearest is monotone. *)
Lemma bra_mono :
  SFleb (binary_round_aux prec emax false mx1 ex1 loc_Exact)
        (binary_round_aux prec emax false mx2 ex2 loc_Exact) = true.
Proof.
  destruct (bra_nearest_spec false mx1 ex1 Hm1 Hpre1) as (mr1 & er1 & B1 & P1 & E1 & C1 & D1).
  destruct (bra_nearest_spec false mx2 ex2 Hm2 Hpre2) as (mr2 & er2 & B2 & P2 & E2 & C2 & D2).
  cbv zeta in *.
  set (e1 := fexp64 (dig mx1 + ex1)) in *.
  set (e2 := fexp64 (dig mx2 + ex2)) in *.
  assert (He1 : e1 = fexp64 (dig mx1 + ex1)) by reflexivity.
  assert (He2 : e2 = fexp64 (dig mx2 + ex2)) by reflexivity.
  clearbody e1 e2.
  assert (Hp1 : ex1 <= fexp64 (dig mx1 + ex1)) by (rewrite <- He1; assumption).
  assert (Hp2 : ex2 <= fexp64 (dig mx2 + ex2)) by (rewrite <- He2; assumption).
  rewrite B1, B2.
  set (k1 := e1 - ex1) in *. set (k2 := e2 - ex2) in *.
  assert (Hk1 : 0 <= k1) by (unfold k1; lia).
  assert (Hk2 : 0 <= k2) by (unfold k2; lia).
  pose proof (pow2_pos k1 Hk1) as PK1. pose proof (pow2_pos k2 Hk2) as PK2.
  pose proof (Z.div_mod mx1 (2 ^ k1) ltac:(lia)) as DM1.
  pose proof (Z.div_mod mx2 (2 ^ k2) ltac:(lia)) as DM2.
  pose proof (Z.mod_pos_bound mx1 (2 ^ k1) PK1) as MB1.
  pose proof (Z.mod_pos_bound mx2 (2 ^ k2) PK2) as MB2.
  set (q1 := mx1 / 2 ^ k1) in *. set (r1 := mx1 mod 2 ^ k1) in *.
  set (q2 := mx2 / 2 ^ k2) in *. set (r2 := mx2 mod 2 ^ k2) in *.
  assert (Hq1 : 0 <= q1) by (apply Z.div_pos; lia).
  assert (Hq2 : 0 <= q2) by (apply Z.div_pos; lia).
  (* the [rounded] relation of both results *)
  assert (R1 : rounded mx1 ex1 mr1 er1).
  { unfold rounded. cbv zeta. rewrite <- He1. fold k1 q1 r1.
    split; [lia|]. split; [lia|].
    split; [destruct D1 as [[-> _]|[-> _]]; lia|].
    split; [|assumption].
    intros Z0. destruct D1 as [[-> _]|[_ D]]; [reflexivity|]. lia. }
  assert (R2 : rounded mx2 ex2 mr2 er2).
  { unfold rounded. cbv zeta. rewrite <- He2. fold k2 q2 r2.
    split; [lia|]. split; [lia|].
    split; [destruct D2 as [[-> _]|[-> _]]; lia|].
    split; [|assumption].
    intros Z0. destruct D2 as [[-> _]|[_ D]]; [reflexivity|]. lia. }
  destruct (Z.eq_dec mr1 0) as [Z1|NZ1].
  { subst mr1. simpl build at 1. apply build_zero_le. assumption. }
  assert (Cn1 : canon mr1 er1) by (split; [lia|destruct C1; [lia|assumption]]).
  destruct (Z_le_gt_dec (mr1 * 2 ^ (er1 - b)) (mx2 * 2 ^ (ex2 - b))) as [Hc|Hc].
  { destruct (rounded_ge mx2 ex2 Hm2 Hp2 mr2 er2 mr1 er1 b R2 Cn1 Hb2 ltac:(lia) Hc)
      as [Cn2 L].
    apply build_mono; auto. }
  pose proof (pow2_pos (ex1 - b) ltac:(lia)) as PA1.
  pose proof (pow2_pos (ex2 - b) ltac:(lia)) as PA2.
  destruct (Z_lt_ge_dec (mr2 * 2 ^ (er2 - b)) (mx1 * 2 ^ (ex1 - b))) as [Hlt|Hge].
  2:{ assert (NZ2 : 0 < mr2).
      { destruct (Z.eq_dec mr2 0) as [Z2|]; [|lia]. subst mr2. nia. }
      assert (Cn2 : canon mr2 er2) by (split; [lia|destruct C2; [lia|assumption]]).
      destruct (rounded_le mx1 ex1 Hm1 Hp1 mr1 er1 mr2 er2 b R1 Cn2 Hb1 ltac:(lia)
                  ltac:(lia)) as [Z|[_ L]]; [lia|].
      apply build_mono; auto. }
  exfalso.
  (* both inputs lie strictly between the two results *)
  assert (Hd : dig mx1 + ex1 <= dig mx2 + ex2)
    by (apply (value_lt_dig mx1 ex1 mx2 ex2 b); auto).
  assert (He12 : e1 <= e2) by (rewrite He1, He2; apply fexp_mono; assumption).
  (* the values of the results, in units of [2^b] *)
  assert (V1 : mr1 * 2 ^ (er1 - b) = mr1 * 2 ^ (er1 - e1) * (2 ^ k1 * 2 ^ (ex1 - b))).
  { replace (er1 - b) with ((er1 - e1) + (k1 + (ex1 - b))) by (unfold k1; lia).
    rewrite (pow2_split (er1 - e1)), (pow2_split k1) by lia. ring. }
  assert (V2 : mr2 * 2 ^ (er2 - b) = mr2 * 2 ^ (er2 - e2) * (2 ^ k2 * 2 ^ (ex2 - b))).
  { replace (er2 - b) with ((er2 - e2) + (k2 + (ex2 - b))) by (unfold k2; lia).
    rewrite (pow2_split (er2 - e2)), (pow2_split k2) by lia. ring. }
  rewrite V1 in Hc. rewrite V2 in Hlt.
  set (A1 := 2 ^ (ex1 - b)) in *. set (A2 := 2 ^ (ex2 - b)) in *.
  set (K1 := 2 ^ k1) in *. set (K2 := 2 ^ k2) in *.
  destruct (split_value mx1 K1 q1 r1 A1 DM1 MB1 PA1) as [X1 S1].
  destruct (split_value mx2 K2 q2 r2 A2 DM2 MB2 PA2) as [X2 S2].
  (* the first result is the upper neighbour, the second the lower one *)
  assert (U1 : mr1 * 2 ^ (er1 - e1) = q1 + 1).
  { destruct D1 as [[E _]|[E _]]; [|assumption]. exfalso. rewrite E in Hc. lia. }
  assert (L2 : mr2 * 2 ^ (er2 - e2) = q2).
  { destruct D2 as [[E _]|[E _]]; [assumption|]. exfalso. rewrite E in Hlt.
    rewrite Z.mul_add_distr_r in Hlt. lia. }
  rewrite U1 in Hc. rewrite L2 in Hlt. rewrite Z.mul_add_distr_r in Hc.
  assert (T1 : K1 <= 2 * r1 /\ (2 * r1 = K1 -> Z.even q1 = false)).
  { destruct D1 as [[E _]|[_ [D|[D Ev]]]]; [lia|lia|]. split; [lia|auto]. }
  assert (T2 : 2 * r2 <= K2 /\ (2 * r2 = K2 -> Z.even q2 = true)).
  { destruct D2 as [[_ [D|[D Ev]]]|[E _]]; [lia| |lia]. split; [lia|auto]. }
  clear D1 D2.
  (* both inputs have the same exponent *)
  assert (Q1 : q1 + 1 <= 2 ^ 53).
  { destruct (Z.eq_dec q1 0) as [Q0|NQ]; [rewrite Q0; lia|].
    assert (0 < q1) by lia.
    assert (Dq : dig q1 = dig mx1 - k1) by (apply dig_div_pow2; assumption).
    pose proof (dig_bounds q1 ltac:(lia)) as [_ Uq].
    assert (dig q1 <= 53) by (rewrite Dq; unfold k1; rewrite He1, fexp_eq; lia).
    assert (2 ^ dig q1 <= 2 ^ 53) by (apply Z.pow_le_mono_r; lia). lia. }
  assert (He21 : e2 <= e1).
  { pose proof (dig_bounds mx2 Hm2) as [Lx2 _].
    pose proof (dig_pos mx2 Hm2) as Dp2.
    assert (PKA : 0 < K1 * A1) by (apply Z.mul_pos_pos; assumption).
    assert (B0 : mx2 * A2 < 2 ^ 53 * (K1 * A1)).
    { assert ((q1 + 1) * (K1 * A1) <= 2 ^ 53 * (K1 * A1))
        by (apply Z.mul_le_mono_nonneg_r; lia).
      rewrite Z.mul_add_distr_r in H. lia. }
    assert (B : 2 ^ (dig mx2 - 1) * A2 < 2 ^ 53 * (K1 * A1)).
    { assert (2 ^ (dig mx2 - 1) * A2 <= mx2 * A2)
        by (apply Z.mul_le_mono_nonneg_r; lia). lia. }
    unfold A1, A2, K1 in B.
    rewrite <- !pow2_split in B by lia.
    apply Z.pow_lt_mono_r_iff in B; [|lia|unfold k1; lia].
    unfold k1 in B. pose proof (fexp_ge_emin (dig mx1 + ex1)) as G. rewrite <- He1 in G.
    rewrite He2, fexp_eq. lia. }
  assert (Ee : e1 = e2) by lia.
  assert (UU : K1 * A1 = K2 * A2).
  { unfold K1, A1, K2, A2. rewrite <- !pow2_split by lia. f_equal. unfold k1, k2. lia. }
  assert (PU : 0 < K2 * A2) by (apply Z.mul_pos_pos; assumption).
  rewrite X1, X2 in Hle. rewrite X1 in Hlt. rewrite X2 in Hc.
  rewrite UU in *.
  clearbody A1 A2 K1 K2 q1 q2 r1 r2.
  set (U := K2 * A2) in *.
  assert (UU2 : K2 * A2 = U) by reflexivity. clearbody U.
  assert (Qe : q1 = q2) by (apply (same_quotient U q1 q2 (r1 * A1) (r2 * A2)); lia).
  rewrite Qe in *.
  assert (Rle : r1 * A1 <= r2 * A2) by lia.
  destruct T1 as [T1 Ev1], T2 as [T2 Ev2].
  assert (Tie1 : 2 * r1 = K1).
  { apply (tie_from_bounds K1 r1 A1 (r2 * A2)); try assumption.
    assert (2 * r2 * A2 <= K2 * A2) by (apply Z.mul_le_mono_nonneg_r; lia). lia. }
  assert (Tie2 : 2 * r2 = K2).
  { apply (tie_from_bounds_below K2 r2 A2 (r1 * A1)); try assumption.
    assert (K1 * A1 <= 2 * r1 * A1) by (apply Z.mul_le_mono_nonneg_r; lia). lia. }
  specialize (Ev1 Tie1). specialize (Ev2 Tie2). congruence.
Qed.

End Monotone.

(** Multiplication by a positive number is monotone on positive numbers. *)
Lemma SFmul_mono m1 e1 m2 e2 my ey :
  valid_binary (S754_finite false m1 e1) = true ->
  valid_binary (S754_finite false m2 e2) = true ->
  valid_binary (S754_finite false my ey) = true ->
  SFleb (S754_finite false m1 e1) (S754_finite false m2 e2) = true ->
  SFleb (SF64mul (S754_finite false m1 e1) (S754_finite false my ey))
        (SF64mul (S754_finite false m2 e2) (S754_finite false my ey)) = true.
Proof.
  intros V1 V2 Vy H.
  destruct (valid_canon _ _ _ V1) as [C1 _].
  destruct (valid_canon _ _ _ V2) as [C2 _].
  destruct (valid_canon _ _ _ Vy) as [Cy _].
  pose proof (canon_bounds _ _ C1) as (L1 & _).
  pose proof (canon_bounds _ _ C2) as (L2 & _).
  pose proof (canon_bounds _ _ Cy) as (Ly & _).
  unfold SF64mul, SFmul. simpl xorb.
  apply (bra_mono (Zpos (m1 * my)) (e1 + ey) (Zpos (m2 * my)) (e2 + ey) (-2148));
    try lia; try (apply mul_pre; assumption).
  pose proof (SFleb_aligned false m1 e1 false m2 e2 (-1074) V1 V2 L1 L2 H) as A.
  unfold aligned, cond_Zopp in A.
  replace (e1 + ey - -2148) with ((e1 - -1074) + (ey - -1074)) by lia.
  replace (e2 + ey - -2148) with ((e2 - -1074) + (ey - -1074)) by lia.
  rewrite !pow2_split by lia. rewrite !Pos2Z.inj_mul.
  pose proof (pow2_pos (ey - -1074) ltac:(lia)) as Py.
  set (Y := Zpos my * 2 ^ (ey - -1074)).
  assert (PY : 0 < Y) by (unfold Y; apply Z.mul_pos_pos; lia).
  replace (Zpos m1 * Zpos my * (2 ^ (e1 - -1074) * 2 ^ (ey - -1074)))
    with (Zpos m1 * 2 ^ (e1 - -1074) * Y) by (unfold Y; ring).
  replace (Zpos m2 * Zpos my * (2 ^ (e2 - -1074) * 2 ^ (ey - -1074)))
    with (Zpos m2 * 2 ^ (e2 - -1074) * Y) by (unfold Y; ring).
  apply Z.mul_le_mono_nonneg_r; lia.
Qed.

End NearestFacts.

(** * Ranks and order statistics *)

Module RankFacts.

Import B64 B64Facts DblFacts Benchmark Spec StatsFacts RunFacts ReportFacts.
Import ArithFacts NearestFacts.

Local Open Scope Z_scope.

Lemma scaled_of_Z z : 0 < z < 2 ^ 53 ->
  exists m e, binary_normalize prec emax z 0 false = S754_finite false m e /\
    valid_binary (S754_finite false m e) = true /\ -1074 <= e /\
    Zpos m * 2 ^ (e + 1074) = z * unit1074.
Proof.
  intros Hz. destruct (normalize_exact z Hz) as (m & e & E & C & He & Hm).
  exists m, e. split; [assumption|].
  assert (V : valid_binary (S754_finite false m e) = true).
  { rewrite <- E. apply binary_normalize_valid. }
  pose proof (canon_bounds _ _ C) as (L & _).
  repeat split; auto.
  rewrite Hm. unfold unit1074.
  replace (2 ^ 1074) with (2 ^ ((- e) + (e + 1074))) by (f_equal; lia).
  rewrite (pow2_split (- e) (e + 1074)) by lia. ring.
Qed.

(** Two rounded products [c1 * z] and [c3 * z] lie on either side of an
    integer that lies between the exact products. *)
Lemma mul_of_Z_sep c1 c3 z k :
  (0 <=? c1)%float = true -> (c1 <=? 1)%float = true ->
  (0 <=? c3)%float = true -> (c3 <=? 1)%float = true ->
  0 < z < 2 ^ 53 -> 0 < k < 2 ^ 53 ->
  scaled (Prim2SF c1) * z <= k * unit1074 ->
  k * unit1074 <= scaled (Prim2SF c3) * z ->
  rank c1 z <= k <= rank c3 z.
Proof.
  intros A1 A2 A3 A4 Hz Hk H1 H3.
  destruct (mul_of_Z_bound c1 z A1 A2 ltac:(lia)) as (F1 & N1 & B1 & B1').
  destruct (mul_of_Z_bound c3 z A3 A4 ltac:(lia)) as (F3 & N3 & B3 & B3').
  pose proof (Prim2SF_valid (c1 * Dbl.of_Z z)%float) as V1.
  pose proof (Prim2SF_valid (c3 * Dbl.of_Z z)%float) as V3.
  pose proof unit1074_pos as U.
  unfold rank.
  rewrite !mul_spec, !of_Z_SF in *.
  rewrite FloatAxioms.leb_spec in A1, A3.
  change (Prim2SF 0) with (S754_zero false) in A1, A3.
  pose proof (Prim2SF_valid c1) as Vc1. pose proof (Prim2SF_valid c3) as Vc3.
  destruct (scaled_of_Z z Hz) as (mm & em & E & Vm & Lm & Hmm).
  destruct (scaled_of_Z k Hk) as (mk & ek & _ & Vk & Lk & Hmk).
  rewrite E in *.
  assert (Sk : scaled (S754_finite false mk ek) = k * unit1074) by exact Hmk.
  assert (P : forall m e, -1074 <= e ->
            Zpos m * Zpos mm * 2 ^ (e + em + 2148) =
            (Zpos m * 2 ^ (e + 1074)) * z * unit1074).
  { intros m e He.
    replace (e + em + 2148) with ((e + 1074) + (em + 1074)) by lia.
    rewrite (pow2_split (e + 1074) (em + 1074)) by lia.
    transitivity ((Zpos m * 2 ^ (e + 1074)) * (z * unit1074)); [|ring].
    rewrite <- Hmm. ring. }
  assert (Q : Zpos mk * 2 ^ (ek + 2148) = k * unit1074 * unit1074).
  { replace (ek + 2148) with ((ek + 1074) + 1074) by lia.
    rewrite (pow2_split (ek + 1074) 1074) by lia. fold unit1074.
    transitivity ((k * unit1074) * unit1074); [|ring].
    rewrite <- Hmk. ring. }
  split.
  - apply Z.div_le_upper_bound; [assumption|]. rewrite Z.mul_comm, <- Sk.
    destruct (Prim2SF c1) as [s1|s1| |s1 m1 e1] eqn:E1; try discriminate;
      try (destruct s1; discriminate).
    + replace (scaled (SF64mul (S754_zero s1) (S754_finite false mm em))) with 0
        by reflexivity.
      rewrite Sk. lia.
    + destruct s1; [discriminate A1|].
      apply SFleb_scaled; auto.
      destruct (valid_canon _ _ _ Vc1) as [C1 _].
      pose proof (canon_bounds _ _ C1) as (Lc1 & _).
      apply SFmul_le; auto.
      rewrite P, Q by assumption. unfold scaled, cond_Zopp in H1.
      apply Z.mul_le_mono_nonneg_r; [lia|assumption].
  - apply Z.div_le_lower_bound; [assumption|]. rewrite Z.mul_comm, <- Sk.
    destruct (Prim2SF c3) as [s3|s3| |s3 m3 e3] eqn:E3; try discriminate;
      try (destruct s3; discriminate).
    + exfalso. unfold scaled in H3. lia.
    + destruct s3; [discriminate A3|].
      apply SFleb_scaled; auto.
      destruct (valid_canon _ _ _ Vc3) as [C3 _].
      pose proof (canon_bounds _ _ C3) as (Lc3 & _).
      apply SFmul_ge; auto.
      rewrite P, Q by assumption. unfold scaled, cond_Zopp in H3.
      apply Z.mul_le_mono_nonneg_r; [lia|assumption].
Qed.

(** The index that [percentile] computes grows with the factor. *)
Lemma rank_mono p q z :
  (0 <=? p)%float = true -> (p <=? q)%float = true -> (q <=? 1)%float = true ->
  0 <= z < 2 ^ 53 -> rank p z <= rank q z.
Proof.
  intros A1 A2 A3 Hz.
  assert (A4 : (p <=? 1)%float = true) by (eapply leb_trans; eassumption).
  assert (A5 : (0 <=? q)%float = true) by (eapply leb_trans; eassumption).
  destruct (mul_of_Z_bound p z A1 A4 Hz) as (F1 & N1 & B1 & B1').
  destruct (mul_of_Z_bound q z A5 A3 Hz) as (F3 & N3 & B3 & B3').
  pose proof unit1074_pos as U.
  unfold rank. apply Z.div_le_mono; [assumption|].
  destruct (Z.eq_dec z 0) as [Z0|NZ]; [subst z; lia|].
  pose proof (Prim2SF_valid (p * Dbl.of_Z z)%float) as V1.
  pose proof (Prim2SF_valid (q * Dbl.of_Z z)%float) as V3.
  rewrite !mul_spec, !of_Z_SF in *.
  rewrite FloatAxioms.leb_spec in A1, A2, A3.
  change (Prim2SF 0) with (S754_zero false) in A1.
  pose proof (Prim2SF_valid p) as Vp. pose proof (Prim2SF_valid q) as Vq.
  destruct (scaled_of_Z z ltac:(lia)) as (mm & em & E & Vm & Lm & Hmm).
  rewrite E in *.
  destruct (Prim2SF p) as [sp|sp| |sp mp ep] eqn:Ep; try discriminate;
    try (destruct sp; discriminate).
  - replace (scaled (SF64mul (S754_zero sp) (S754_finite false mm em))) with 0
      by reflexivity.
    assumption.
  - destruct sp; [discriminate A1|].
    destruct (Prim2SF q) as [sq|sq| |sq mq eq] eqn:Eq; try discriminate;
      try (destruct sq; discriminate).
    destruct sq; [discriminate A2|].
    apply SFleb_scaled; auto.
    apply SFmul_mono; assumption.
Qed.

(** Ordered ranks give ordered percentiles. *)
Lemma percentile_le v c1 c3 a b :
  no_nan v -> v <> [] -> Dbl.size v <= 2 ^ 53 ->
  (0 <=? c1)%float = true -> (c1 <=? 1)%float = true ->
  (0 <=? c3)%float = true -> (c3 <=? 1)%float = true ->
  rank c1 (Dbl.size v - 1) <= rank c3 (Dbl.size v - 1) ->
  percentile v c1 = Some a -> percentile v c3 = Some b -> le a b.
Proof.
  intros Hn Hne Hsz A1 A2 A3 A4 Hr P1 P3.
  destruct (percentile_defined v c1 Hne Hsz A1 A2) as (i1 & x1 & _ & R1 & E1 & N1 & Q1).
  destruct (percentile_defined v c3 Hne Hsz A3 A4) as (i3 & x3 & _ & R3 & E3 & N3 & Q3).
  rewrite P1 in Q1. rewrite P3 in Q3. inversion Q1; inversion Q3; subst x1 x3.
  fold (rank c1 (Dbl.size v - 1)) in E1. fold (rank c3 (Dbl.size v - 1)) in E3.
  apply (sorted_nth (sort v) (sort_sorted v Hn) (sort_no_nan v Hn)
           (Z.to_nat i1) (Z.to_nat i3)); auto. lia.
Qed.

Lemma min_from_spec l : forall best,
  is_nan best = false -> no_nan l ->
  In (min_from best l) (best :: l) /\
  le (min_from best l) best /\ Forall (le (min_from best l)) l.
Proof.
  induction l as [|x l IH]; intros best Hb Hl; simpl min_from.
  - repeat split; [left; reflexivity|apply leb_refl; assumption|constructor].
  - inversion Hl as [|? ? Hx Hl']; subst.
    destruct (x <? best)%float eqn:E.
    + destruct (IH x Hx Hl') as (I & L & F).
      split; [destruct I as [I|I]; [right; left; exact I|right; right; exact I]|].
      split; [eapply leb_trans; [exact L|apply ltb_true_leb; exact E]|].
      constructor; assumption.
    + destruct (IH best Hb Hl') as (I & L & F).
      split; [destruct I as [I|I]; [left; exact I|right; right; exact I]|].
      split; [exact L|].
      constructor; [|assumption].
      eapply leb_trans; [exact L|]. apply ltb_false_leb; assumption.
Qed.

Lemma max_from_spec l : forall best,
  is_nan best = false -> no_nan l ->
  In (max_from best l) (best :: l) /\
  le best (max_from best l) /\ Forall (fun x => le x (max_from best l)) l.
Proof.
  induction l as [|x l IH]; intros best Hb Hl; simpl max_from.
  - repeat split; [left; reflexivity|apply leb_refl; assumption|constructor].
  - inversion Hl as [|? ? Hx Hl']; subst.
    destruct (best <? x)%float eqn:E.
    + destruct (IH x Hx Hl') as (I & L & F).
      split; [destruct I as [I|I]; [right; left; exact I|right; right; exact I]|].
      split; [eapply leb_trans; [apply ltb_true_leb; exact E|exact L]|].
      constructor; assumption.
    + destruct (IH best Hb Hl') as (I & L & F).
      split; [destruct I as [I|I]; [left; exact I|right; right; exact I]|].
      split; [exact L|].
      constructor; [|assumption].
      eapply leb_trans; [|exact L]. apply ltb_false_leb; assumption.
Qed.

Lemma min_element_spec v mn :
  no_nan v -> min_element v = Some mn -> In mn v /\ Forall (le mn) v.
Proof.
  destruct v as [|x l]; [discriminate|]. intros Hn H. simpl in H. inversion H; subst.
  inversion Hn as [|? ? Hx Hl]; subst.
  destruct (min_from_spec l x Hx Hl) as (I & L & F).
  split; [assumption|constructor; assumption].
Qed.

Lemma max_element_spec v mx :
  no_nan v -> max_element v = Some mx -> In mx v /\ Forall (fun x => le x mx) v.
Proof.
  destruct v as [|x l]; [discriminate|]. intros Hn H. simpl in H. inversion H; subst.
  inversion Hn as [|? ? Hx Hl]; subst.
  destruct (max_from_spec l x Hx Hl) as (I & L & F).
  split; [assumption|constructor; assumption].
Qed.

Lemma rank_zero z : 0 <= z < 2 ^ 53 -> rank 0%float z = 0.
Proof.
  intros Hz. unfold rank.
  destruct (mul_of_Z_bound 0%float z eq_refl eq_refl Hz) as (_ & _ & B0 & _).
  rewrite mul_spec, of_Z_SF in *.
  change (Prim2SF 0) with (S754_zero false) in *.
  destruct (binary_normalize prec emax z 0 false) as [s|s| |s m e]; reflexivity.
Qed.

Lemma rank_one z : 0 <= z < 2 ^ 53 -> rank 1%float z = z.
Proof.
  intros Hz. pose proof unit1074_pos as U.
  destruct (mul_of_Z_bound 1%float z eq_refl eq_refl Hz) as (_ & _ & B0 & B1).
  assert (Hu : rank 1%float z <= z).
  { unfold rank. apply Z.div_le_upper_bound; lia. }
  destruct (Z.eq_dec z 0) as [->|NZ].
  - unfold rank. assert (scaled (Prim2SF (1 * Dbl.of_Z 0)) = 0) by lia.
    rewrite H. reflexivity.
  - assert (S1 : scaled (Prim2SF 1) = unit1074) by reflexivity.
    destruct (mul_of_Z_sep 1%float 1%float z z eq_refl eq_refl eq_refl eq_refl
                ltac:(lia) ltac:(lia)) as [_ Hl]; [rewrite S1; lia|rewrite S1; lia|].
    lia.
Qed.

Lemma percentile_sort v p : no_nan v -> percentile (sort v) p = percentile v p.
Proof.
  intros Hn. unfold percentile. rewrite (sort_id (sort v)); [reflexivity|].
  apply sort_sorted; assumption.
Qed.

Lemma repeat_sorted c n : is_nan c = false -> StronglySorted le (repeat c n).
Proof.
  intros H. induction n as [|n IH]; simpl; constructor; [assumption|].
  apply Forall_forall. intros x Hx. apply repeat_spec in Hx. subst x.
  apply leb_refl. assumption.
Qed.

Lemma filter_repeat {A} (f : A -> bool) c n : f c = true -> filter f (repeat c n) = repeat c n.
Proof. intros H. induction n as [|n IH]; simpl; [reflexivity|]. rewrite H, IH. reflexivity. Qed.

Lemma repeat_finite c n : is_finite c = true -> all_finite (repeat c n).
Proof.
  intros H. apply Forall_forall. intros x Hx. apply repeat_spec in Hx. subst x. assumption.
Qed.

End RankFacts.

(** * The runner and the clock *)

Module ClockFacts.

Import B64 B64Facts DblFacts Benchmark Spec StatsFacts RunFacts ReportFacts.
Import ArithFacts.

Section Invocations.

Variable World : Type.
Variable time_point : Type.
Variable now : World -> time_point * World.
Variable ms_between : time_point -> time_point -> float.
Variable func : World -> World.

(** [calls] counts the invocations of the operation, [reads] the readings
    of the clock. *)
Variables calls reads : World -> nat.
Hypothesis calls_func : forall w, calls (func w) = S (calls w).
Hypothesis calls_now : forall w, calls (snd (now w)) = calls w.
Hypothesis reads_func : forall w, reads (func w) = reads w.
Hypothesis reads_now : forall w, reads (snd (now w)) = S (reads w).

Lemma batch_counts j w :
  calls (batch World func j w) = (calls w + j)%nat /\
  reads (batch World func j w) = reads w.
Proof.
  revert w. induction j as [|j IH]; intros w; simpl; [split; lia|].
  destruct (IH (func w)) as [-> ->]. rewrite calls_func, reads_func. split; lia.
Qed.

Lemma warmup_loop_counts i bs w :
  calls (warmup_loop World func i bs w) = (calls w + i * bs)%nat /\
  reads (warmup_loop World func i bs w) = reads w.
Proof.
  revert w. induction i as [|i IH]; intros w; simpl; [split; lia|].
  destruct (IH (batch World func bs w)) as [-> ->].
  destruct (batch_counts bs w) as [-> ->]. split; lia.
Qed.

Lemma overhead_loop_counts i total w :
  calls (snd (overhead_loop World time_point now ms_between i total w)) = calls w /\
  reads (snd (overhead_loop World time_point now ms_between i total w)) = (reads w + 2 * i)%nat.
Proof.
  revert total w. induction i as [|i IH]; intros total w; simpl; [split; lia|].
  pose proof (calls_now w) as C1. pose proof (reads_now w) as R1.
  destruct (now w) as [s w1]. simpl in C1, R1.
  pose proof (calls_now w1) as C2. pose proof (reads_now w1) as R2.
  destruct (now w1) as [e w2]. simpl in C2, R2.
  destruct (IH (total + ms_between s e)%float w2) as [-> ->]. split; lia.
Qed.

Lemma timed_loop_counts i bs oh acc w :
  calls (snd (timed_loop World time_point now ms_between func i bs oh acc w))
    = (calls w + i * bs)%nat /\
  reads (snd (timed_loop World time_point now ms_between func i bs oh acc w))
    = (reads w + 2 * i)%nat.
Proof.
  revert acc w. induction i as [|i IH]; intros acc w; simpl; [split; lia|].
  pose proof (calls_now w) as C1. pose proof (reads_now w) as R1.
  destruct (now w) as [s w1]. simpl in C1, R1.
  destruct (batch_counts bs w1) as [C2 R2].
  pose proof (calls_now (batch World func bs w1)) as C3.
  pose proof (reads_now (batch World func bs w1)) as R3.
  destruct (now (batch World func bs w1)) as [e w3]. simpl in C3, R3.
  match goal with |- context [timed_loop _ _ _ _ _ i bs oh ?a w3] =>
    destruct (IH a w3) as [-> ->] end.
  split; lia.
Qed.

Lemma run_counts b w :
  calls (snd (run World time_point now ms_between func b w))
    = (calls w + (warmup b + iterations b) * batch_size b)%nat /\
  reads (snd (run World time_point now ms_between func b w))
    = (reads w + 4 * iterations b)%nat.
Proof.
  unfold run, measure_overhead.
  destruct (warmup_loop_counts (warmup b) (batch_size b) w) as [C1 R1].
  set (w1 := warmup_loop World func (warmup b) (batch_size b) w) in *.
  destruct (overhead_loop_counts (iterations b) 0%float w1) as [C2 R2].
  destruct (overhead_loop World time_point now ms_between (iterations b) 0 w1) as [total w2].
  simpl in C2, R2.
  match goal with |- context [timed_loop _ _ _ _ _ ?i ?bs ?oh ?a w2] =>
    destruct (timed_loop_counts i bs oh a w2) as [C3 R3];
    destruct (timed_loop World time_point now ms_between func i bs oh a w2) as [s w3] end.
  simpl in *. split; lia.
Qed.

End Invocations.

Section SteadyClock.

Variable World : Type.
Variable time_point : Type.
Variable now : World -> time_point * World.
Variable ms_between : time_point -> time_point -> float.
Variable func : World -> World.

Hypothesis ms_nonneg : forall s e, nonneg_finite (ms_between s e).

Lemma overhead_loop_nn i total w :
  SFnn (Prim2SF total) = true ->
  SFnn (Prim2SF (fst (overhead_loop World time_point now ms_between i total w))) = true.
Proof.
  revert total w. induction i as [|i IH]; intros total w H; simpl; [assumption|].
  destruct (now w) as [s w1]. destruct (now w1) as [e w2].
  apply IH. rewrite add_spec. apply SFadd_nn; [assumption|].
  apply nonneg_finite_nn, ms_nonneg.
Qed.

Lemma measure_overhead_nn b w :
  (1 <= Z.of_nat (iterations b) <= 2 ^ 64)%Z ->
  SFnn (Prim2SF (fst (measure_overhead World time_point now ms_between b w))) = true.
Proof.
  intros Hb. unfold measure_overhead.
  pose proof (overhead_loop_nn (iterations b) 0%float w eq_refl) as H.
  destruct (overhead_loop _ _ _ _ _ _ _) as [total w']. simpl in *.
  destruct (of_Z_pos_finite (Z.of_nat (iterations b)) ltac:(lia)) as (m & e & E).
  rewrite div_spec, E. apply SFdiv_nn. assumption.
Qed.

Lemma raws_nonneg i bs w :
  Forall nonneg_finite (timed_raws now ms_between func i bs w).
Proof.
  revert w. induction i as [|i IH]; intros w; simpl; [constructor|].
  destruct (now w) as [start w1].
  destruct (now (batch World func bs w1)) as [end_ w3].
  constructor; [apply ms_nonneg|apply IH].
Qed.

Lemma run_samples_bounded b w :
  (1 <= Z.of_nat (iterations b) <= 2 ^ 64)%Z ->
  let calibrated :=
    measure_overhead World time_point now ms_between b
      (warmup_loop World func (warmup b) (batch_size b) w) in
  Forall (fun raw =>
            is_finite (clamp (raw - fst calibrated)) = true /\
            (0 <=? clamp (raw - fst calibrated))%float = true /\
            (clamp (raw - fst calibrated) <=? raw)%float = true)
    (timed_raws now ms_between func (iterations b) (batch_size b) (snd calibrated)).
Proof.
  intros Hb. cbv zeta.
  eapply Forall_impl; [|apply raws_nonneg].
  intros raw Hraw. apply sample_bounds; [assumption|].
  apply measure_overhead_nn. assumption.
Qed.

Lemma run_samples_finite b w :
  (1 <= Z.of_nat (iterations b) <= 2 ^ 64)%Z ->
  all_finite (samples (fst (run World time_point now ms_between func b w))) /\
  List.length (samples (fst (run World time_point now ms_between func b w))) = iterations b.
Proof.
  intros Hb. rewrite run_samples. split.
  - apply Forall_map. eapply Forall_impl; [|apply (run_samples_bounded b w Hb)].
    intros raw H. apply H.
  - rewrite length_map, raws_length. reflexivity.
Qed.

End SteadyClock.

Lemma write_file_other fs path text q :
  q <> path -> contents (write_file fs path text) q = contents fs q.
Proof.
  intros H. simpl. destruct (String.eqb_spec q path); [contradiction|reflexivity].
Qed.

End ClockFacts.

(** * The stopwatch under a steady clock *)

Module StopwatchFacts.

Import B64 B64Facts DblFacts ArithFacts Stopwatch StopwatchSpec.

Section Steady.

Variable World : Type.
Variable time_point : Type.
Variable now : World -> time_point * World.
Variable seconds_between : time_point -> time_point -> float.

(** A steady clock: [last w] is a time that no later reading precedes. *)
Variable before : time_point -> time_point -> Prop.
Variable last : World -> time_point.
Hypothesis before_trans : forall a b c, before a b -> before b c -> before a c.
Hypothesis now_steady : forall w,
  before (last w) (fst (now w)) /\ before (fst (now w)) (last (snd (now w))).
Hypothesis seconds_nonneg : forall s e,
  before s e -> (0 <=? seconds_between s e)%float = true.

Local Abbreviation steady_inv := (steady_inv World time_point before last).

Lemma add_duration_nn acc s e :
  SFnn (Prim2SF acc) = true -> before s e ->
  SFnn (Prim2SF (acc + seconds_between s e)) = true.
Proof.
  intros H B. rewrite add_spec. apply SFadd_nn; [assumption|].
  apply SFleb_zero_nn. change (S754_zero false) with (Prim2SF 0).
  rewrite <- FloatAxioms.leb_spec. apply seconds_nonneg. assumption.
Qed.

Lemma step_steady c sw w :
  steady_inv sw w ->
  steady_inv (fst (step World time_point now seconds_between c sw w))
             (snd (step World time_point now seconds_between c sw w)).
Proof.
  intros [A R]. destruct (now_steady w) as [N1 N2].
  destruct c; simpl; unfold start, pause, resume, stop.
  - destruct (now w) as [n w']. simpl in *. split; [reflexivity|auto].
  - destruct (running sw) eqn:E; [|split; simpl; [assumption|congruence]].
    destruct (now w) as [n w']. simpl in *. split; [|discriminate].
    apply add_duration_nn; eauto.
  - destruct (running sw) eqn:E; simpl; [split; simpl; auto|].
    destruct (now w) as [n w']. simpl in *. split; auto.
  - destruct (running sw) eqn:E; [|split; simpl; [assumption|congruence]].
    destruct (now w) as [n w']. simpl in *. split; [|discriminate].
    apply add_duration_nn; eauto.
Qed.

Lemma perform_steady cs : forall sw w,
  steady_inv sw w ->
  steady_inv (fst (perform World time_point now seconds_between cs sw w))
             (snd (perform World time_point now seconds_between cs sw w)).
Proof.
  induction cs as [|c cs IH]; intros sw w H; simpl; [assumption|].
  pose proof (step_steady c sw w H) as S.
  destruct (step World time_point now seconds_between c sw w) as [sw' w'].
  apply IH. exact S.
Qed.

Lemma total_steady sw w :
  steady_inv sw w ->
  SFnn (Prim2SF (fst (total World time_point now seconds_between sw w))) = true.
Proof.
  intros [A R]. unfold total. destruct (now_steady w) as [N1 N2].
  destruct (running sw); [|assumption].
  destruct (now w) as [n w']. simpl in *.
  apply add_duration_nn; eauto.
Qed.

End Steady.

End StopwatchFacts.

(** * Stream buffers *)

Module SnatchFacts.

Import snatch tick.

Lemma store_length {A} a (x : A) l : List.length (store a x l) = List.length l.
Proof.
  revert a. induction l as [|y l IH]; intros [|a]; simpl; auto.
Qed.

Lemma nth_error_store_same {A} a (x : A) l :
  a < List.length l -> nth_error (store a x l) a = Some x.
Proof.
  revert a. induction l as [|y l IH]; intros [|a] H; simpl in *; try lia; auto.
  apply IH. lia.
Qed.

Lemma nth_error_store_other {A} a b (x : A) l :
  a <> b -> nth_error (store a x l) b = nth_error l b.
Proof.
  revert a b. induction l as [|y l IH]; intros [|a] [|b] H; simpl; auto; try congruence.
Qed.

Lemma store_store {A} a (x y : A) l : store a y (store a x l) = store a y l.
Proof.
  revert a. induction l as [|z l IH]; intros [|a]; simpl; auto. rewrite IH. reflexivity.
Qed.

Lemma store_same {A} a (x : A) l : nth_error l a = Some x -> store a x l = l.
Proof.
  revert a. induction l as [|z l IH]; intros [|a] H; simpl in *; try congruence.
  rewrite IH by assumption. reflexivity.
Qed.

Lemma store_fresh {A} (x y : A) l :
  store (List.length l) y (l ++ [x]) = l ++ [y].
Proof. induction l as [|z l IH]; simpl; [reflexivity|]. rewrite IH. reflexivity. Qed.

Lemma store_app_l {A} a (x y : A) l :
  a < List.length l -> store a x (l ++ [y]) = store a x l ++ [y].
Proof.
  revert a. induction l as [|z l IH]; intros [|a] H; simpl in *; try lia; auto.
  rewrite IH by lia. reflexivity.
Qed.

Lemma nth_error_fresh {A} (x : A) l : nth_error (l ++ [x]) (List.length l) = Some x.
Proof. rewrite nth_error_app2, Nat.sub_diag by lia. reflexivity. Qed.

Lemma length_snoc {A} (x : A) l : List.length (l ++ [x]) = S (List.length l).
Proof. rewrite length_app. simpl. lia. Qed.

Lemma nth_error_fresh2_0 {A} (x y : A) l :
  nth_error ((l ++ [x]) ++ [y]) (List.length l) = Some x.
Proof. rewrite nth_error_app1 by (rewrite length_snoc; lia). apply nth_error_fresh. Qed.

Lemma nth_error_fresh2_1 {A} (x y : A) l :
  nth_error ((l ++ [x]) ++ [y]) (S (List.length l)) = Some y.
Proof. rewrite <- (length_snoc x). apply nth_error_fresh. Qed.

Lemma store_fresh2_0 {A} (x y z : A) l :
  store (List.length l) z ((l ++ [x]) ++ [y]) = (l ++ [z]) ++ [y].
Proof. rewrite store_app_l by (rewrite length_snoc; lia). rewrite store_fresh. reflexivity. Qed.

Lemma store_fresh2_1 {A} (x y z : A) l :
  store (S (List.length l)) z ((l ++ [x]) ++ [y]) = (l ++ [x]) ++ [z].
Proof. rewrite <- (length_snoc x). apply store_fresh. Qed.

Lemma nth_error_lt {A} (l : list A) a x : nth_error l a = Some x -> a < List.length l.
Proof. intros H. apply nth_error_Some. congruence. Qed.

Lemma append_nil_r (s : string) : (s ++ EmptyString)%string = s.
Proof. induction s as [|c s IH]; simpl; [reflexivity|]. rewrite IH. reflexivity. Qed.

Lemma append_cons (s : string) c (t : string) :
  ((s ++ String c EmptyString) ++ t)%string = (s ++ String c t)%string.
Proof. induction s as [|d s IH]; simpl; [reflexivity|]. rewrite IH. reflexivity. Qed.

(** Writing into a string buffer appends the text. *)
Lemma sputn_string fuel text : forall bs a s,
  nth_error bs a = Some (StringBuf s) ->
  sputn (S fuel) bs (Some a) text = Done (store a (StringBuf (s ++ text)) bs).
Proof.
  induction text as [|c text IH]; intros bs a s H.
  - simpl. rewrite append_nil_r, store_same by assumption. reflexivity.
  - cbn [sputn sputc]. rewrite H. cbn [rbind].
    rewrite (IH _ a (s ++ String c EmptyString)%string).
    + rewrite store_store, append_cons. reflexivity.
    + apply nth_error_store_same. eapply nth_error_lt; eassumption.
Qed.

(** Writing into a [TeeBuffer] appends the text to both buffers. *)
Lemma sputn_tee fuel text : forall bs tb a b s1 s2,
  nth_error bs tb = Some (TeeBuffer (Some a) (Some b)) ->
  nth_error bs a = Some (StringBuf s1) ->
  nth_error bs b = Some (StringBuf s2) ->
  a <> b ->
  sputn (S (S fuel)) bs (Some tb) text =
  Done (store b (StringBuf (s2 ++ text)) (store a (StringBuf (s1 ++ text)) bs)).
Proof.
  induction text as [|c text IH]; intros bs tb a b s1 s2 Ht Ha Hb Hab.
  - simpl. rewrite !append_nil_r.
    rewrite (store_same a) by assumption. rewrite store_same by assumption. reflexivity.
  - assert (Hta : tb <> a) by (intros ->; congruence).
    assert (Htb : tb <> b) by (intros ->; congruence).
    pose proof (nth_error_lt _ _ _ Ha) as La. pose proof (nth_error_lt _ _ _ Hb) as Lb.
    cbn [sputn]. cbn [sputc]. rewrite Ht. cbn [sputc]. rewrite Ha. cbn [rbind].
    rewrite nth_error_store_other, Hb by assumption. cbn [rbind].
    rewrite (IH _ tb a b (s1 ++ String c EmptyString)%string
                      (s2 ++ String c EmptyString)%string).
    + rewrite !append_cons. f_equal.
      set (x1 := StringBuf (s1 ++ String c text)).
      set (x2 := StringBuf (s2 ++ String c text)).
      clear - Hab. revert a b Hab.
      induction bs as [|z bs IHb]; intros [|a] [|b] Hab; simpl; auto; try congruence.
      * rewrite store_store. reflexivity.
      * rewrite store_store. reflexivity.
      * rewrite IHb by congruence. reflexivity.
    + rewrite !nth_error_store_other by congruence. assumption.
    + rewrite nth_error_store_other by congruence.
      apply nth_error_store_same. assumption.
    + apply nth_error_store_same. rewrite store_length. assumption.
    + assumption.
Qed.

Local Open Scope string_scope.

(** Writing to [std::cout] while it points to the string buffer at [a]. *)
Lemma write_cout_string p a s text :
  cout_rdbuf p = Some a -> nth_error (bufs p) a = Some (StringBuf s) ->
  write_cout text p = Done (set_bufs (store a (StringBuf (s ++ text)) (bufs p)) p).
Proof.
  intros Hc Ha. unfold write_cout, write. rewrite Hc.
  rewrite (sputn_string _ text _ a s Ha). reflexivity.
Qed.

Lemma write_cerr_string p a s text :
  cerr_rdbuf p = Some a -> nth_error (bufs p) a = Some (StringBuf s) ->
  write_cerr text p = Done (set_bufs (store a (StringBuf (s ++ text)) (bufs p)) p).
Proof.
  intros Hc Ha. unfold write_cerr, write. rewrite Hc.
  rewrite (sputn_string _ text _ a s Ha). reflexivity.
Qed.

Lemma write_cout_next p a s t :
  cout_rdbuf p = Some a -> nth_error (bufs p) a = Some (StringBuf s) ->
  exists q, write_cout t p = Done q /\
    q = set_bufs (store a (StringBuf (s ++ t)) (bufs p)) p /\
    cout_rdbuf q = Some a /\ nth_error (bufs q) a = Some (StringBuf (s ++ t)).
Proof.
  intros Hc Ha. eexists. split; [apply write_cout_string; eassumption|].
  split; [reflexivity|]. split; [exact Hc|].
  apply nth_error_store_same. eapply nth_error_lt; eassumption.
Qed.

Section Lines.

Variable World : Type.
Variable time_point : Type.
Variable now : World -> time_point * World.
Variable seconds_between : time_point -> time_point -> float.
Variable to_string : float -> string.

Lemma Timer_drop_string t w p a s :
  cout_rdbuf p = Some a -> nth_error (bufs p) a = Some (StringBuf s) ->
  Timer_drop World time_point now seconds_between to_string t w p =
  Done (snd (now w),
        set_bufs (store a (StringBuf (s ++ "Timer took " ++
                    format_duration to_string
                      (seconds_between (start t) (fst (now w))) (unit t) ++ endl))
                    (bufs p)) p).
Proof.
  intros Hc Ha. unfold Timer_drop. destruct (now w) as [e w']. cbn [fst snd].
  destruct (write_cout_next p a s "Timer took " Hc Ha) as (q1 & -> & E1 & C1 & N1).
  cbn [rbind].
  destruct (write_cout_next q1 a _
              (format_duration to_string (seconds_between (start t) e) (unit t)) C1 N1)
    as (q2 & -> & E2 & C2 & N2).
  cbn [rbind].
  destruct (write_cout_next q2 a _ endl C2 N2) as (q3 & -> & E3 & C3 & N3).
  cbn [rbind]. subst. unfold set_bufs. cbn [bufs cout_rdbuf cerr_rdbuf strings].
  rewrite !store_store, !ReportFacts.append_assoc. reflexivity.
Qed.

Lemma NamedTimer_drop_string t w p a s :
  cout_rdbuf p = Some a -> nth_error (bufs p) a = Some (StringBuf s) ->
  NamedTimer_drop World time_point now seconds_between to_string t w p =
  Done (snd (now w),
        set_bufs (store a (StringBuf (s ++ label t ++ ": " ++
                    format_duration to_string
                      (seconds_between (named_start t) (fst (now w))) (named_unit t)
                    ++ endl))
                    (bufs p)) p).
Proof.
  intros Hc Ha. unfold NamedTimer_drop. destruct (now w) as [e w']. cbn [fst snd].
  destruct (write_cout_next p a s (label t) Hc Ha) as (q1 & -> & E1 & C1 & N1).
  cbn [rbind].
  destruct (write_cout_next q1 a _ ": " C1 N1) as (q2 & -> & E2 & C2 & N2).
  cbn [rbind].
  destruct (write_cout_next q2 a _
              (format_duration to_string (seconds_between (named_start t) e)
                 (named_unit t)) C2 N2)
    as (q3 & -> & E3 & C3 & N3).
  cbn [rbind].
  destruct (write_cout_next q3 a _ endl C3 N3) as (q4 & -> & E4 & C4 & N4).
  cbn [rbind]. subst. unfold set_bufs. cbn [bufs cout_rdbuf cerr_rdbuf strings].
  rewrite !store_store, !ReportFacts.append_assoc. reflexivity.
Qed.

End Lines.

End SnatchFacts.

(** * [print_stats] through the stream buffer *)

Module CoutFacts.

Import snatch SnatchFacts Benchmark BenchmarkCout.

Local Open Scope string_scope.

Lemma append_nil_l (s : string) : EmptyString ++ s = s.
Proof. reflexivity. Qed.

(** A stream without a buffer takes nothing. *)
Lemma cout_all_muted texts p : cout_rdbuf p = None -> cout_all texts p = Done p.
Proof.
  intros H. induction texts as [|x texts IH]; [reflexivity|].
  cbn [cout_all]. unfold write_cout, write. rewrite H. cbn [rbind]. exact IH.
Qed.

(** One and three insertions into [std::cout] while it points to the
    string buffer at [a], which holds [s]. *)
Lemma write_cout_at x p a s :
  a < List.length (bufs p) -> cout_rdbuf p = Some a ->
  write_cout x (set_bufs (store a (StringBuf s) (bufs p)) p) =
  Done (set_bufs (store a (StringBuf (s ++ x)) (bufs p)) p).
Proof.
  intros La Hc.
  rewrite (write_cout_string _ a s x);
    [|exact Hc|apply nth_error_store_same; exact La].
  unfold set_bufs. cbn [bufs cout_rdbuf cerr_rdbuf strings].
  rewrite store_store. reflexivity.
Qed.

Lemma cout_all_1 x p a s :
  a < List.length (bufs p) -> cout_rdbuf p = Some a ->
  cout_all [x] (set_bufs (store a (StringBuf s) (bufs p)) p) =
  Done (set_bufs (store a (StringBuf (s ++ x)) (bufs p)) p).
Proof.
  intros La Hc. cbn [cout_all]. rewrite write_cout_at by assumption. reflexivity.
Qed.

Lemma cout_all_3 x y z p a s :
  a < List.length (bufs p) -> cout_rdbuf p = Some a ->
  cout_all [x; y; z] (set_bufs (store a (StringBuf s) (bufs p)) p) =
  Done (set_bufs (store a (StringBuf (s ++ x ++ y ++ z)) (bufs p)) p).
Proof.
  intros La Hc. cbn [cout_all].
  rewrite write_cout_at by assumption. cbn [rbind].
  rewrite write_cout_at by assumption. cbn [rbind].
  rewrite write_cout_at by assumption. cbn [rbind].
  rewrite !ReportFacts.append_assoc. reflexivity.
Qed.

Section Text.

Variable fmt_double : nat -> float -> string.
Variable fmt_size : nat -> string.

(** The text that [print_stats] inserts is empty without samples and
    starts with the title line otherwise. *)
Lemma print_stats_text_shape b text :
  Benchmark.print_stats fmt_double fmt_size b EmptyString = Some (b, text) ->
  (samples b = [] -> text = EmptyString) /\
  (samples b <> [] -> exists rest, text = "Benchmark results" ++ rest).
Proof.
  unfold Benchmark.print_stats. intros H.
  destruct (samples b) as [|x l].
  { inversion H; subst. split; [reflexivity|congruence]. }
  destruct (filter_outliers (x :: l)) as [clean|]; [|discriminate]. cbn [bind] in H.
  destruct (min_element clean) as [mn|]; [|discriminate]. cbn [bind] in H.
  destruct (max_element clean) as [mx|]; [|discriminate]. cbn [bind] in H.
  destruct (percentile clean 0.50) as [p50|]; [|discriminate]. cbn [bind] in H.
  destruct (percentile clean 0.90) as [p90|]; [|discriminate]. cbn [bind] in H.
  destruct (percentile clean 0.95) as [p95|]; [|discriminate]. cbn [bind] in H.
  destruct (percentile clean 0.99) as [p99|]; [|discriminate]. cbn [bind] in H.
  inversion H as [Ht]. split; [discriminate|]. intros _.
  rewrite ?append_nil_l, ?ReportFacts.append_assoc. eexists. reflexivity.
Qed.

(** Under a stream without a buffer the call returns and nothing is
    written. *)
Lemma print_stats_muted b text p :
  Benchmark.print_stats fmt_double fmt_size b EmptyString = Some (b, text) ->
  cout_rdbuf p = None ->
  BenchmarkCout.print_stats fmt_double fmt_size b p = Done (b, p).
Proof.
  unfold Benchmark.print_stats, BenchmarkCout.print_stats. intros H Hc.
  destruct (samples b) as [|x l]; [reflexivity|].
  destruct (filter_outliers (x :: l)) as [clean|]; [|discriminate].
  cbn [bind rbind value_of] in *.
  destruct (min_element clean) as [mn|]; [|discriminate]. cbn [bind rbind value_of] in *.
  destruct (max_element clean) as [mx|]; [|discriminate]. cbn [bind rbind value_of] in *.
  destruct (percentile clean 0.50) as [p50|]; [|discriminate]. cbn [bind] in H.
  destruct (percentile clean 0.90) as [p90|]; [|discriminate]. cbn [bind] in H.
  destruct (percentile clean 0.95) as [p95|]; [|discriminate]. cbn [bind] in H.
  destruct (percentile clean 0.99) as [p99|]; [|discriminate]. cbn [bind] in H.
  repeat (rewrite cout_all_muted by assumption; cbn [rbind value_of]).
  reflexivity.
Qed.

(** Under a string buffer the text is appended to it. *)
Lemma print_stats_string_at b text p a s :
  Benchmark.print_stats fmt_double fmt_size b EmptyString = Some (b, text) ->
  a < List.length (bufs p) -> cout_rdbuf p = Some a ->
  BenchmarkCout.print_stats fmt_double fmt_size b
    (set_bufs (store a (StringBuf s) (bufs p)) p) =
  Done (b, set_bufs (store a (StringBuf (s ++ text)) (bufs p)) p).
Proof.
  intros H La Hc. remember EmptyString as e eqn:He in H.
  unfold Benchmark.print_stats in H. unfold BenchmarkCout.print_stats.
  destruct (samples b) as [|x l].
  { inversion H; subst. rewrite append_nil_r. reflexivity. }
  destruct (filter_outliers (x :: l)) as [clean|]; [|discriminate].
  cbn [bind rbind value_of] in *.
  destruct (min_element clean) as [mn|]; [|discriminate]. cbn [bind rbind value_of] in *.
  destruct (max_element clean) as [mx|]; [|discriminate]. cbn [bind rbind value_of] in *.
  destruct (percentile clean 0.50) as [p50|]; [|discriminate]. cbn [bind] in H.
  destruct (percentile clean 0.90) as [p90|]; [|discriminate]. cbn [bind] in H.
  destruct (percentile clean 0.95) as [p95|]; [|discriminate]. cbn [bind] in H.
  destruct (percentile clean 0.99) as [p99|]; [|discriminate]. cbn [bind] in H.
  injection H as <-.
  rewrite cout_all_1 by assumption. cbn [rbind value_of].
  do 12 (rewrite cout_all_3 by assumption; cbn [rbind value_of]).
  subst e. unfold nl.
  repeat (progress (cbn [append]; rewrite ?ReportFacts.append_assoc)).
  reflexivity.
Qed.

Lemma print_stats_string b text p a s :
  Benchmark.print_stats fmt_double fmt_size b EmptyString = Some (b, text) ->
  cout_rdbuf p = Some a -> nth_error (bufs p) a = Some (StringBuf s) ->
  BenchmarkCout.print_stats fmt_double fmt_size b p =
  Done (b, set_bufs (store a (StringBuf (s ++ text)) (bufs p)) p).
Proof.
  intros H Hc Ha.
  pose proof (print_stats_string_at b text p a s H (nth_error_lt _ _ _ Ha) Hc) as X.
  rewrite (store_same a (StringBuf s) (bufs p) Ha) in X.
  replace (set_bufs (bufs p) p) with p in X by (destruct p; reflexivity).
  exact X.
Qed.

End Text.

End CoutFacts.

Ltac snatch_unfold :=
  unfold snatch.Guard.make, snatch.Guard.drop, snatch.Tee.make, snatch.Tee.drop,
    snatch.new_buf, snatch.str, snatch.destroy, snatch.assign,
    snatch.set_cout_rdbuf, snatch.set_cerr_rdbuf, snatch.set_bufs;
  cbn [snatch.rbind snatch.bufs snatch.cout_rdbuf snatch.cerr_rdbuf snatch.strings
       append fst snd
       snatch.Guard.buffer snatch.Guard.original_buffer snatch.Guard.destination
       snatch.Tee.buffer snatch.Tee.original_buffer snatch.Tee.destination
       snatch.Tee.tee_buffer].

(** * Further properties

    Properties of the helpers, the runner and the reports beyond the
    specification, and of the other structs of the file. *)

Import ArithFacts RankFacts ClockFacts StopwatchSpec StopwatchFacts.
Import snatch SnatchFacts Repent RepentSpec.

Lemma demo_samples_no_nan : no_nan demo_samples.
Proof. repeat constructor. Qed.

Lemma demo_samples_size : (Dbl.size demo_samples <= 2 ^ 53)%Z.
Proof. vm_compute. discriminate. Qed.

Lemma demo_ms_nonneg s e :
  is_finite (demo_ms s e) = true /\ (0 <=? demo_ms s e)%float = true.
Proof. unfold demo_ms. destruct (e - s <=? 1)%nat; split; reflexivity. Qed.

Lemma demo_seconds_nonneg s e : (s <= e)%nat -> (0 <=? demo_seconds s e)%float = true.
Proof.
  intros H. unfold demo_seconds. destruct (Nat.leb_spec s e); [|lia].
  apply SFnn_leb. rewrite of_Z_SF.
  destruct (Z.of_nat (e - s)) as [|p|p] eqn:E; [reflexivity| |lia].
  apply has_sign_nn. apply (binary_normalize_sign (Zpos p) 0 false). discriminate.
Qed.

(** X1: on a non-empty vector without NaN (of at most [2^53] elements),
    [percentile] at 0 returns a smallest element and at 1 a largest one:
    both are elements of the vector and every element lies between them. *)
Theorem percentile_extremes (v : list float) :
  v <> [] -> no_nan v -> (Dbl.size v <= 2 ^ 53)%Z ->
  exists lo hi,
    percentile v 0%float = Some lo /\ percentile v 1%float = Some hi /\
    In lo v /\ In hi v /\
    forall x, In x v -> le lo x /\ le x hi.
Proof.
  intros Hne Hn Hsz. pose proof (size_pos v Hne) as Hp.
  destruct (percentile_defined v 0%float Hne Hsz eq_refl eq_refl)
    as (i0 & lo & _ & R0 & E0 & N0 & P0).
  destruct (percentile_defined v 1%float Hne Hsz eq_refl eq_refl)
    as (i1 & hi & _ & R1 & E1 & N1 & P1).
  fold (rank 0%float (Dbl.size v - 1)%Z) in E0. rewrite rank_zero in E0 by lia.
  fold (rank 1%float (Dbl.size v - 1)%Z) in E1. rewrite rank_one in E1 by lia.
  exists lo, hi. split; [assumption|]. split; [assumption|].
  split; [eapply percentile_in; eassumption|].
  split; [eapply percentile_in; eassumption|].
  intros x Hx. apply sort_in in Hx. apply In_nth_error in Hx. destruct Hx as [j Hj].
  pose proof (nth_error_Some (sort v) j) as [L _]. specialize (L ltac:(congruence)).
  rewrite sort_length in L. unfold Dbl.size in *.
  pose proof (sort_sorted v Hn) as Hs. pose proof (sort_no_nan v Hn) as Hn'.
  split.
  - apply (sorted_nth (sort v) Hs Hn' (Z.to_nat i0) j); auto. lia.
  - apply (sorted_nth (sort v) Hs Hn' j (Z.to_nat i1)); auto. lia.
Qed.

Lemma percentile_extremes_witness :
  exists lo hi,
    percentile demo_samples 0%float = Some lo /\
    percentile demo_samples 1%float = Some hi /\
    In lo demo_samples /\ In hi demo_samples /\
    forall x, In x demo_samples -> le lo x /\ le x hi.
Proof.
  apply (percentile_extremes demo_samples);
    [discriminate|exact demo_samples_no_nan|exact demo_samples_size].
Defined.

(** X2: the values that [print_stats] and [export_csv] report are ordered:
    computed on the same vector without NaN, the minimum, the percentiles
    at 0.50, 0.90, 0.95 and 0.99 and the maximum ascend, the minimum and the
    maximum are elements of the vector, and every element lies between
    them. *)
Theorem report_values_ordered (clean : list float) (mn mx p50 p90 p95 p99 : float) :
  no_nan clean -> (Dbl.size clean <= 2 ^ 53)%Z ->
  min_element clean = Some mn -> max_element clean = Some mx ->
  percentile clean 0.50%float = Some p50 ->
  percentile clean 0.90%float = Some p90 ->
  percentile clean 0.95%float = Some p95 ->
  percentile clean 0.99%float = Some p99 ->
  In mn clean /\ In mx clean /\
  (forall x, In x clean -> le mn x /\ le x mx) /\
  le mn p50 /\ le p50 p90 /\ le p90 p95 /\ le p95 p99 /\ le p99 mx.
Proof.
  intros Hn Hsz Emn Emx E50 E90 E95 E99.
  assert (Hne : clean <> []) by (intros ->; discriminate).
  pose proof (size_pos clean Hne) as Hp.
  destruct (min_element_spec clean mn Hn Emn) as [Imn Fmn].
  destruct (max_element_spec clean mx Hn Emx) as [Imx Fmx].
  rewrite Forall_forall in Fmn, Fmx.
  split; [assumption|]. split; [assumption|]. split; [auto|].
  split; [apply Fmn; eapply percentile_in; eassumption|].
  split; [apply (percentile_le clean 0.50%float 0.90%float); auto;
          apply rank_mono; [reflexivity|reflexivity|reflexivity|lia]|].
  split; [apply (percentile_le clean 0.90%float 0.95%float); auto;
          apply rank_mono; [reflexivity|reflexivity|reflexivity|lia]|].
  split; [apply (percentile_le clean 0.95%float 0.99%float); auto;
          apply rank_mono; [reflexivity|reflexivity|reflexivity|lia]|].
  apply Fmx. eapply percentile_in; eassumption.
Qed.

Lemma report_values_ordered_witness :
  le 1 3 /\ le 3 4 /\ le 4 4 /\ le 4 4 /\ le 4 5.
Proof.
  apply (report_values_ordered demo_samples 1 5 3 4 4 4 demo_samples_no_nan
           demo_samples_size eq_refl eq_refl eq_refl eq_refl eq_refl eq_refl)%float.
Defined.

(** X3: [percentile] is monotone in its factor: on a non-empty vector
    without NaN (of at most [2^53] elements) and for [0 <= p <= q <= 1],
    both percentiles are defined and the one at [p] is at most the one at
    [q].  The index is computed with a rounded product, and rounding to
    nearest is monotone. *)
Theorem percentile_monotone (v : list float) (p q : float) :
  v <> [] -> no_nan v -> (Dbl.size v <= 2 ^ 53)%Z ->
  (0 <=? p)%float = true -> (p <=? q)%float = true -> (q <=? 1)%float = true ->
  exists a b,
    percentile v p = Some a /\ percentile v q = Some b /\ le a b.
Proof.
  intros Hne Hn Hsz A1 A2 A3.
  assert (A4 : (p <=? 1)%float = true) by (eapply leb_trans; eassumption).
  assert (A5 : (0 <=? q)%float = true) by (eapply leb_trans; eassumption).
  pose proof (size_pos v Hne) as Hp.
  destruct (percentile_defined v p Hne Hsz A1 A4) as (i1 & a & _ & _ & _ & _ & Pa).
  destruct (percentile_defined v q Hne Hsz A5 A3) as (i3 & b & _ & _ & _ & _ & Pb).
  exists a, b. split; [assumption|]. split; [assumption|].
  apply (percentile_le v p q a b); auto.
  apply rank_mono; auto. lia.
Qed.

Lemma percentile_monotone_witness :
  exists a b,
    percentile demo_samples 0.25%float = Some a /\
    percentile demo_samples 0.75%float = Some b /\ le a b.
Proof.
  apply (percentile_monotone demo_samples 0.25 0.75)%float;
    [discriminate|exact demo_samples_no_nan|exact demo_samples_size
    |reflexivity|reflexivity|reflexivity].
Defined.

(** X4: [percentile] does not check its factor [p]: with a NaN the
    conversion of the index to [size_t] is undefined, whatever the vector;
    on a single sample every finite [p], also one outside [[0,1]], returns
    that sample. *)
Theorem percentile_unchecked_rank (v : list float) (x p : float) :
  (is_nan p = true -> percentile v p = None) /\
  (is_finite p = true -> percentile [x] p = Some x).
Proof.
  split.
  - intros H. unfold percentile, percentile_index, Dbl.to_size_t.
    rewrite is_nan_SF in H. rewrite mul_spec.
    destruct (Prim2SF p); try discriminate. rewrite SFmul_nan_l. reflexivity.
  - intros H. unfold percentile. simpl sort. change (Dbl.size [x]) with 1%Z.
    unfold percentile_index, Dbl.to_size_t.
    change (Dbl.of_Z (Dbl.size_pred 1%Z)) with 0%float.
    rewrite is_finite_SF in H. rewrite mul_spec.
    change (Prim2SF 0) with (S754_zero false).
    destruct (Prim2SF p) as [s|s| |s m e]; try discriminate; reflexivity.
Qed.

Lemma percentile_unchecked_rank_witness :
  percentile [2]%float 7%float = Some 2%float.
Proof.
  apply (percentile_unchecked_rank [] 2 7)%float. reflexivity.
Defined.

(** X5: on an empty vector [percentile] (for every [p]) and
    [filter_outliers] index past the end, and [min_element] and
    [max_element] return [end()], which the reports dereference: all four
    are undefined; [mean] and [stddev] divide zero by zero and return a
    NaN. *)
Theorem empty_vector_undefined (p avg : float) :
  percentile [] p = None /\ filter_outliers [] = None /\
  min_element [] = None /\ max_element [] = None /\
  is_nan (mean []) = true /\ is_nan (stddev [] avg) = true.
Proof.
  assert (P : forall q, percentile [] q = None).
  { intros q. unfold percentile. simpl sort.
    destruct (percentile_index (Dbl.size []) q) as [idx|]; [|reflexivity].
    unfold at_index. destruct (idx <? Dbl.size [])%Z; [|reflexivity].
    destruct (Z.to_nat idx); reflexivity. }
  split; [apply P|]. split.
  - unfold filter_outliers. simpl sort. rewrite P. reflexivity.
  - repeat split; reflexivity.
Qed.

(** X6: on a non-empty vector of finite samples [filter_outliers] keeps
    both quartiles and every sample between them: the fences never cut into
    the interquartile range. *)
Theorem filter_outliers_keeps_interquartile (v : list float) :
  v <> [] -> all_finite v -> (Dbl.size v <= 2 ^ 53)%Z ->
  exists q1 q3 out,
    percentile v 0.25%float = Some q1 /\ percentile v 0.75%float = Some q3 /\
    filter_outliers v = Some out /\ le q1 q3 /\
    In q1 out /\ In q3 out /\
    (forall x, In x v -> le q1 x -> le x q3 -> In x out).
Proof.
  intros Hne Hf Hsz.
  pose proof (all_finite_no_nan v Hf) as Hn.
  destruct (filter_outliers_defined v Hne Hsz) as (q1 & q3 & P1 & P3 & E).
  pose proof (quartiles_ordered v q1 q3 Hn Hne Hsz P1 P3) as Hle.
  pose proof (percentile_in _ _ _ P1) as I1. pose proof (percentile_in _ _ _ P3) as I3.
  rewrite sort_in in I1, I3.
  pose proof Hf as Hf'. unfold all_finite in Hf'. rewrite Forall_forall in Hf'.
  destruct (fences_around q1 q3 (Hf' _ I1) (Hf' _ I3) Hle) as [Hlo Hhi].
  assert (K : forall x, In x v -> le q1 x -> le x q3 ->
            In x (filter (in_fences (lower_fence q1 q3) (upper_fence q1 q3)) (sort v))).
  { intros x Hx H1 H3. apply filter_In. split; [apply sort_in; assumption|].
    unfold in_fences. apply andb_true_iff. split.
    - eapply leb_trans; eassumption.
    - eapply leb_trans; eassumption. }
  rewrite percentile_sort in P1, P3 by assumption.
  exists q1, q3, (filter (in_fences (lower_fence q1 q3) (upper_fence q1 q3)) (sort v)).
  repeat split; auto.
  - apply K; auto. apply leb_refl. apply is_finite_notnan. auto.
  - apply K; auto. apply leb_refl. apply is_finite_notnan. auto.
Qed.

Lemma filter_outliers_keeps_interquartile_witness :
  exists q1 q3 out,
    percentile demo_samples 0.25%float = Some q1 /\
    percentile demo_samples 0.75%float = Some q3 /\
    filter_outliers demo_samples = Some out /\ le q1 q3 /\
    In q1 out /\ In q3 out /\
    (forall x, In x demo_samples -> le q1 x -> le x q3 -> In x out).
Proof.
  apply (filter_outliers_keeps_interquartile demo_samples);
    [discriminate|exact demo_samples_finite|exact demo_samples_size].
Defined.

(** X7: a vector of [n >= 1] copies of one finite value passes
    [filter_outliers] unchanged (the interquartile range is zero and the
    fences coincide with the value), and every percentile of it is that
    value. *)
Theorem filter_outliers_constant (c : float) (n : nat) :
  is_finite c = true -> (0 < n)%nat -> (Z.of_nat n <= 2 ^ 53)%Z ->
  filter_outliers (repeat c n) = Some (repeat c n) /\
  forall p, (0 <=? p)%float = true -> (p <=? 1)%float = true ->
    percentile (repeat c n) p = Some c.
Proof.
  intros Hc Hn Hb.
  assert (Hne : repeat c n <> []) by (destruct n; [lia|discriminate]).
  assert (Hsz : (Dbl.size (repeat c n) <= 2 ^ 53)%Z)
    by (unfold Dbl.size; rewrite repeat_length; assumption).
  assert (Hnan : is_nan c = false) by (apply is_finite_notnan; assumption).
  assert (P : forall p, (0 <=? p)%float = true -> (p <=? 1)%float = true ->
                percentile (repeat c n) p = Some c).
  { intros p H0 H1.
    destruct (percentile_defined _ p Hne Hsz H0 H1) as (idx & x & _ & _ & _ & _ & E).
    pose proof (percentile_in _ _ _ E) as Hin. apply repeat_spec in Hin. subst x. exact E. }
  split; [|exact P].
  unfold filter_outliers.
  rewrite (sort_id (repeat c n)) by (apply repeat_sorted; assumption).
  rewrite !P by reflexivity.
  rewrite filter_repeat; [reflexivity|].
  apply fences_keep; auto. apply leb_refl; assumption.
Qed.

Lemma filter_outliers_constant_witness :
  filter_outliers (repeat 2%float 3) = Some (repeat 2%float 3).
Proof.
  apply (filter_outliers_constant 2%float 3 eq_refl);
    [lia|vm_compute; discriminate].
Defined.

(** X8: of two distinct finite samples [filter_outliers] keeps only the
    smaller one: with two elements both quartiles are the element at index
    0, the interquartile range is zero, and the larger sample lies above
    the upper fence. *)
Theorem filter_outliers_pair (a b : float) :
  is_finite a = true -> is_finite b = true -> (a <? b)%float = true ->
  percentile [a; b] 0.25%float = Some a /\
  percentile [a; b] 0.75%float = Some a /\
  filter_outliers [a; b] = Some [a] /\ filter_outliers [b; a] = Some [a].
Proof.
  intros Fa Fb Hlt.
  assert (Hba : (b <? a)%float = false) by (apply leb_ltb_false, ltb_true_leb; assumption).
  assert (S1 : sort [a; b] = [a; b]) by (simpl; rewrite Hba; reflexivity).
  assert (S2 : sort [b; a] = [a; b]) by (simpl; rewrite Hlt; reflexivity).
  assert (P : forall p, percentile_index 2 p = Some 0%Z -> percentile [a; b] p = Some a).
  { intros p Hp. unfold percentile. rewrite S1.
    change (Dbl.size [a; b]) with 2%Z. rewrite Hp. reflexivity. }
  assert (P1 : percentile [a; b] 0.25%float = Some a) by (apply P; reflexivity).
  assert (P3 : percentile [a; b] 0.75%float = Some a) by (apply P; reflexivity).
  assert (E : filter_outliers [a; b] = Some [a]).
  { unfold filter_outliers. rewrite S1, P1, P3.
    f_equal. simpl filter.
    pose proof (fences_keep a a Fa Fa (leb_refl a (is_finite_notnan a Fa))) as K.
    rewrite K. f_equal.
    unfold in_fences. rewrite sub_self by assumption.
    change (1.5 * 0)%float with 0%float.
    destruct (b <=? a + 0)%float eqn:Hb; [|rewrite andb_false_r; reflexivity].
    exfalso. pose proof (leb_trans _ _ _ Hb (add_zero_le a Fa)) as Hc.
    rewrite (ltb_not_leb a b Hlt) in Hc. discriminate. }
  repeat split; auto.
  unfold filter_outliers. rewrite S2.
  unfold filter_outliers in E. rewrite S1 in E. exact E.
Qed.

Lemma filter_outliers_pair_witness :
  filter_outliers [1; 2]%float = Some [1]%float /\
  filter_outliers [2; 1]%float = Some [1]%float.
Proof.
  pose proof (filter_outliers_pair 1 2 eq_refl eq_refl eq_refl) as H.
  split; apply H.
Defined.

(** X9: [stddev] never returns a negative number, whatever the vector and
    the mean it is given: its result is a NaN or at least zero. *)
Theorem stddev_never_negative (v : list float) (avg : float) :
  (stddev v avg <? 0)%float = false /\
  (is_nan (stddev v avg) = true \/ (0 <=? stddev v avg)%float = true).
Proof.
  assert (H : is_nan (stddev v avg) = true \/ (0 <=? stddev v avg)%float = true)
    by apply sqrt_nonneg.
  split; [|exact H]. destruct H as [H|H].
  - rewrite FloatAxioms.ltb_spec. rewrite is_nan_SF in H.
    destruct (Prim2SF (stddev v avg)); try discriminate; reflexivity.
  - apply leb_ltb_false. exact H.
Qed.

(** X10: [run] invokes the operation exactly
    [(warmup + iterations) * batch_size] times and reads the clock exactly
    [4 * iterations] times (twice per calibration round and twice per timed
    batch), for any way of counting that the operation and the clock
    respect. *)
Theorem run_invocation_counts (World time_point : Type)
    (now : World -> time_point * World)
    (ms_between : time_point -> time_point -> float)
    (func : World -> World) (calls reads : World -> nat) (b : t) (w : World) :
  (forall w, calls (func w) = S (calls w)) ->
  (forall w, calls (snd (now w)) = calls w) ->
  (forall w, reads (func w) = reads w) ->
  (forall w, reads (snd (now w)) = S (reads w)) ->
  let w' := snd (run World time_point now ms_between func b w) in
  calls w' = (calls w + (warmup b + iterations b) * batch_size b)%nat /\
  reads w' = (reads w + 4 * iterations b)%nat.
Proof. intros. apply run_counts; assumption. Qed.

Lemma run_invocation_counts_witness :
  let w' := snd (run (nat * nat) nat demo_count_now demo_ms demo_count_func
                   (make 3) (0, 0)%nat) in
  fst w' = (0 + (1000 + 3) * 1)%nat /\ snd w' = (0 + 4 * 3)%nat.
Proof.
  apply (run_invocation_counts (nat * nat) nat demo_count_now demo_ms demo_count_func
           fst snd (make 3) (0, 0)%nat); intros [c r]; reflexivity.
Defined.



(** X12: with [iterations = 0] the calibration divides zero by zero (the
    overhead is a NaN), [run] stores no sample, and the reports that follow
    print nothing and write no file. *)
Theorem run_zero_iterations (World time_point : Type)
    (now : World -> time_point * World)
    (ms_between : time_point -> time_point -> float)
    (func : World -> World)
    (fmt_double : nat -> float -> string) (fmt_size : nat -> string)
    (b : t) (w : World) :
  iterations b = 0%nat ->
  let b' := fst (run World time_point now ms_between func b w) in
  is_nan (fst (measure_overhead World time_point now ms_between b w)) = true /\
  samples b' = [] /\
  (forall cout, print_stats fmt_double fmt_size b' cout = Some (b', cout)) /\
  (forall path mode fs, export_csv fmt_double fmt_size b' path mode fs = Returns (b', fs)).
Proof.
  intros H. cbv zeta.
  assert (S : samples (fst (run World time_point now ms_between func b w)) = []).
  { rewrite run_samples, H. reflexivity. }
  split; [unfold measure_overhead; rewrite H; reflexivity|].
  split; [exact S|]. split.
  - intros cout. unfold print_stats. rewrite S. reflexivity.
  - intros path mode fs. unfold export_csv. rewrite S. reflexivity.
Qed.

Lemma run_zero_iterations_witness :
  samples (fst (run nat nat demo_now demo_ms S (make 0) 0%nat)) = [].
Proof.
  apply (run_zero_iterations nat nat demo_now demo_ms S demo_fmt_double demo_fmt_size
           (make 0) 0%nat eq_refl).
Defined.

(** X13: whenever [export_csv] returns, the harness is unchanged, no file
    other than [filename] is touched, and in [Append] mode the previous
    contents of [filename] are a prefix of the new ones. *)
Theorem export_csv_touches_one_file
    (fmt_double : nat -> float -> string) (fmt_size : nat -> string)
    (b b' : t) (filename : string) (mode : CsvWriteMode) (fs fs' : FS) :
  export_csv fmt_double fmt_size b filename mode fs = Returns (b', fs') ->
  b' = b /\
  (forall q, can_open fs' q = can_open fs q) /\
  (forall q, q <> filename -> contents fs' q = contents fs q) /\
  (forall old, mode = Append -> contents fs filename = Some old ->
     exists rest, contents fs' filename = Some (old ++ rest)%string).
Proof.
  unfold export_csv. intros H.
  destruct (samples b) as [|x l].
  { inversion H; subst. repeat split; auto.
    intros old _ Ho. exists EmptyString. rewrite Ho. f_equal.
    clear. induction old as [|c o IH]; simpl; [reflexivity|]. rewrite <- IH. reflexivity. }
  destruct (filter_outliers (x :: l)) as [clean|]; [|discriminate].
  cbn [obind defined] in H.
  destruct (min_element clean) as [mn|]; [|discriminate]. cbn [obind defined] in H.
  destruct (max_element clean) as [mx|]; [|discriminate]. cbn [obind defined] in H.
  destruct (match mode with
            | Append => exists_ fs filename
            | Truncate => Returns false
            end) as [existing| |] eqn:Hx; [|discriminate|discriminate].
  cbn [obind] in H.
  destruct (can_open fs filename) eqn:Ho; simpl negb in H; cbv iota in H.
  - destruct (csv_row _ _ _ _ _ _ _ _) as [row|]; [|discriminate].
    cbn [obind defined] in H.
    inversion H; subst. split; [reflexivity|]. split; [reflexivity|]. split.
    + intros q Hq. apply write_file_other. assumption.
    + intros old -> Hold. rewrite contents_write, Hold.
      assert (existing = true) as ->.
      { rewrite exists_returns in Hx by (apply can_open_exists; assumption).
        rewrite Hold in Hx. inversion Hx. reflexivity. }
      simpl negb. cbv iota. eauto.
  - inversion H; subst. repeat split; auto.
    intros old _ Hold. exists EmptyString. rewrite Hold. f_equal.
    clear. induction old as [|c o IH]; simpl; [reflexivity|]. rewrite <- IH. reflexivity.
Qed.

Lemma export_csv_touches_one_file_witness :
  match export_csv demo_fmt_double demo_fmt_size demo_bench "out.csv" Truncate demo_fs with
  | Returns (b', fs') =>
      b' = demo_bench /\ contents fs' "other.csv" = contents demo_fs "other.csv"
  | Throws _ | Undef => False
  end.
Proof.
  destruct (export_csv demo_fmt_double demo_fmt_size demo_bench "out.csv" Truncate demo_fs)
    as [[b' fs']|e|] eqn:E.
  - destruct (export_csv_touches_one_file _ _ _ _ _ _ _ _ E) as (H1 & _ & H3 & _).
    split; [exact H1|apply H3; discriminate].
  - vm_compute in E. discriminate E.
  - vm_compute in E. discriminate E.
Defined.

(** X14: [print_stats] prints through the stream buffer that [std::cout]
    has when it is called, and leaves the harness as it was.  The text it
    inserts is empty when there are no samples and starts with the line
    [Benchmark results] otherwise.  A string buffer behind [std::cout]
    (the terminal) receives that text after what it held; inside a
    [snatch::Guard] the destination receives exactly that text and no
    buffer that existed before is written to; inside a [snatch::Mute]
    nothing is written at all. *)
Theorem print_stats_follows_cout
    (fmt_double : nat -> float -> string) (fmt_size : nat -> string)
    (b : t) (text : string) (dest : nat) (p : Process) :
  print_stats fmt_double fmt_size b EmptyString = Some (b, text) ->
  let print_stats := BenchmarkCout.print_stats fmt_double fmt_size in
  (samples b = [] -> text = EmptyString) /\
  (samples b <> [] -> exists rest, text = ("Benchmark results" ++ rest)%string) /\
  (forall a shown,
     cout_rdbuf p = Some a -> nth_error (bufs p) a = Some (StringBuf shown) ->
     print_stats b p =
     Done (b, set_bufs (store a (StringBuf (shown ++ text)) (bufs p)) p)) /\
  (let (g, p1) := Guard.make dest p in
   r <-- print_stats b p1 ;;
   p2 <-- Guard.drop g (snd r) ;;
   Done (fst r, p2)) =
  Done (b, {| bufs := bufs p ++ [Destroyed];
              cout_rdbuf := cout_rdbuf p; cerr_rdbuf := cerr_rdbuf p;
              strings := fun v => if Nat.eqb v dest then text else strings p v |}) /\
  (let (m, p1) := Mute.make p in
   r <-- print_stats b p1 ;;
   Done (fst r, Mute.drop m (snd r))) = Done (b, p).
Proof.
  intros H. cbv zeta.
  destruct (CoutFacts.print_stats_text_shape fmt_double fmt_size b text H) as [T0 T1].
  split; [exact T0|]. split; [exact T1|]. split; [|split].
  - intros a shown Hc Ha.
    apply (CoutFacts.print_stats_string fmt_double fmt_size b text p a shown H Hc Ha).
  - unfold Guard.make, new_buf.
    rewrite (CoutFacts.print_stats_string fmt_double fmt_size b text _
               (List.length (bufs p)) EmptyString H);
      [|reflexivity|apply nth_error_fresh].
    snatch_unfold. rewrite store_fresh, nth_error_fresh.
    snatch_unfold. rewrite store_fresh. reflexivity.
  - unfold Mute.make, Mute.drop.
    rewrite (CoutFacts.print_stats_muted fmt_double fmt_size b text _ H) by reflexivity.
    unfold set_cout_rdbuf. cbn [rbind fst snd bufs cout_rdbuf cerr_rdbuf strings
      Mute.original_buffer].
    destruct p. reflexivity.
Qed.

Lemma print_stats_follows_cout_witness :
  match print_stats demo_fmt_double demo_fmt_size demo_bench EmptyString with
  | Some (_, text) =>
      BenchmarkCout.print_stats demo_fmt_double demo_fmt_size demo_bench demo_process =
      Done (demo_bench,
            {| bufs := [StringBuf text; StringBuf EmptyString];
               cout_rdbuf := Some 0; cerr_rdbuf := Some 1;
               strings := fun _ => EmptyString |}) /\
      (let (m, p1) := Mute.make demo_process in
       r <-- BenchmarkCout.print_stats demo_fmt_double demo_fmt_size demo_bench p1 ;;
       Done (fst r, Mute.drop m (snd r))) = Done (demo_bench, demo_process)
  | None => False
  end.
Proof.
  destruct (print_stats demo_fmt_double demo_fmt_size demo_bench EmptyString)
    as [[b' text]|] eqn:E.
  - assert (b' = demo_bench) as ->.
    { clear - E. vm_compute in E. inversion E. reflexivity. }
    destruct (print_stats_follows_cout demo_fmt_double demo_fmt_size demo_bench text 7
                demo_process E) as (_ & _ & H3 & _ & H5).
    split; [|exact H5].
    rewrite (H3 0 EmptyString eq_refl eq_refl). reflexivity.
  - vm_compute in E. discriminate E.
Defined.

Local Open Scope string_scope.

(** X15: a stopwatch that is not running is frozen.  [stop] does what
    [pause] does; after either, a further [pause] or [stop] changes nothing
    and reads no clock, and the elapsed time is the accumulated time at
    every later moment; on a stopwatch that is not running [pause] is a
    no-op. *)
Theorem stopwatch_paused_is_frozen (World time_point : Type)
    (now : World -> time_point * World)
    (seconds_between : time_point -> time_point -> float)
    (sw : Stopwatch.t time_point) (w : World) :
  let pause := Stopwatch.pause World time_point now seconds_between in
  let stop := Stopwatch.stop World time_point now seconds_between in
  let total := Stopwatch.total World time_point now seconds_between in
  stop sw w = pause sw w /\
  forall sw1 w1, pause sw w = (sw1, w1) ->
    Stopwatch.running sw1 = false /\
    (forall w2, pause sw1 w2 = (sw1, w2) /\ stop sw1 w2 = (sw1, w2) /\
                total sw1 w2 = (Stopwatch.accumulated sw1, w2)) /\
    (Stopwatch.running sw = false -> sw1 = sw /\ w1 = w).
Proof.
  cbv zeta. split; [reflexivity|]. intros sw1 w1 H.
  unfold Stopwatch.pause in H. destruct (Stopwatch.running sw) eqn:R.
  - destruct (now w) as [n w']. inversion H; subst. simpl.
    split; [reflexivity|]. split; [|discriminate].
    intros w2. unfold Stopwatch.pause, Stopwatch.stop, Stopwatch.total. simpl. auto.
  - inversion H; subst. split; [assumption|]. split; [|auto].
    intros w2. unfold Stopwatch.pause, Stopwatch.stop, Stopwatch.total.
    rewrite R. auto.
Qed.

Lemma stopwatch_paused_is_frozen_witness :
  Stopwatch.running
    (fst (Stopwatch.pause nat nat demo_now demo_seconds
            (fst (Stopwatch.start nat nat demo_now (Stopwatch.init nat 0%nat) 0%nat))
            1%nat)) = false.
Proof.
  destruct (stopwatch_paused_is_frozen nat nat demo_now demo_seconds
              (fst (Stopwatch.start nat nat demo_now (Stopwatch.init nat 0%nat) 0%nat))
              1%nat) as [_ H].
  apply (H _ 2%nat). reflexivity.
Defined.

(** X16: [start], [pause], [resume], [stop] in this order accumulate the
    two intervals during which the stopwatch ran, from zero: the time
    between [pause] and [resume] is not counted, what the stopwatch held
    before [start] is discarded, and the elapsed time read afterwards is
    the accumulated time. *)
Theorem stopwatch_counts_running_intervals (World time_point : Type)
    (now : World -> time_point * World)
    (seconds_between : time_point -> time_point -> float)
    (sw : Stopwatch.t time_point) (w : World) :
  let t0 := fst (now w) in let w0 := snd (now w) in
  let t1 := fst (now w0) in let w1 := snd (now w0) in
  let t2 := fst (now w1) in let w2 := snd (now w1) in
  let t3 := fst (now w2) in let w3 := snd (now w2) in
  let r := perform World time_point now seconds_between
             [Start; Pause; Resume; Stop] sw w in
  Stopwatch.accumulated (fst r) =
    (0 + seconds_between t0 t1 + seconds_between t2 t3)%float /\
  Stopwatch.running (fst r) = false /\ snd r = w3 /\
  Stopwatch.total World time_point now seconds_between (fst r) w3 =
    (Stopwatch.accumulated (fst r), w3).
Proof.
  cbv zeta. simpl.
  unfold Stopwatch.start, Stopwatch.pause, Stopwatch.resume, Stopwatch.stop,
    Stopwatch.total.
  destruct (now w) as [t0 w0]. simpl.
  destruct (now w0) as [t1 w1]. simpl.
  destruct (now w1) as [t2 w2]. simpl.
  destruct (now w2) as [t3 w3]. simpl. auto.
Qed.

(** X17: with a steady clock (no reading precedes an earlier one, and the
    duration between ordered readings is not negative) a stopwatch never
    shows negative time: after any sequence of [start], [pause], [resume]
    and [stop] on a new stopwatch, the accumulated time and the four
    elapsed readings are at least zero. *)
Theorem stopwatch_never_negative (World time_point : Type)
    (now : World -> time_point * World)
    (seconds_between : time_point -> time_point -> float)
    (epoch : time_point)
    (before : time_point -> time_point -> Prop) (last : World -> time_point)
    (cs : list call) (w : World) :
  (forall a b c, before a b -> before b c -> before a c) ->
  (forall w, before (last w) (fst (now w)) /\ before (fst (now w)) (last (snd (now w)))) ->
  (forall s e, before s e -> (0 <=? seconds_between s e)%float = true) ->
  let r := perform World time_point now seconds_between cs
             (Stopwatch.init time_point epoch) w in
  let sw := fst r in
  let w' := snd r in
  (0 <=? Stopwatch.accumulated sw)%float = true /\
  (0 <=? fst (Stopwatch.elapsed_s World time_point now seconds_between sw w'))%float = true /\
  (0 <=? fst (Stopwatch.elapsed_ms World time_point now seconds_between sw w'))%float = true /\
  (0 <=? fst (Stopwatch.elapsed_us World time_point now seconds_between sw w'))%float = true /\
  (0 <=? fst (Stopwatch.elapsed_ns World time_point now seconds_between sw w'))%float = true.
Proof.
  intros Ht Hs Hn. cbv zeta.
  assert (I0 : steady_inv World time_point before last (Stopwatch.init time_point epoch) w)
    by (split; [reflexivity|discriminate]).
  pose proof (perform_steady World time_point now seconds_between before last
                Ht Hs Hn cs _ _ I0) as I.
  destruct (perform World time_point now seconds_between cs
              (Stopwatch.init time_point epoch) w) as [sw w'].
  simpl fst in *. simpl snd in *.
  pose proof (total_steady World time_point now seconds_between before last
                Ht Hs Hn sw w' I) as T.
  split; [apply SFnn_leb, I|]. split; [apply SFnn_leb, T|].
  unfold Stopwatch.elapsed_ms, Stopwatch.elapsed_us, Stopwatch.elapsed_ns.
  destruct (Stopwatch.total World time_point now seconds_between sw w') as [t w''].
  simpl in *.
  repeat split; eapply mul_nn_pos; try exact T; reflexivity.
Qed.

Lemma stopwatch_never_negative_witness :
  (0 <=? Stopwatch.accumulated
           (fst (perform nat nat demo_now demo_seconds [Start; Pause; Resume; Stop]
                   (Stopwatch.init nat 0%nat) 0%nat)))%float = true.
Proof.
  apply (stopwatch_never_negative nat nat demo_now demo_seconds 0%nat Peano.le (fun w => w)
           [Start; Pause; Resume; Stop] 0%nat).
  - intros a b c. apply Nat.le_trans.
  - intros w. simpl. split; lia.
  - exact demo_seconds_nonneg.
Defined.

(** X18: when the function of a [Capture] writes [text] to [std::cout],
    [update] stores exactly [text] in the variable, restores the buffer of
    [std::cout], and leaves every buffer that existed before untouched
    (nothing reaches the terminal); a second [update] replaces the
    variable's contents and does not append to them. *)
Theorem capture_update_captures (var : nat) (func : Process -> result Process)
    (text : string) (p : Process) :
  (forall q, func q = write_cout text q) ->
  let c := {| Capture.var := var; Capture.func := func |} in
  let p' := {| bufs := bufs p ++ [Destroyed];
               cout_rdbuf := cout_rdbuf p; cerr_rdbuf := cerr_rdbuf p;
               strings := fun v => if Nat.eqb v var then text else strings p v |} in
  Capture.update c p = Done p' /\
  strings p' var = text /\
  (forall a, a < List.length (bufs p) -> nth_error (bufs p') a = nth_error (bufs p) a) /\
  exists p'', Capture.update c p' = Done p'' /\ strings p'' var = text.
Proof.
  intros Hf. cbv zeta.
  assert (U : forall q,
    Capture.update {| Capture.var := var; Capture.func := func |} q =
    Done {| bufs := bufs q ++ [Destroyed];
            cout_rdbuf := cout_rdbuf q; cerr_rdbuf := cerr_rdbuf q;
            strings := fun v => if Nat.eqb v var then text else strings q v |}).
  { intros q. unfold Capture.update, new_buf. cbn [Capture.func Capture.var].
    rewrite Hf.
    rewrite (write_cout_string _ (List.length (bufs q)) EmptyString text);
      [|reflexivity|apply nth_error_fresh].
    unfold str, destroy, assign, set_cout_rdbuf, set_bufs.
    cbn [rbind bufs cout_rdbuf cerr_rdbuf strings append].
    rewrite store_fresh, nth_error_fresh.
    cbn [rbind bufs cout_rdbuf cerr_rdbuf strings].
    rewrite store_fresh. reflexivity. }
  split; [apply U|]. split; [simpl; rewrite Nat.eqb_refl; reflexivity|]. split.
  - intros a Ha. simpl. rewrite nth_error_app1 by assumption. reflexivity.
  - eexists. split; [apply U|]. simpl. rewrite Nat.eqb_refl. reflexivity.
Qed.

Lemma capture_update_captures_witness :
  Capture.update {| Capture.var := 7; Capture.func := write_cout "Hello" |} demo_process
  = Done {| bufs := bufs demo_process ++ [Destroyed];
            cout_rdbuf := cout_rdbuf demo_process;
            cerr_rdbuf := cerr_rdbuf demo_process;
            strings := fun v => if Nat.eqb v 7 then "Hello" else strings demo_process v |}.
Proof.
  apply (capture_update_captures 7 (write_cout "Hello") "Hello" demo_process).
  reflexivity.
Defined.

(** X19: [Guard]s nest.  With an inner guard opened and closed inside an
    outer one, the inner destination receives what was written while the
    inner guard lived, the outer destination receives what was written
    before and after, [std::cout] ends with the buffer it started with, and
    no buffer that existed before is written to. *)
Theorem guards_nest (d1 d2 : nat) (a b c : string) (p : Process) :
  (let (g1, p) := Guard.make d1 p in
   p <-- write_cout a p ;;
   let (g2, p) := Guard.make d2 p in
   p <-- write_cout b p ;;
   p <-- Guard.drop g2 p ;;
   p <-- write_cout c p ;;
   Guard.drop g1 p) =
  Done {| bufs := bufs p ++ [Destroyed; Destroyed];
          cout_rdbuf := cout_rdbuf p; cerr_rdbuf := cerr_rdbuf p;
          strings := fun v => if Nat.eqb v d1 then a ++ c
                              else if Nat.eqb v d2 then b else strings p v |}.
Proof.
  snatch_unfold.
  rewrite (write_cout_string _ (List.length (bufs p)) EmptyString a);
    [|reflexivity|apply nth_error_fresh].
  snatch_unfold. rewrite store_fresh, length_snoc.
  rewrite (write_cout_string _ (S (List.length (bufs p))) EmptyString b);
    [|reflexivity|apply nth_error_fresh2_1].
  snatch_unfold. rewrite store_fresh2_1, nth_error_fresh2_1.
  snatch_unfold. rewrite store_fresh2_1.
  rewrite (write_cout_string _ (List.length (bufs p)) a c);
    [|reflexivity|apply nth_error_fresh2_0].
  snatch_unfold. rewrite store_fresh2_0, nth_error_fresh2_0.
  snatch_unfold. rewrite store_fresh2_0, <- app_assoc. reflexivity.
Qed.

(** X20: while a [Mute] lives, writing to [std::cout] changes nothing,
    and destroying it restores the process exactly; a [Mute] inside a
    [Mute] restores the muted state, so mutes nest. *)
Theorem mute_discards_and_restores (text : string) (p : Process) :
  let (m1, p1) := Mute.make p in
  let (m2, p2) := Mute.make p1 in
  cout_rdbuf p1 = None /\ bufs p1 = bufs p /\ cerr_rdbuf p1 = cerr_rdbuf p /\
  write_cout text p1 = Done p1 /\ write_cout text p2 = Done p2 /\
  Mute.drop m2 p2 = p1 /\ Mute.drop m1 p1 = p.
Proof.
  simpl. repeat split. destruct p. reflexivity.
Qed.

(** X21: while a [Tee] lives, what is written to [std::cout] goes both to
    the buffer that [std::cout] had before (here a string buffer, such as
    the terminal or the buffer of an enclosing [Guard]) and to the
    destination, in the order written; afterwards [std::cout] has its
    previous buffer again. *)
Theorem tee_duplicates (dest a : nat) (shown text : string) (p : Process) :
  cout_rdbuf p = Some a -> nth_error (bufs p) a = Some (StringBuf shown) ->
  (let (t, p) := Tee.make dest p in
   p <-- write_cout text p ;;
   Tee.drop t p) =
  Done {| bufs := store a (StringBuf (shown ++ text)) (bufs p) ++ [Destroyed; Destroyed];
          cout_rdbuf := cout_rdbuf p; cerr_rdbuf := cerr_rdbuf p;
          strings := fun v => if Nat.eqb v dest then text else strings p v |}.
Proof.
  intros Hc Ha. pose proof (nth_error_lt _ _ _ Ha) as La.
  snatch_unfold. rewrite length_snoc.
  unfold write_cout, write. cbn [cout_rdbuf bufs].
  rewrite !length_snoc.
  set (l' := store a (StringBuf (shown ++ text)) (bufs p)).
  assert (Ll : List.length l' = List.length (bufs p)) by apply store_length.
  rewrite (sputn_tee _ text _ (S (List.length (bufs p))) a (List.length (bufs p))
             shown EmptyString).
  - snatch_unfold.
    rewrite (store_app_l a) by (rewrite length_snoc; lia).
    rewrite (store_app_l a) by lia. fold l'.
    rewrite <- Ll. rewrite store_fresh2_0, nth_error_fresh2_0.
    snatch_unfold. rewrite store_fresh2_1, store_fresh2_0, <- app_assoc. reflexivity.
  - rewrite Hc. apply nth_error_fresh2_1.
  - rewrite <- app_assoc, nth_error_app1 by lia. assumption.
  - apply nth_error_fresh2_0.
  - lia.
Qed.

Lemma tee_duplicates_witness :
  (let (t, p) := Tee.make 7 demo_process in
   p <-- write_cout "Hi" p ;;
   Tee.drop t p) =
  Done {| bufs := [StringBuf "Hi"; StringBuf EmptyString; Destroyed; Destroyed];
          cout_rdbuf := Some 0; cerr_rdbuf := Some 1;
          strings := fun v => if Nat.eqb v 7 then "Hi" else EmptyString |}.
Proof.
  apply (tee_duplicates 7 0 EmptyString "Hi" demo_process); reflexivity.
Defined.

(** X22: a [Tee] constructed while a [Mute] lives saves the null buffer
    pointer as its first target, so the first character written to
    [std::cout] makes [TeeBuffer::overflow] call [sputc] through a null
    pointer: the behaviour is undefined. *)
Theorem tee_inside_mute_is_undefined (dest : nat) (c : ascii) (rest : string)
    (p : Process) :
  let (m, p1) := Mute.make p in
  let (t, p2) := Tee.make dest p1 in
  write_cout (String c rest) p2 = Undefined.
Proof.
  simpl. unfold write_cout, write. cbn [cout_rdbuf bufs set_cout_rdbuf set_bufs].
  cbn [sputn sputc].
  rewrite !length_app. simpl List.length.
  replace (List.length (bufs p) + 1 + 1) with (S (S (List.length (bufs p)))) by lia.
  replace (List.length (bufs p) + 1) with (S (List.length (bufs p))) by lia.
  rewrite <- app_assoc. simpl app.
  rewrite nth_error_app2 by lia.
  replace (S (List.length (bufs p)) - List.length (bufs p)) with 1 by lia.
  reflexivity.
Qed.

(** X23: when the function of a [DualCapture] writes [out] to
    [std::cout] and [err] to [std::cerr], [update] stores [out] and [err]
    in the two variables, restores both streams, and writes to no buffer
    that existed before; when both references name the same variable it
    ends up holding [err], which is assigned last. *)
Theorem dual_capture_separates (cout_var cerr_var : nat)
    (func : Process -> result Process) (out err : string) (p : Process) :
  (forall q, func q = (q <-- write_cout out q ;; write_cerr err q)) ->
  DualCapture.update
    {| DualCapture.cout_var := cout_var; DualCapture.cerr_var := cerr_var;
       DualCapture.func := func |} p =
  Done {| bufs := bufs p ++ [Destroyed; Destroyed];
          cout_rdbuf := cout_rdbuf p; cerr_rdbuf := cerr_rdbuf p;
          strings := fun v => if Nat.eqb v cerr_var then err
                              else if Nat.eqb v cout_var then out else strings p v |}.
Proof.
  intros Hf.
  unfold DualCapture.update. snatch_unfold. cbn [DualCapture.func].
  rewrite Hf, length_snoc.
  rewrite (write_cout_string _ (List.length (bufs p)) EmptyString out);
    [|reflexivity|apply nth_error_fresh2_0].
  snatch_unfold. rewrite store_fresh2_0.
  rewrite (write_cerr_string _ (S (List.length (bufs p))) EmptyString err);
    [|reflexivity|apply nth_error_fresh2_1].
  snatch_unfold. rewrite store_fresh2_1, nth_error_fresh2_0.
  cbn [DualCapture.cout_var DualCapture.cerr_var]. snatch_unfold.
  rewrite nth_error_fresh2_1. snatch_unfold.
  rewrite store_fresh2_1, store_fresh2_0, <- app_assoc. reflexivity.
Qed.

Lemma dual_capture_separates_witness :
  DualCapture.update
    {| DualCapture.cout_var := 3; DualCapture.cerr_var := 4;
       DualCapture.func := fun q => q <-- write_cout "o" q ;; write_cerr "e" q |}
    demo_process =
  Done {| bufs := bufs demo_process ++ [Destroyed; Destroyed];
          cout_rdbuf := Some 0; cerr_rdbuf := Some 1;
          strings := fun v => if Nat.eqb v 4 then "e"
                              else if Nat.eqb v 3 then "o" else EmptyString |}.
Proof.
  apply (dual_capture_separates 3 4 _ "o" "e" demo_process). reflexivity.
Defined.

(** X24: how [Repent] joins its parts.  A string is appended as it is; the
    result of a callable gets one space before it unless it is empty or
    starts with [@]; a time point is written as [ @ ] and the formatted
    time, so a callable that returns a time point gets a second space (its
    text starts with a space, not with [@]); and each further level of
    callable adds one more space. *)
Theorem repent_callable_spacing (time_point : Type) (put_time : time_point -> string)
    (v : arg time_point) (c : ascii) (s : string) (t : time_point) (n : nat) :
  let toString := toString time_point put_time in
  let make2 := make2 time_point put_time in
  make2 v (Streamed (String c s)) = toString v ++ String c s /\
  make2 v (Callable (Streamed EmptyString)) = toString v ++ EmptyString /\
  make2 v (Callable (Streamed (String "@" s))) = toString v ++ String "@" s /\
  (c <> "@"%char ->
   make2 v (Callable (Streamed (String c s))) = toString v ++ " " ++ String c s) /\
  make2 (TimePoint t) (Streamed s) = (" @ " ++ put_time t) ++ s /\
  make2 v (Callable (TimePoint t)) = toString v ++ "  @ " ++ put_time t /\
  (c <> "@"%char ->
   toString (nested n (Streamed (String c s))) = spaces n ++ String c s).
Proof.
  cbv zeta. unfold make2. simpl.
  repeat split.
  - intros H. destruct (Ascii.eqb_spec c "@"); [contradiction|reflexivity].
  - intros H. induction n as [|n IH]; [reflexivity|].
    simpl. rewrite IH.
    destruct n as [|n].
    + simpl. destruct (Ascii.eqb_spec c "@"); [contradiction|reflexivity].
    + reflexivity.
Qed.

Lemma repent_callable_spacing_witness :
  toString nat (fun _ => "2026-01-06 12:00:00")
    (nested 2 (Streamed "now")) = "  now".
Proof.
  apply (repent_callable_spacing nat (fun _ => "2026-01-06 12:00:00")
           (Streamed "x") "n" "ow" 0 2).
  discriminate.
Defined.

(** X25: a [Timer] or [NamedTimer] writes, when destroyed, exactly one
    line to whatever buffer [std::cout] has at that moment: inside a
    [Guard] the destination receives [Timer took ] (or the label and a
    colon), the duration between the two readings of the clock formatted
    in the timer's unit, and a newline, and the terminal receives nothing;
    inside a [Mute] nothing is written at all. *)
Theorem scope_timers_write_one_line (World time_point : Type)
    (now : World -> time_point * World)
    (seconds_between : time_point -> time_point -> float)
    (to_string : float -> string)
    (u : tick.TimeUnit) (name : string) (dest : nat) (w : World) (p : Process) :
  let t0 := fst (now w) in
  let t1 := fst (now (snd (now w))) in
  let w1 := snd (now (snd (now w))) in
  let line := tick.format_duration to_string (seconds_between t0 t1) u ++ tick.endl in
  let captured text :=
    Done (w1, {| bufs := bufs p ++ [Destroyed];
                 cout_rdbuf := cout_rdbuf p; cerr_rdbuf := cerr_rdbuf p;
                 strings := fun v => if Nat.eqb v dest then text else strings p v |}) in
  (let (g, p) := Guard.make dest p in
   let (t, w) := tick.Timer_make World time_point now u w in
   r <-- tick.Timer_drop World time_point now seconds_between to_string t w p ;;
   p <-- Guard.drop g (snd r) ;;
   Done (fst r, p)) = captured ("Timer took " ++ line) /\
  (let (g, p) := Guard.make dest p in
   let (t, w) := tick.NamedTimer_make World time_point now name u w in
   r <-- tick.NamedTimer_drop World time_point now seconds_between to_string t w p ;;
   p <-- Guard.drop g (snd r) ;;
   Done (fst r, p)) = captured (name ++ ": " ++ line) /\
  (let (m, p) := Mute.make p in
   let (t, w) := tick.Timer_make World time_point now u w in
   r <-- tick.Timer_drop World time_point now seconds_between to_string t w p ;;
   Done (fst r, Mute.drop m (snd r))) = Done (w1, p).
Proof.
  cbv zeta. split; [|split].
  - unfold Guard.make, new_buf. unfold tick.Timer_make.
    destruct (now w) as [t0 w0]. cbn [fst snd].
    rewrite (Timer_drop_string World time_point now seconds_between to_string
               _ w0 _ (List.length (bufs p)) EmptyString);
      [|reflexivity|apply nth_error_fresh].
    snatch_unfold. cbn [tick.start tick.unit]. rewrite store_fresh, nth_error_fresh.
    snatch_unfold. rewrite store_fresh. reflexivity.
  - unfold Guard.make, new_buf. unfold tick.NamedTimer_make.
    destruct (now w) as [t0 w0]. cbn [fst snd].
    rewrite (NamedTimer_drop_string World time_point now seconds_between to_string
               _ w0 _ (List.length (bufs p)) EmptyString);
      [|reflexivity|apply nth_error_fresh].
    snatch_unfold. cbn [tick.named_start tick.named_unit tick.label].
    rewrite store_fresh, nth_error_fresh.
    snatch_unfold. rewrite store_fresh. reflexivity.
  - unfold Mute.make, Mute.drop, tick.Timer_make, tick.Timer_drop.
    destruct (now w) as [t0 w0]. cbn [fst snd].
    destruct (now w0) as [t1 w1]. cbn [fst snd].
    unfold write_cout, write, set_cout_rdbuf. cbn [cout_rdbuf rbind fst snd bufs
      cerr_rdbuf strings Mute.original_buffer].
    destruct p. reflexivity.
Qed.
